(** * The grpc-js client core: call surfaces, client facade, base filter

    A shallow embedding of [packages/grpc-js/src/call.ts],
    [packages/grpc-js/src/client.ts] and the filter module, followed by the
    properties of the specification that concern them.

    Conventions.  Code that only acts on its collaborators (the underlying
    [Call], the Node stream it extends, the user callbacks) is embedded as a
    function returning the list of effects it performs, in program order.
    Closure variables captured by event listeners become an explicit state
    record.  A function that may throw returns a [completion]. *)

From stdpp Require Import base option list strings gmap.
From Stdlib Require Import ZArith.
From Stdlib.Strings Require Import Byte.

Local Open Scope string_scope.
Local Open Scope list_scope.

(** ** JavaScript values shared by all modules *)

(** A value thrown by user code (a serializer, a deserializer) or by the
    library itself; only its message is observed. *)
Inductive Thrown :=
| JsError (message : string).

(** The outcome of evaluating a call that may throw. *)
Inductive completion (A : Type) :=
| Normal (a : A)
| Throw (e : Thrown).
Arguments Normal {A} a.
Arguments Throw {A} e.

#[global] Instance completion_fmap : FMap completion :=
  λ A B f c, match c with Normal a => Normal (f a) | Throw e => Throw e end.

(** Node's [Buffer]. *)
Definition Buffer := list byte.

(** A JavaScript number as far as the sources observe it: the only test
    applied to one is [Number.isNaN]. *)
Inductive JsNumber :=
| NaN
| Num (n : Z).

Definition Number_isNaN (x : JsNumber) : bool :=
  match x with NaN => true | Num _ => false end.

(** A function object passed as a completion callback, known by identity. *)
Definition Callback := nat.

Module Constants.

(** Modelled from the spec: the [Status] enumeration of [./constants], which
    is imported by both sources but is not among them.  The spec (section 3)
    takes the code of a status from the gRPC status codes, which are listed
    here, and names [OK], [CANCELLED], [UNKNOWN], [DEADLINE_EXCEEDED],
    [INTERNAL] and [UNAVAILABLE]; the sources use [OK], [CANCELLED] and
    [INTERNAL]. *)
Inductive Status :=
| OK
| CANCELLED
| UNKNOWN
| INVALID_ARGUMENT
| DEADLINE_EXCEEDED
| NOT_FOUND
| ALREADY_EXISTS
| PERMISSION_DENIED
| RESOURCE_EXHAUSTED
| FAILED_PRECONDITION
| ABORTED
| OUT_OF_RANGE
| UNIMPLEMENTED
| INTERNAL
| UNAVAILABLE
| DATA_LOSS
| UNAUTHENTICATED.

#[global] Instance Status_eq_dec : EqDecision Status.
Proof. solve_decision. Defined.

End Constants.
Export Constants.

Module CallStream.

(** Modelled from the spec: the type [Metadata] of [./metadata] (section 3:
    a mapping from a key to an ordered sequence of values, iterated in
    insertion order).  The sources only construct the empty one and pass
    instances around. *)
Definition Metadata := list (string * list string).

(** [new Metadata()] *)
Definition Metadata_new : Metadata := [].

(** Modelled from the spec: the type [Deadline] of [./call-stream] (section
    3: an absolute instant or infinity). *)
Inductive Deadline :=
| Infinity
| Instant (t : Z).

(** Modelled from the spec: [StatusObject] of [./call-stream] (section 3). *)
Record StatusObject := {
  code : Status;
  details : string;
  metadata : Metadata
}.

(** Modelled from the spec: [WriteObject] of [./call-stream] (section 3: a
    payload and an optional flag word); [call.ts] builds it as [{message}]
    and then sets [flags] when there is one. *)
Record WriteObject := {
  message : Buffer;
  flags : option JsNumber
}.

(** A [Call] object, known by identity. *)
Definition Call := nat.

(** [CallCredentials] of [./call-credentials], known by identity. *)
Definition CallCredentials := nat.

(** The names of the events a [Call] emits. *)
Inductive EventName :=
| ev_metadata
| ev_data
| ev_end
| ev_status.

(** The methods of [Call] that the sources invoke, with their arguments. *)
Inductive CallOp :=
| cancelWithStatus (status : Status) (details : string)
| pause
| resume
| end_
| write (writeObj : WriteObject) (cb : option Callback)
| sendMetadata (metadata : Metadata)
| setCredentials (credentials : CallCredentials)
| on (event : EventName)
| once (event : EventName).

End CallStream.
Export CallStream.

(** [ServiceError = StatusObject & Error], as built by
    [Object.assign(new Error(status.details), status)]: an [Error] whose
    message is the details of the status, carrying every field of the
    status. *)
Record ServiceError := {
  error_message : string;
  error_status : StatusObject
}.

Definition ServiceError_of (status : StatusObject) : ServiceError :=
  {| error_message := details status; error_status := status |}.

(** Events a surface object emits to the application. *)
Inductive SurfaceEvent :=
| emit_metadata (metadata : Metadata)
| emit_status (status : StatusObject)
| emit_error (error : ServiceError).

(** What surface code does, in program order.  [Resp] is the type of
    deserialized response messages.  [Push (Some message)] is
    [stream.push(message)] for a message other than [null], and
    [Push None] is [stream.push(null)], which ends the stream: an
    object-mode stream cannot carry [null] as a message.  [Emit] is a call
    of [emit] on the surface object; the listeners of the application are
    outside the model and are taken to return normally.  An 'error' event
    that finds no listener is thrown by [emit]: [Uncaught error] is that
    throw, which ends the listener that called [emit] and the dispatch of
    the event of the call that it was handling. *)
Inductive Effect (Resp : Type) :=
| CallDo (call : Call) (op : CallOp)
| Push (chunk : option Resp)
| Emit (event : SurfaceEvent)
| Uncaught (error : ServiceError)
| InvokeWriteCb (cb : Callback) (err : option Thrown)
| InvokeUnaryCb (cb : Callback) (err : option ServiceError) (value : option Resp).
Arguments CallDo {Resp} call op.
Arguments Push {Resp} chunk.
Arguments Emit {Resp} event.
Arguments Uncaught {Resp} error.
Arguments InvokeWriteCb {Resp} cb err.
Arguments InvokeUnaryCb {Resp} cb err value.

(** ** call.ts: the four call surfaces *)

Module CallSurface.

(** *** class ClientUnaryCallImpl *)
Module ClientUnaryCallImpl.
Section Class.
Context {Resp : Type}.

Record t := { call : Call }.

(** The constructor installs the two forwarding listeners. *)
Definition constructor (call : Call) : t * list (Effect Resp) :=
  ({| call := call |},
   [CallDo call (on ev_metadata); CallDo call (on ev_status)]).

(** [call.on('metadata', ...)] *)
Definition on_metadata (this : t) (metadata : Metadata) : list (Effect Resp) :=
  [Emit (emit_metadata metadata)].

(** [call.on('status', ...)] *)
Definition on_status (this : t) (status : StatusObject) : list (Effect Resp) :=
  [Emit (emit_status status)].

Definition cancel (this : t) : list (Effect Resp) :=
  [CallDo (call this) (cancelWithStatus CANCELLED "Cancelled on client")].

End Class.
End ClientUnaryCallImpl.

(** *** function setUpReadableStream *)
Section SetUpReadableStream.
Context {Resp : Type}.
(** The test [deserialized === null] that [stream.push] applies to its
    argument: a type of responses may have [null] among its values. *)
Context (null : Resp -> bool).

(** The variables the installed listeners capture: the flag
    [statusEmitted], and how many listeners added by
    [call.once('status', ...)] have not run yet. *)
Record ReadableSetup := {
  statusEmitted : bool;
  pendingOnce : nat
}.

(** The body of [setUpReadableStream]: three listeners are installed, then
    the call is paused. *)
Definition setUpReadableStream (call : Call) : ReadableSetup * list (Effect Resp) :=
  ({| statusEmitted := false; pendingOnce := 0 |},
   [CallDo call (on ev_data); CallDo call (on ev_end);
    CallDo call (on ev_status); CallDo call pause]).

(** [stream.push(deserialized)]: pushing [null] is pushing the end of the
    stream. *)
Definition chunk_of (deserialized : Resp) : option Resp :=
  if null deserialized then None else Some deserialized.

(** [call.on('data', ...)].  [accepted] is what [stream.push(deserialized)]
    returns, which Node decides from the fill of the stream's buffer (and
    is false when the end of the stream is pushed). *)
Definition on_data (call : Call) (deserialize : Buffer -> completion Resp)
    (st : ReadableSetup) (data : Buffer) (accepted : bool)
  : ReadableSetup * list (Effect Resp) :=
  match deserialize data with
  | Throw e =>
      (st, [CallDo call (cancelWithStatus INTERNAL "Failed to parse server response")])
  | Normal deserialized =>
      (st, Push (chunk_of deserialized) :: if accepted then [] else [CallDo call pause])
  end.

(** [call.on('end', ...)] *)
Definition on_end (call : Call) (st : ReadableSetup)
  : ReadableSetup * list (Effect Resp) :=
  if statusEmitted st then (st, [Push None])
  else ({| statusEmitted := statusEmitted st; pendingOnce := S (pendingOnce st) |},
        [CallDo call (once ev_status)]).

(** [call.on('status', ...)], the listener installed by
    [setUpReadableStream] itself.  [listened] tells whether the stream has
    a listener for 'error' when the event comes, which is the
    application's doing: without one [stream.emit('error', error)] throws
    the error, and the listener ends there, before it emits 'status' and
    before it sets the flag.  The boolean of the result tells whether the
    listener returned. *)
Definition on_status (st : ReadableSetup) (status : StatusObject) (listened : bool)
  : ReadableSetup * list (Effect Resp) * bool :=
  if decide (code status ≠ OK) then
    if listened then
      ({| statusEmitted := true; pendingOnce := pendingOnce st |},
       [Emit (emit_error (ServiceError_of status)); Emit (emit_status status)], true)
    else
      (st, [Emit (emit_error (ServiceError_of status));
            Uncaught (ServiceError_of status)], false)
  else
    ({| statusEmitted := true; pendingOnce := pendingOnce st |},
     [Emit (emit_status status)], true).

(** The listeners added by [call.once('status', ...)] run after [on_status],
    in the order they were added, each once. *)
Definition once_status (st : ReadableSetup) : ReadableSetup * list (Effect Resp) :=
  ({| statusEmitted := statusEmitted st; pendingOnce := 0 |},
   replicate (pendingOnce st) (Push None)).

(** A 'status' event of the call reaches its listeners in the order they
    were installed, as long as they return: a listener that throws ends
    the dispatch, and the listeners added by [once] that have not been
    called stay. *)
Definition status_event (st : ReadableSetup) (status : StatusObject) (listened : bool)
  : ReadableSetup * list (Effect Resp) :=
  let '(st1, effs1, returned) := on_status st status listened in
  if returned then
    let '(st2, effs2) := once_status st1 in
    (st2, effs1 ++ effs2)
  else (st1, effs1).

End SetUpReadableStream.

(** *** function tryWrite *)
Section TryWrite.
Context {Req Resp : Type}.
(** The conversion [Number(encoding)] of the language. *)
Context (Number : string -> JsNumber).

Definition tryWrite (call : Call) (serialize : Req -> completion Buffer)
    (chunk : Req) (encoding : string) (cb : Callback) : list (Effect Resp) :=
  let flags := Number encoding in
  match serialize chunk with
  | Throw e =>
      [CallDo call (cancelWithStatus INTERNAL "Serialization failure");
       InvokeWriteCb cb (Some e)]
  | Normal message =>
      let writeObj := {| message := message; flags := None |} in
      let writeObj :=
        if negb (Number_isNaN flags)
        then {| message := message; flags := Some flags |}
        else writeObj in
      [CallDo call (write writeObj (Some cb))]
  end.

End TryWrite.

(** What reaches a readable surface: the events of its call, [_read] from
    the stream machinery, [cancel()] from the application.  A 'data' event
    comes with what [stream.push] will answer, and a 'status' event with
    whether the stream has a listener for 'error' at that time. *)
Inductive ReadableInput :=
| CallMetadata (metadata : Metadata)
| CallData (data : Buffer) (accepted : bool)
| CallEnd
| CallStatus (status : StatusObject) (listened : bool)
| StreamRead (size : nat)
| AppCancel.

(** *** class ClientReadableStreamImpl *)
Module ClientReadableStreamImpl.
Section Class.
Context {Resp : Type}.
Context (null : Resp -> bool).

Record t := {
  call : Call;
  deserialize : Buffer -> completion Resp;
  setup : ReadableSetup
}.

Definition with_setup (this : t) (st : ReadableSetup) : t :=
  {| call := call this; deserialize := deserialize this; setup := st |}.

Definition constructor (call : Call) (deserialize : Buffer -> completion Resp)
  : t * list (Effect Resp) :=
  let '(st, effs) := setUpReadableStream call in
  ({| call := call; deserialize := deserialize; setup := st |},
   CallDo call (on ev_metadata) :: effs).

Definition cancel (this : t) : list (Effect Resp) :=
  [CallDo (call this) (cancelWithStatus CANCELLED "Cancelled on client")].

Definition _read (this : t) (_size : nat) : list (Effect Resp) :=
  [CallDo (call this) resume].

(** One input, handled by the listener or method it reaches. *)
Definition step (this : t) (i : ReadableInput) : t * list (Effect Resp) :=
  match i with
  | CallMetadata metadata => (this, [Emit (emit_metadata metadata)])
  | CallData data accepted =>
      let '(st, effs) :=
        on_data null (call this) (deserialize this) (setup this) data accepted in
      (with_setup this st, effs)
  | CallEnd =>
      let '(st, effs) := on_end (call this) (setup this) in
      (with_setup this st, effs)
  | CallStatus status listened =>
      let '(st, effs) := status_event (setup this) status listened in
      (with_setup this st, effs)
  | StreamRead size => (this, _read this size)
  | AppCancel => (this, cancel this)
  end.

End Class.
Arguments t Resp : clear implicits.
End ClientReadableStreamImpl.

(** What reaches a writable surface. *)
Inductive WritableInput (Req : Type) :=
| WCallMetadata (metadata : Metadata)
| WCallStatus (status : StatusObject)
| StreamWrite (chunk : Req) (encoding : string) (cb : Callback)
| StreamFinal (cb : Callback)
| WAppCancel.
Arguments WCallMetadata {Req} metadata.
Arguments WCallStatus {Req} status.
Arguments StreamWrite {Req} chunk encoding cb.
Arguments StreamFinal {Req} cb.
Arguments WAppCancel {Req}.

(** *** class ClientWritableStreamImpl *)
Module ClientWritableStreamImpl.
Section Class.
Context {Req Resp : Type}.
Context (Number : string -> JsNumber).

Record t := {
  call : Call;
  serialize : Req -> completion Buffer
}.

Definition constructor (call : Call) (serialize : Req -> completion Buffer)
  : t * list (Effect Resp) :=
  ({| call := call; serialize := serialize |},
   [CallDo call (on ev_metadata); CallDo call (on ev_status)]).

Definition cancel (this : t) : list (Effect Resp) :=
  [CallDo (call this) (cancelWithStatus CANCELLED "Cancelled on client")].

Definition _write (this : t) (chunk : Req) (encoding : string) (cb : Callback)
  : list (Effect Resp) :=
  tryWrite Number (call this) (serialize this) chunk encoding cb.

Definition _final (this : t) (cb : Callback) : list (Effect Resp) :=
  [CallDo (call this) end_; InvokeWriteCb cb None].

Definition step (this : t) (i : WritableInput Req) : t * list (Effect Resp) :=
  match i with
  | WCallMetadata metadata => (this, [Emit (emit_metadata metadata)])
  | WCallStatus status => (this, [Emit (emit_status status)])
  | StreamWrite chunk encoding cb => (this, _write this chunk encoding cb)
  | StreamFinal cb => (this, _final this cb)
  | WAppCancel => (this, cancel this)
  end.

End Class.
Arguments t Req : clear implicits.
End ClientWritableStreamImpl.

(** What reaches a duplex surface: what reaches a readable one, and the
    writes and the finalization of a writable one. *)
Inductive DuplexInput (Req : Type) :=
| Readable (i : ReadableInput)
| DuplexWrite (chunk : Req) (encoding : string) (cb : Callback)
| DuplexFinal (cb : Callback).
Arguments Readable {Req} i.
Arguments DuplexWrite {Req} chunk encoding cb.
Arguments DuplexFinal {Req} cb.

(** *** class ClientDuplexStreamImpl *)
Module ClientDuplexStreamImpl.
Section Class.
Context {Req Resp : Type}.
Context (null : Resp -> bool).
Context (Number : string -> JsNumber).

Record t := {
  call : Call;
  serialize : Req -> completion Buffer;
  deserialize : Buffer -> completion Resp;
  setup : ReadableSetup
}.

Definition with_setup (this : t) (st : ReadableSetup) : t :=
  {| call := call this; serialize := serialize this;
     deserialize := deserialize this; setup := st |}.

Definition constructor (call : Call) (serialize : Req -> completion Buffer)
    (deserialize : Buffer -> completion Resp) : t * list (Effect Resp) :=
  let '(st, effs) := setUpReadableStream call in
  ({| call := call; serialize := serialize; deserialize := deserialize;
      setup := st |},
   CallDo call (on ev_metadata) :: effs).

Definition cancel (this : t) : list (Effect Resp) :=
  [CallDo (call this) (cancelWithStatus CANCELLED "Cancelled on client")].

Definition _read (this : t) (_size : nat) : list (Effect Resp) :=
  [CallDo (call this) resume].

Definition _write (this : t) (chunk : Req) (encoding : string) (cb : Callback)
  : list (Effect Resp) :=
  tryWrite Number (call this) (serialize this) chunk encoding cb.

Definition _final (this : t) (cb : Callback) : list (Effect Resp) :=
  [CallDo (call this) end_; InvokeWriteCb cb None].

Definition step (this : t) (i : DuplexInput Req) : t * list (Effect Resp) :=
  match i with
  | Readable (CallMetadata metadata) => (this, [Emit (emit_metadata metadata)])
  | Readable (CallData data accepted) =>
      let '(st, effs) :=
        on_data null (call this) (deserialize this) (setup this) data accepted in
      (with_setup this st, effs)
  | Readable CallEnd =>
      let '(st, effs) := on_end (call this) (setup this) in
      (with_setup this st, effs)
  | Readable (CallStatus status listened) =>
      let '(st, effs) := status_event (setup this) status listened in
      (with_setup this st, effs)
  | Readable (StreamRead size) => (this, _read this size)
  | Readable AppCancel => (this, cancel this)
  | DuplexWrite chunk encoding cb => (this, _write this chunk encoding cb)
  | DuplexFinal cb => (this, _final this cb)
  end.

End Class.
Arguments t Req Resp : clear implicits.
End ClientDuplexStreamImpl.

(** A surface processes its inputs one after the other; the effects of the
    whole run are those of the steps, in order. *)
Fixpoint run {S I E : Type} (step : S -> I -> S * list E) (s : S) (inputs : list I)
  : S * list E :=
  match inputs with
  | [] => (s, [])
  | i :: rest =>
      let '(s1, effs1) := step s i in
      let '(s2, effs2) := run step s1 rest in
      (s2, effs1 ++ effs2)
  end.

(** Modelled from the spec: the flow control of [Call], whose module
    [./call-stream] is not among the sources.  Section 4.4: "If the surface
    stream indicates back-pressure (pause), the Call instructs the transport
    to stop reading until resume"; section 8: "pausing the readable surface
    prevents additional data events until resumed".  So a call is paused or
    not, [pause()] and [resume()] on it set that, and a paused call emits no
    'data' event. *)
Definition paused_after {Resp : Type} (call : Call) (paused : bool)
    (effect : Effect Resp) : bool :=
  match effect with
  | CallDo c pause => if decide (c = call) then true else paused
  | CallDo c resume => if decide (c = call) then false else paused
  | _ => paused
  end.

(** A surface on its call: every input is handled as in [run], and an input
    that is a 'data' event is only possible while the call is not paused.
    The result is [None] when the inputs are no behaviour of the call. *)
Fixpoint run_on_call {S I Resp : Type} (step : S -> I -> S * list (Effect Resp))
    (is_data : I -> bool) (call : Call) (paused : bool) (s : S) (inputs : list I)
  : option (S * list (Effect Resp)) :=
  match inputs with
  | [] => Some (s, [])
  | i :: rest =>
      if is_data i && paused then None
      else
        let '(s1, effs1) := step s i in
        match run_on_call step is_data call (foldl (paused_after call) paused effs1) s1 rest with
        | Some (s2, effs2) => Some (s2, effs1 ++ effs2)
        | None => None
        end
  end.

(** The input of a readable stream inside an input of a duplex stream. *)
Definition readable_part {Req : Type} (i : DuplexInput Req) : option ReadableInput :=
  match i with
  | Readable r => Some r
  | _ => None
  end.

Definition readable_is_data (i : ReadableInput) : bool :=
  match i with CallData _ _ => true | _ => false end.

Definition duplex_is_data {Req : Type} (i : DuplexInput Req) : bool :=
  match i with Readable (CallData _ _) => true | _ => false end.

End CallSurface.

(** ** client.ts: the client facade *)

Module Client.
Import CallSurface.

(** The events of a [Call], with their payloads. *)
Inductive CallEvent :=
| EvMetadata (metadata : Metadata)
| EvData (data : Buffer)
| EvEnd
| EvStatus (status : StatusObject).

(** [interface CallOptions]; an absent field is [None]. *)
Record CallOptions := {
  deadline : option Deadline;
  host : option string;
  parent : option Call;
  propagate_flags : option JsNumber;
  credentials : option CallCredentials
}.

(** The object literal [{}] used as options. *)
Definition no_options : CallOptions :=
  {| deadline := None; host := None; parent := None;
     propagate_flags := None; credentials := None |}.

(** *** The constructor and the channel slot *)
Section Construction.
(** [Channel], [ChannelCredentials] and [ChannelOptions] are declared in
    modules that are not among the sources; instances are only passed on. *)
Context {Channel ChannelCredentials ChannelOptions : Type}.

(** A function object given as [channelFactoryOverride], known by identity. *)
Definition ChannelFactory := nat.

(** [type ClientOptions]: some channel options and the two overrides. *)
Record ClientOptions := {
  channelOptions : ChannelOptions;
  channelOverride : option Channel;
  channelFactoryOverride : option ChannelFactory
}.

(** What a factory returns when called, and the object [new Http2Channel]
    yields: both belong to the caller and to [./channel]. *)
Context (call_factory : ChannelFactory -> string -> ChannelCredentials -> ClientOptions -> Channel).
Context (Http2Channel : string -> ChannelCredentials -> ClientOptions -> Channel).

(** What the methods of [Client] below do to the outside. *)
Inductive ChannelEffect :=
| FactoryCalled (factory : ChannelFactory) (address : string)
    (credentials : ChannelCredentials) (options : ClientOptions)
| Http2ChannelConstructed (address : string) (credentials : ChannelCredentials)
    (options : ClientOptions)
| ChannelClosed (channel : Channel).

(** [class Client]: its only field is the slot [this[kChannel]]. *)
Record t := { kChannel : Channel }.

(** [constructor(address, credentials, options = {})]; [default_options] is
    the value of [{}]. *)
Definition constructor (default_options : ClientOptions) (address : string)
    (credentials : ChannelCredentials) (options : option ClientOptions)
  : t * list ChannelEffect :=
  let options := match options with Some o => o | None => default_options end in
  match channelOverride options with
  | Some channel => ({| kChannel := channel |}, [])
  | None =>
      match channelFactoryOverride options with
      | Some factory =>
          ({| kChannel := call_factory factory address credentials options |},
           [FactoryCalled factory address credentials options])
      | None =>
          ({| kChannel := Http2Channel address credentials options |},
           [Http2ChannelConstructed address credentials options])
      end
  end.

Definition close (this : t) : list ChannelEffect :=
  [ChannelClosed (kChannel this)].

Definition getChannel (this : t) : Channel := kChannel this.

End Construction.
Arguments ClientOptions Channel ChannelOptions : clear implicits.
Arguments ChannelEffect Channel ChannelCredentials ChannelOptions : clear implicits.
Arguments t Channel : clear implicits.

(** *** method handleUnaryResponse *)
Section HandleUnaryResponse.
Context {Resp : Type}.
(** [x == null] for a value [x] of [ResponseType]: whether it is [null] or
    [undefined]. *)
Context (nullish : Resp -> bool).

(** [responseMessage == null] for the variable
    [responseMessage: ResponseType|null]; [None] is its initial [null]. *)
Definition is_null (responseMessage : option Resp) : bool :=
  match responseMessage with
  | None => true
  | Some value => nullish value
  end.

(** The body of [handleUnaryResponse]: the captured variable
    [responseMessage] starts as [null], and three listeners are installed. *)
Definition install (call : Call) : option Resp * list (Effect Resp) :=
  (None, [CallDo call (on ev_data); CallDo call (on ev_end); CallDo call (on ev_status)]).

(** [call.on('data', ...)] *)
Definition on_data (call : Call) (deserialize : Buffer -> completion Resp)
    (responseMessage : option Resp) (data : Buffer)
  : option Resp * list (Effect Resp) :=
  let too_many :=
    if negb (is_null responseMessage)
    then [CallDo call (cancelWithStatus INTERNAL "Too many responses received")]
    else [] in
  match deserialize data with
  | Normal value => (Some value, too_many)
  | Throw e =>
      (responseMessage,
       too_many ++ [CallDo call (cancelWithStatus INTERNAL "Failed to parse server response")])
  end.

(** [call.on('end', ...)] *)
Definition on_end (call : Call) (responseMessage : option Resp)
  : option Resp * list (Effect Resp) :=
  (responseMessage,
   if is_null responseMessage
   then [CallDo call (cancelWithStatus INTERNAL "Not enough responses received")]
   else []).

(** [call.on('status', ...)] *)
Definition on_status (callback : Callback) (responseMessage : option Resp)
    (status : StatusObject) : option Resp * list (Effect Resp) :=
  (responseMessage,
   if decide (code status = OK)
   then [InvokeUnaryCb callback None responseMessage]
   else [InvokeUnaryCb callback (Some (ServiceError_of status)) None]).

(** The listeners of one call and the variable they capture. *)
Record Handler := {
  call : Call;
  deserialize : Buffer -> completion Resp;
  callback : Callback;
  responseMessage : option Resp
}.

(** [handleUnaryResponse(call, deserialize, callback)] *)
Definition handleUnaryResponse (call : Call)
    (deserialize : Buffer -> completion Resp) (callback : Callback)
  : Handler * list (Effect Resp) :=
  let '(responseMessage, effs) := install call in
  ({| call := call; deserialize := deserialize; callback := callback;
      responseMessage := responseMessage |}, effs).

(** One event of the call, handled by the listener it reaches; no listener
    is installed for 'metadata' here. *)
Definition handle (h : Handler) (ev : CallEvent) : Handler * list (Effect Resp) :=
  let '(responseMessage, effs) :=
    match ev with
    | EvMetadata _ => (responseMessage h, [])
    | EvData data => on_data (call h) (deserialize h) (responseMessage h) data
    | EvEnd => on_end (call h) (responseMessage h)
    | EvStatus status => on_status (callback h) (responseMessage h) status
    end in
  ({| call := call h; deserialize := deserialize h; callback := callback h;
      responseMessage := responseMessage |}, effs).

End HandleUnaryResponse.
Arguments Handler Resp : clear implicits.

(** The order of events the handler expects of its call: metadata, any
    number of data, end, status. *)
Definition in_call_order (events : list CallEvent) : Prop :=
  ∃ metadata messages status,
    events = EvMetadata metadata :: (EvData <$> messages) ++ [EvEnd; EvStatus status].

(** *** Resolution of the optional arguments *)

(** The union type [Metadata|CallOptions]. *)
Inductive MetadataOrOptions :=
| a_metadata (metadata : Metadata)
| an_options (options : CallOptions).

(** The union type [A|UnaryCallback<ResponseType>]. *)
Inductive OrCallback (A : Type) :=
| value (a : A)
| function (callback : Callback).
Arguments value {A} a.
Arguments function {A} callback.

Module Resolved.
(** The object [{metadata, options, callback}]. *)
Record t := {
  metadata : Metadata;
  options : CallOptions;
  callback : Callback
}.
End Resolved.

Module MetadataAndOptions.
(** The object [{metadata, options}]. *)
Record t := {
  metadata : Metadata;
  options : CallOptions
}.
End MetadataAndOptions.

(** [arg1 instanceof Function] is the test for [function _];
    [arg1 instanceof Metadata] the test for [value (a_metadata _)];
    [arg2 instanceof Object], reached when [arg2] is not a function, the
    test for [Some (value _)]. *)
Definition checkOptionalUnaryResponseArguments
    (arg1 : OrCallback MetadataOrOptions)
    (arg2 : option (OrCallback CallOptions))
    (arg3 : option Callback) : completion Resolved.t :=
  match arg1 with
  | function callback =>
      Normal {| Resolved.metadata := Metadata_new;
                Resolved.options := no_options;
                Resolved.callback := callback |}
  | value first =>
      match arg2 with
      | Some (function callback) =>
          match first with
          | a_metadata metadata =>
              Normal {| Resolved.metadata := metadata;
                        Resolved.options := no_options;
                        Resolved.callback := callback |}
          | an_options options =>
              Normal {| Resolved.metadata := Metadata_new;
                        Resolved.options := options;
                        Resolved.callback := callback |}
          end
      | _ =>
          match first, arg2, arg3 with
          | a_metadata metadata, Some (value options), Some callback =>
              Normal {| Resolved.metadata := metadata;
                        Resolved.options := options;
                        Resolved.callback := callback |}
          | _, _, _ => Throw (JsError "Incorrect arguments passed")
          end
      end
  end.

(** An object is truthy, [undefined] is not: [if (arg2)] and [if (arg1)]
    test for [Some _]. *)
Definition checkMetadataAndOptions (arg1 : option MetadataOrOptions)
    (arg2 : option CallOptions) : MetadataAndOptions.t :=
  match arg1 with
  | Some (a_metadata metadata) =>
      {| MetadataAndOptions.metadata := metadata;
         MetadataAndOptions.options :=
           match arg2 with Some options => options | None => no_options end |}
  | _ =>
      {| MetadataAndOptions.options :=
           match arg1 with
           | Some (an_options options) => options
           | _ => no_options
           end;
         MetadataAndOptions.metadata := Metadata_new |}
  end.

(** The resolution rule in the words of the spec (section 4.6), to compare
    the two functions above with: "if the first optional is Metadata, use
    it; else construct empty Metadata.  If the second optional is present
    and an object, treat it as CallOptions; else empty options." *)
Definition spec_resolution (first : option MetadataOrOptions)
    (second : option CallOptions) : MetadataAndOptions.t :=
  {| MetadataAndOptions.metadata :=
       match first with
       | Some (a_metadata metadata) => metadata
       | _ => Metadata_new
       end;
     MetadataAndOptions.options :=
       match second with
       | Some options => options
       | None => no_options
       end |}.

(** The optional arguments that precede the callback of a unary or
    client-stream request: the first, and the second. *)
Definition first_optional (arg1 : OrCallback MetadataOrOptions)
  : option MetadataOrOptions :=
  match arg1 with
  | value first => Some first
  | function _ => None
  end.

Definition second_optional (arg2 : option (OrCallback CallOptions))
  : option CallOptions :=
  match arg2 with
  | Some (value second) => Some second
  | _ => None
  end.

(** The four call shapes the overloads of [makeUnaryRequest] and
    [makeClientStreamRequest] declare: (metadata, options, callback),
    (metadata, callback), (options, callback), (callback). *)
Definition recognized_arity (arg1 : OrCallback MetadataOrOptions)
    (arg2 : option (OrCallback CallOptions)) (arg3 : option Callback) : bool :=
  match arg1, arg2, arg3 with
  | value (a_metadata _), Some (value _), Some _ => true
  | value _, Some (function _), None => true
  | function _, None, None => true
  | _, _, _ => false
  end.

(** *** The four request methods *)
Section Requests.
Context {Channel : Type} {Req Resp : Type}.
Context (Number : string -> JsNumber).

(** What a request method does before it returns, in program order. *)
Inductive RequestEffect :=
| CreateCall (channel : Channel) (method : string) (deadline : option Deadline)
    (host : option string) (parent : option Call)
    (propagate_flags : option JsNumber)
| Did (effect : Effect Resp).

(** The effects so far, and the identity of the call that the next
    [createCall] returns. *)
Record World := {
  trace : list RequestEffect;
  next_call : Call
}.

(** Statements that act on the world and may throw; a throw ends the
    method and leaves what was done before it. *)
Definition M (A : Type) : Type := World -> completion A * World.

Definition ret {A : Type} (a : A) : M A := λ w, (Normal a, w).

Definition bind {A B : Type} (m : M A) (k : A -> M B) : M B :=
  λ w, match m w with
       | (Normal a, w1) => k a w1
       | (Throw e, w1) => (Throw e, w1)
       end.

Definition evaluate {A : Type} (c : completion A) : M A := λ w, (c, w).

Definition perform (effects : list (Effect Resp)) : M unit :=
  λ w, (Normal tt, {| trace := trace w ++ (Did <$> effects);
                      next_call := next_call w |}).

(** [channel.createCall(method, deadline, host, parent, propagate_flags)] *)
Definition createCall (channel : Channel) (method : string)
    (deadline : option Deadline) (host : option string) (parent : option Call)
    (propagate_flags : option JsNumber) : M Call :=
  λ w, (Normal (next_call w),
        {| trace := trace w ++ [CreateCall channel method deadline host parent propagate_flags];
           next_call := S (next_call w) |}).

(** [new C(...)] or [this.handleUnaryResponse(...)]: the object built, its
    effects performed. *)
Definition construct {A : Type} (built : A * list (Effect Resp)) : M A :=
  bind (perform (built.2)) (λ _, ret (built.1)).

Local Notation "x <- m ;; k" := (bind m (λ x, k))
  (at level 65, m at next level, right associativity).
Local Notation "m ;;; k" := (bind m (λ _, k))
  (at level 65, right associativity).

(** The lines shared by the four methods: the call is created from the
    options, and given the credentials when there are some. *)
Definition create_call_with (this : t Channel) (method : string)
    (options : CallOptions) : M Call :=
  call <- createCall (kChannel this) method (deadline options) (host options)
            (parent options) (propagate_flags options) ;;
  match credentials options with
  | Some credentials => perform [CallDo call (setCredentials credentials)]
  | None => ret tt
  end ;;;
  ret call.

Definition makeUnaryRequest (this : t Channel) (method : string)
    (serialize : Req -> completion Buffer)
    (deserialize : Buffer -> completion Resp) (argument : Req)
    (metadata : OrCallback MetadataOrOptions)
    (options : option (OrCallback CallOptions))
    (callback : option Callback)
  : M (@ClientUnaryCallImpl.t * Handler Resp) :=
  r <- evaluate (checkOptionalUnaryResponseArguments metadata options callback) ;;
  call <- create_call_with this method (Resolved.options r) ;;
  message <- evaluate (serialize argument) ;;
  let writeObj := {| message := message; flags := None |} in
  perform [CallDo call (sendMetadata (Resolved.metadata r))] ;;;
  perform [CallDo call (write writeObj None)] ;;;
  perform [CallDo call end_] ;;;
  handler <- construct (handleUnaryResponse call deserialize (Resolved.callback r)) ;;
  surface <- construct (ClientUnaryCallImpl.constructor call) ;;
  ret (surface, handler).

Definition makeClientStreamRequest (this : t Channel) (method : string)
    (serialize : Req -> completion Buffer)
    (deserialize : Buffer -> completion Resp)
    (metadata : OrCallback MetadataOrOptions)
    (options : option (OrCallback CallOptions))
    (callback : option Callback)
  : M (ClientWritableStreamImpl.t Req * Handler Resp) :=
  r <- evaluate (checkOptionalUnaryResponseArguments metadata options callback) ;;
  call <- create_call_with this method (Resolved.options r) ;;
  perform [CallDo call (sendMetadata (Resolved.metadata r))] ;;;
  handler <- construct (handleUnaryResponse call deserialize (Resolved.callback r)) ;;
  surface <- construct (ClientWritableStreamImpl.constructor call serialize) ;;
  ret (surface, handler).

Definition makeServerStreamRequest (this : t Channel) (method : string)
    (serialize : Req -> completion Buffer)
    (deserialize : Buffer -> completion Resp) (argument : Req)
    (metadata : option MetadataOrOptions) (options : option CallOptions)
  : M (ClientReadableStreamImpl.t Resp) :=
  let r := checkMetadataAndOptions metadata options in
  call <- create_call_with this method (MetadataAndOptions.options r) ;;
  message <- evaluate (serialize argument) ;;
  let writeObj := {| message := message; flags := None |} in
  perform [CallDo call (sendMetadata (MetadataAndOptions.metadata r))] ;;;
  perform [CallDo call (write writeObj None)] ;;;
  perform [CallDo call end_] ;;;
  construct (ClientReadableStreamImpl.constructor call deserialize).

Definition makeBidiStreamRequest (this : t Channel) (method : string)
    (serialize : Req -> completion Buffer)
    (deserialize : Buffer -> completion Resp)
    (metadata : option MetadataOrOptions) (options : option CallOptions)
  : M (ClientDuplexStreamImpl.t Req Resp) :=
  let r := checkMetadataAndOptions metadata options in
  call <- create_call_with this method (MetadataAndOptions.options r) ;;
  perform [CallDo call (sendMetadata (MetadataAndOptions.metadata r))] ;;;
  construct (ClientDuplexStreamImpl.constructor call serialize deserialize).

(** The world before a request: nothing done yet. *)
Definition world_at (next_call : Call) : World :=
  {| trace := []; next_call := next_call |}.

End Requests.
Arguments RequestEffect Channel Resp : clear implicits.
Arguments World Channel Resp : clear implicits.

End Client.

(** ** The filter module: [interface Filter] and [class BaseFilter] *)

Module Promises.

(** The part of the language runtime that an [async] method returning its
    argument exercises: promises, the reactions registered on them, and the
    queue of jobs.  Types are erased at run time, so a promise is a
    reference into the runtime, whose values have some type [V]. *)
Definition Promise := nat.

Section Runtime.
Context {V : Type}.

Inductive Outcome :=
| Fulfilled (value : V)
| Rejected (reason : Thrown).

(** A pending promise holds its reactions.  The only reactions this runtime
    registers are the resolving functions of another promise, so a reaction
    is known by the promise it will resolve. *)
Inductive State :=
| Pending (reactions : list Promise)
| Settled (outcome : Outcome).

Inductive Job :=
| ResolveThenableJob (promiseToResolve thenable : Promise)
| ReactionJob (promiseToResolve : Promise) (outcome : Outcome).

Record Runtime := {
  promises : list State;
  jobs : list Job
}.

Definition enqueue (job : Job) (rt : Runtime) : Runtime :=
  {| promises := promises rt; jobs := jobs rt ++ [job] |}.

(** A new pending promise; its reference is the next free index. *)
Definition new_promise (rt : Runtime) : Promise * Runtime :=
  (length (promises rt),
   {| promises := promises rt ++ [Pending []]; jobs := jobs rt |}).

(** Fulfilling or rejecting a promise: a pending promise takes the outcome
    and a job is queued for each of its reactions, in order; on a settled
    promise nothing happens. *)
Definition settle (promise : Promise) (outcome : Outcome) (rt : Runtime) : Runtime :=
  match promises rt !! promise with
  | Some (Pending reactions) =>
      {| promises := <[promise := Settled outcome]> (promises rt);
         jobs := jobs rt ++ ((λ r, ReactionJob r outcome) <$> reactions) |}
  | _ => rt
  end.

(** [thenable.then(resolve, reject)] with the resolving functions of
    [promiseToResolve]: registered while the thenable is pending, queued as
    a job when it is settled. *)
Definition then_ (thenable promiseToResolve : Promise) (rt : Runtime) : Runtime :=
  match promises rt !! thenable with
  | Some (Pending reactions) =>
      {| promises := <[thenable := Pending (reactions ++ [promiseToResolve])]> (promises rt);
         jobs := jobs rt |}
  | Some (Settled outcome) => enqueue (ReactionJob promiseToResolve outcome) rt
  | None => rt
  end.

Definition run_job (job : Job) (rt : Runtime) : Runtime :=
  match job with
  | ResolveThenableJob promiseToResolve thenable => then_ thenable promiseToResolve rt
  | ReactionJob promiseToResolve outcome => settle promiseToResolve outcome rt
  end.

(** The engine takes the first job of the queue and runs it. *)
Definition tick (rt : Runtime) : option Runtime :=
  match jobs rt with
  | [] => None
  | job :: rest => Some (run_job job {| promises := promises rt; jobs := rest |})
  end.

(** The engine runs jobs until the queue is empty. *)
Fixpoint drain (fuel : nat) (rt : Runtime) : Runtime :=
  match fuel with
  | 0 => rt
  | S fuel =>
      match tick rt with
      | None => rt
      | Some rt1 => drain fuel rt1
      end
  end.

(** What the body of an [async] function returns: a promise or a plain
    value. *)
Inductive Returned :=
| a_promise (promise : Promise)
| a_value (value : V).

(** Calling an [async] function whose body completes with [body]: the call
    returns a new promise, resolved with what the body returns.  Resolving
    with a promise queues a job that will call its [then]; resolving with a
    plain value fulfils; a throw rejects. *)
Definition async (body : completion Returned) (rt : Runtime) : Promise * Runtime :=
  let '(promise, rt1) := new_promise rt in
  (promise,
   match body with
   | Normal (a_promise thenable) => enqueue (ResolveThenableJob promise thenable) rt1
   | Normal (a_value value) => settle promise (Fulfilled value) rt1
   | Throw reason => settle promise (Rejected reason) rt1
   end).

(** Every reference held by the runtime is to one of its promises. *)
Definition job_refs (job : Job) : list Promise :=
  match job with
  | ResolveThenableJob promiseToResolve thenable => [promiseToResolve; thenable]
  | ReactionJob promiseToResolve _ => [promiseToResolve]
  end.

Definition state_refs (st : State) : list Promise :=
  match st with
  | Pending reactions => reactions
  | Settled _ => []
  end.

Definition well_formed (rt : Runtime) : Prop :=
  (∀ job r, job ∈ jobs rt → r ∈ job_refs job → r < length (promises rt)) ∧
  (∀ st r, st ∈ promises rt → r ∈ state_refs st → r < length (promises rt)).

(** An upper bound on the number of jobs the engine still has to run. *)
Definition job_weight (job : Job) : nat :=
  match job with
  | ResolveThenableJob _ _ => 3
  | ReactionJob _ _ => 1
  end.

Definition state_weight (st : State) : nat := 2 * length (state_refs st).

Definition weight (rt : Runtime) : nat :=
  sum_list_with job_weight (jobs rt) + sum_list_with state_weight (promises rt).

(** That the promise [returned] by an [async] call follows the promise
    [input] it was resolved with: the two are promises of the runtime;
    every job that will resolve [returned] comes from [input], and
    [returned] is registered on no other promise; once [returned] is settled
    [input] is settled the same; and while [returned] is pending, the job
    that calls [input.then] is queued, or [returned] is registered on
    [input], or a job is queued that will settle it. *)
Record follows (returned input : Promise) (rt : Runtime) : Prop := {
  follows_distinct : returned ≠ input;
  follows_returned : returned < length (promises rt);
  follows_input : input < length (promises rt);
  follows_thenable : ∀ thenable,
    ResolveThenableJob returned thenable ∈ jobs rt → thenable = input;
  follows_reaction : ∀ outcome,
    ReactionJob returned outcome ∈ jobs rt →
    promises rt !! input = Some (Settled outcome);
  follows_registered : ∀ promise reactions,
    promises rt !! promise = Some (Pending reactions) →
    returned ∈ reactions → promise = input;
  follows_settled : ∀ outcome,
    promises rt !! returned = Some (Settled outcome) →
    promises rt !! input = Some (Settled outcome);
  follows_pending : ∀ reactions,
    promises rt !! returned = Some (Pending reactions) →
    ResolveThenableJob returned input ∈ jobs rt ∨
    (∃ waiting, promises rt !! input = Some (Pending waiting) ∧ returned ∈ waiting) ∨
    (∃ outcome, ReactionJob returned outcome ∈ jobs rt)
}.

End Runtime.
Arguments Outcome V : clear implicits.
Arguments State V : clear implicits.
Arguments Job V : clear implicits.
Arguments Runtime V : clear implicits.
Arguments Returned V : clear implicits.

End Promises.

Module BaseFilter.
Import Promises.
Section Class.
Context {V : Type}.

(** [async sendMetadata(metadata) { return metadata; }] *)
Definition sendMetadata (metadata : Promise) : Runtime V -> Promise * Runtime V :=
  async (Normal (a_promise metadata)).

(** [async receiveMetadata(metadata) { return metadata; }] *)
Definition receiveMetadata (metadata : Promise) : Runtime V -> Promise * Runtime V :=
  async (Normal (a_promise metadata)).

(** [async sendMessage(message) { return message; }] *)
Definition sendMessage (message : Promise) : Runtime V -> Promise * Runtime V :=
  async (Normal (a_promise message)).

(** [async receiveMessage(message) { return message; }] *)
Definition receiveMessage (message : Promise) : Runtime V -> Promise * Runtime V :=
  async (Normal (a_promise message)).

(** [async receiveTrailers(status) { return status; }] *)
Definition receiveTrailers (status : Promise) : Runtime V -> Promise * Runtime V :=
  async (Normal (a_promise status)).

(** The five transforms of [interface Filter]. *)
Inductive Transform :=
| SendMetadata
| ReceiveMetadata
| SendMessage
| ReceiveMessage
| ReceiveTrailers.

Definition transform (which : Transform) : Promise -> Runtime V -> Promise * Runtime V :=
  match which with
  | SendMetadata => sendMetadata
  | ReceiveMetadata => receiveMetadata
  | SendMessage => sendMessage
  | ReceiveMessage => receiveMessage
  | ReceiveTrailers => receiveTrailers
  end.

(** What may happen around a call of a transform: the engine runs a job;
    code that holds the resolving functions of a promise settles it; a
    promise is created; a transform is called. *)
Inductive Move :=
| RunJob
| Settle (promise : Promise) (outcome : Outcome V)
| NewPromise
| CallTransform (which : Transform) (input : Promise).

Definition move (rt : Runtime V) (m : Move) : Runtime V :=
  match m with
  | RunJob => match tick rt with Some rt1 => rt1 | None => rt end
  | Settle promise outcome => settle promise outcome rt
  | NewPromise => (new_promise rt).2
  | CallTransform which input => (transform which input rt).2
  end.

(** The resolving functions of the promise an [async] call returned are
    held by the runtime alone: no other code settles that promise. *)
Definition leaves (returned : Promise) (m : Move) : Prop :=
  match m with
  | Settle promise _ => promise ≠ returned
  | _ => True
  end.

End Class.
Arguments Move V : clear implicits.
End BaseFilter.

(** ** What a run shows, and the rest of the two files *)

Module Observe.
Section Effects.
Context {Resp : Type}.

(** The objects handed to [Call.write], in order. *)
Definition written (effects : list (Effect Resp)) : list WriteObject :=
  omap (λ e, match e with CallDo _ (write writeObj _) => Some writeObj | _ => None end)
       effects.

(** The completion callbacks that are disposed of, in order: handed to
    [Call.write] or invoked. *)
Definition callbacks_taken (effects : list (Effect Resp)) : list Callback :=
  omap (λ e, match e with
             | CallDo _ (write _ (Some cb)) => Some cb
             | InvokeWriteCb cb _ => Some cb
             | _ => None
             end) effects.

(** The messages pushed to the stream, in order. *)
Definition pushed (effects : list (Effect Resp)) : list Resp :=
  omap (λ e, match e with Push (Some message) => Some message | _ => None end) effects.

(** How many times the end of the stream is pushed. *)
Definition ends_pushed (effects : list (Effect Resp)) : nat :=
  length (omap (λ e, match e with Push None => Some tt | _ => None end) effects).

(** The events emitted on the surface object, in order. *)
Definition emitted (effects : list (Effect Resp)) : list SurfaceEvent :=
  omap (λ e, match e with Emit event => Some event | _ => None end) effects.

(** The cancellations asked of the call, in order. *)
Definition cancellations (effects : list (Effect Resp)) : list (Status * string) :=
  omap (λ e, match e with
             | CallDo _ (cancelWithStatus status details) => Some (status, details)
             | _ => None
             end) effects.

(** The invocations of the unary callback, in order. *)
Definition unary_callbacks (effects : list (Effect Resp))
  : list (Callback * option ServiceError * option Resp) :=
  omap (λ e, match e with
             | InvokeUnaryCb cb err value => Some (cb, err, value)
             | _ => None
             end) effects.

End Effects.

(** What the surface is to emit for the events of its call: 'metadata' and
    'status' as they come, and before a 'status' whose code is not OK an
    'error', when the surface is a readable one; an 'error' that finds no
    listener is not followed by the 'status'. *)
Definition forwarded (errors : bool) (i : CallSurface.ReadableInput) : list SurfaceEvent :=
  match i with
  | CallSurface.CallMetadata metadata => [emit_metadata metadata]
  | CallSurface.CallStatus status listened =>
      if errors && bool_decide (code status ≠ OK)
      then emit_error (ServiceError_of status) ::
           if listened then [emit_status status] else []
      else [emit_status status]
  | _ => []
  end.

End Observe.

Module CallSurfaceMore.
Import CallSurface.

(** A duplex stream seen as a readable one: its call, its deserializer and
    the variables of [setUpReadableStream]. *)
Definition as_readable {Req Resp : Type} (this : ClientDuplexStreamImpl.t Req Resp)
  : ClientReadableStreamImpl.t Resp :=
  {| ClientReadableStreamImpl.call := ClientDuplexStreamImpl.call this;
     ClientReadableStreamImpl.deserialize := ClientDuplexStreamImpl.deserialize this;
     ClientReadableStreamImpl.setup := ClientDuplexStreamImpl.setup this |}.

(** A duplex stream seen as a writable one. *)
Definition as_writable {Req Resp : Type} (this : ClientDuplexStreamImpl.t Req Resp)
  : ClientWritableStreamImpl.t Req :=
  {| ClientWritableStreamImpl.call := ClientDuplexStreamImpl.call this;
     ClientWritableStreamImpl.serialize := ClientDuplexStreamImpl.serialize this |}.

(** The write or finalization inside an input of a duplex stream. *)
Definition writable_part {Req : Type} (i : DuplexInput Req) : option (WritableInput Req) :=
  match i with
  | DuplexWrite chunk encoding cb => Some (StreamWrite chunk encoding cb)
  | DuplexFinal cb => Some (StreamFinal cb)
  | Readable _ => None
  end.

(** The [WriteObject] that [tryWrite] builds for a chunk, when the chunk
    serializes. *)
Definition write_object {Req : Type} (Number : string -> JsNumber)
    (serialize : Req -> completion Buffer) (chunk : Req) (encoding : string)
  : option WriteObject :=
  match serialize chunk with
  | Normal message =>
      Some {| message := message;
              flags := if Number_isNaN (Number encoding) then None
                       else Some (Number encoding) |}
  | Throw _ => None
  end.

(** The message a 'data' event brings, when it parses. *)
Definition parsed {Resp : Type} (deserialize : Buffer -> completion Resp) (data : Buffer)
  : option Resp :=
  match deserialize data with
  | Normal message => Some message
  | Throw _ => None
  end.

(** How many 'end' events of the call a surface has been given. *)
Definition ends_of (inputs : list ReadableInput) : nat :=
  length (List.filter (λ i, match i with CallEnd => true | _ => false end) inputs).

(** A 'data' event whose message deserializes to [null]. *)
Definition brings_null {Resp : Type} (null : Resp -> bool)
    (deserialize : Buffer -> completion Resp) (i : ReadableInput) : bool :=
  match i with
  | CallData data _ =>
      match deserialize data with
      | Normal message => null message
      | Throw _ => false
      end
  | _ => false
  end.

(** How many of them a surface has been given. *)
Definition nulls_of {Resp : Type} (null : Resp -> bool)
    (deserialize : Buffer -> completion Resp) (inputs : list ReadableInput) : nat :=
  length (List.filter (brings_null null deserialize) inputs).

(** A 'status' event whose listener returns: the code is OK, or the stream
    has a listener for 'error'. *)
Definition delivered (i : ReadableInput) : bool :=
  match i with
  | CallStatus status listened => bool_decide (code status = OK) || listened
  | _ => false
  end.

End CallSurfaceMore.

Module UnaryCall.
Import CallSurface Client.
Section Call.
Context {Resp : Type} (nullish : Resp -> bool).

(** What [makeUnaryRequest] leaves listening on the call: the response
    handler, whose listeners were added first, and the surface object. *)
Definition t : Type := ClientUnaryCallImpl.t * Handler Resp.

(** An event of the call reaches the listeners in the order they were
    added: those of [handleUnaryResponse], then those of the constructor of
    [ClientUnaryCallImpl]. *)
Definition dispatch (this : t) (ev : CallEvent) : t * list (Effect Resp) :=
  let '(handler, effects) := handle nullish this.2 ev in
  ((this.1, handler),
   effects ++
   match ev with
   | EvMetadata metadata => ClientUnaryCallImpl.on_metadata this.1 metadata
   | EvStatus status => ClientUnaryCallImpl.on_status this.1 status
   | _ => []
   end).

End Call.
End UnaryCall.

Module RequestObserve.
Import CallSurface Client.
Section Trace.
Context {Channel Resp : Type}.

(** How many calls a stretch of a trace creates. *)
Definition calls_created (added : list (RequestEffect Channel Resp)) : nat :=
  length (omap (λ e, match e with CreateCall _ _ _ _ _ _ => Some tt | Did _ => None end)
            added).

(** The calls that a stretch of a trace acts on, in order. *)
Definition acted_on (added : list (RequestEffect Channel Resp)) : list Call :=
  omap (λ e, match e with Did (CallDo call _) => Some call | _ => None end) added.

(** The operations done on calls, in order. *)
Definition operations (added : list (RequestEffect Channel Resp)) : list CallOp :=
  omap (λ e, match e with Did (CallDo _ op) => Some op | _ => None end) added.

(** [if (options.credentials) call.setCredentials(options.credentials)] *)
Definition credentials_set (options : CallOptions) : list CallOp :=
  match credentials options with
  | Some credentials => [setCredentials credentials]
  | None => []
  end.

(** Whether a method returned rather than threw. *)
Definition returned {A : Type} (outcome : completion A) : bool :=
  match outcome with
  | Normal _ => true
  | Throw _ => false
  end.

(** A method that takes the world from [before] to [after] has worked on
    one call: it created at most one, the next one of the channel, exactly
    one if it returned, and every operation it did on a call was on that
    one. *)
Definition on_one_call (before after : World Channel Resp) (succeeded : bool) : Prop :=
  ∃ added,
    trace after = trace before ++ added ∧
    (calls_created added ≤ 1)%nat ∧
    (succeeded = true → calls_created added = 1%nat) ∧
    next_call after = (next_call before + calls_created added)%nat ∧
    Forall (λ call, call = next_call before) (acted_on added).

End Trace.
End RequestObserve.

Module WaitForReady.
Import Client.

(** Modelled from the spec: the enumeration [ConnectivityState] of
    [./channel] (section 4.7), which is not among the sources. *)
Inductive ConnectivityState :=
| IDLE
| CONNECTING
| READY
| TRANSIENT_FAILURE
| SHUTDOWN.

#[global] Instance ConnectivityState_eq_dec : EqDecision ConnectivityState.
Proof. solve_decision. Defined.

Section Method.
Context {Channel : Type}.

(** What [waitForReady] does, in order. *)
Inductive WaitEffect :=
| SetImmediate
| GetConnectivityState (channel : Channel) (tryToConnect : bool)
| WatchConnectivityState (channel : Channel) (currentState : ConnectivityState)
    (deadline : Deadline)
| InvokeCallback (error : option Thrown).

(** What one call of [checkState] meets: whether it is given an error, what
    [getConnectivityState] answers, and whether [watchConnectivityState]
    throws.  The last two belong to the channel. *)
Record Round := {
  err : bool;
  connectivity : completion ConnectivityState;
  watching : completion unit
}.

(** The closure [checkState].  The boolean tells whether it has registered
    itself with [watchConnectivityState], to be called again. *)
Definition checkState (this : Client.t Channel) (deadline : Deadline) (round : Round)
  : list WaitEffect * bool :=
  if err round then
    ([InvokeCallback (Some (JsError "Failed to connect before the deadline"))], false)
  else
    match connectivity round with
    | Throw _ =>
        ([GetConnectivityState (kChannel this) true;
          InvokeCallback (Some (JsError "The channel has been closed"))], false)
    | Normal newState =>
        if decide (newState = READY) then
          ([GetConnectivityState (kChannel this) true; InvokeCallback None], false)
        else
          match watching round with
          | Normal _ =>
              ([GetConnectivityState (kChannel this) true;
                WatchConnectivityState (kChannel this) newState deadline], true)
          | Throw _ =>
              ([GetConnectivityState (kChannel this) true;
                WatchConnectivityState (kChannel this) newState deadline;
                InvokeCallback (Some (JsError "The channel has been closed"))], false)
          end
    end.

(** The calls of [checkState] one after the other, as long as it registers
    itself again. *)
Fixpoint checks (this : Client.t Channel) (deadline : Deadline) (rounds : list Round)
  : list WaitEffect :=
  match rounds with
  | [] => []
  | round :: rest =>
      let '(effects, again) := checkState this deadline round in
      effects ++ if again then checks this deadline rest else []
  end.

(** [setImmediate] calls [checkState] without an argument: whatever the
    first round holds for [err], the first call has no error. *)
Definition scheduled (rounds : list Round) : list Round :=
  match rounds with
  | [] => []
  | first :: rest =>
      {| err := false; connectivity := connectivity first;
         watching := watching first |} :: rest
  end.

(** [waitForReady(deadline, callback)] *)
Definition waitForReady (this : Client.t Channel) (deadline : Deadline)
    (rounds : list Round) : list WaitEffect :=
  SetImmediate :: checks this deadline (scheduled rounds).

(** A call of [checkState] that leaves a watch on the channel: it has no
    error, it reads [state], which is not READY, and the channel takes
    the watch. *)
Definition watches (round : Round) (state : ConnectivityState) : Prop :=
  err round = false ∧ connectivity round = Normal state ∧ state ≠ READY ∧
  watching round = Normal tt.

(** How the calls of [checkState] end: [round] is the call after the last
    one that left a watch, if there is one.  With none the method is left
    waiting on the channel; a call with an error reports the deadline; a
    channel that throws is reported closed, before or after the watch was
    tried on the state just read; and the state READY is reported as
    success. *)
Definition ends_with (this : Client.t Channel) (deadline : Deadline)
    (round : option Round) (outcome : list WaitEffect) : Prop :=
  match round with
  | None => outcome = []
  | Some round =>
      if err round then
        outcome =
          [InvokeCallback (Some (JsError "Failed to connect before the deadline"))]
      else
        match connectivity round with
        | Throw _ =>
            outcome = [GetConnectivityState (kChannel this) true;
                       InvokeCallback (Some (JsError "The channel has been closed"))]
        | Normal state =>
            if decide (state = READY) then
              outcome = [GetConnectivityState (kChannel this) true; InvokeCallback None]
            else
              (∃ e, watching round = Throw e) ∧
              outcome = [GetConnectivityState (kChannel this) true;
                         WatchConnectivityState (kChannel this) state deadline;
                         InvokeCallback (Some (JsError "The channel has been closed"))]
        end
  end.

(** One unanswered watch: the state is read, then watched. *)
Definition poll (this : Client.t Channel) (deadline : Deadline)
    (state : ConnectivityState) : list WaitEffect :=
  [GetConnectivityState (kChannel this) true;
   WatchConnectivityState (kChannel this) state deadline].

End Method.
Arguments WaitEffect Channel : clear implicits.
End WaitForReady.

Module FilterChain.
Import Promises BaseFilter.
Section Chain.
Context {V : Type}.

(** A promise passed through transforms one after the other, each given
    the promise the one before returned.  The result is the last promise
    returned, all the promises returned, and the runtime. *)
Fixpoint chain (transforms : list Transform) (input : Promise) (rt : Runtime V)
  : Promise * list Promise * Runtime V :=
  match transforms with
  | [] => (input, [], rt)
  | which :: rest =>
      let '(returned, rt1) := transform which input rt in
      let '(last, all, rt2) := chain rest returned rt1 in
      (last, returned :: all, rt2)
  end.

End Chain.
End FilterChain.

(** ** Sample data for the examples *)

Module Samples.

(** A response type that has [null] among its values. *)
Inductive Reply :=
| reply_null
| reply_text (text : string).

Definition nullish (r : Reply) : bool :=
  match r with
  | reply_null => true
  | reply_text _ => false
  end.

(** [r === null] *)
Definition null (r : Reply) : bool :=
  match r with
  | reply_null => true
  | reply_text _ => false
  end.

(** A deserializer: the empty buffer decodes to [null], a buffer that
    starts with a zero byte does not parse, any other decodes to a text. *)
Definition decode (data : Buffer) : completion Reply :=
  match data with
  | [] => Normal reply_null
  | x00 :: _ => Throw (JsError "unexpected tag")
  | _ :: _ => Normal (reply_text "pong")
  end.

(** A serializer that rejects the empty request. *)
Definition encode (request : string) : completion Buffer :=
  if decide (request = "") then Throw (JsError "empty request")
  else Normal [x01].

(** A stand-in for [Number(encoding)]. *)
Definition to_number (encoding : string) : JsNumber :=
  if decide (encoding = "1") then Num 1 else NaN.

Definition ok_status : StatusObject :=
  {| code := OK; details := ""; metadata := Metadata_new |}.

Definition internal_status : StatusObject :=
  {| code := INTERNAL; details := "boom"; metadata := Metadata_new |}.

End Samples.

(** * Properties *)

(** ** The embedding on sample inputs *)

Module Examples.
Import CallSurface Client Promises.

(** A unary request with options and a callback: the call is created from
    the options, gets the credentials, the metadata, the one message, the
    half-close; then the listeners of the response handler and of the
    surface are installed. *)
Example unary_request_trace :
  let options := {| deadline := Some (Instant 5); host := None; parent := None;
                    propagate_flags := None; credentials := Some 7 |} in
  trace (makeUnaryRequest (Resp := Samples.Reply) {| kChannel := "channel" |} "/svc/M"
           Samples.encode Samples.decode "ping"
           (value (an_options options)) (Some (function 9)) None (world_at 0)).2 =
    [CreateCall "channel" "/svc/M" (Some (Instant 5)) None None None;
     Did (CallDo 0 (setCredentials 7));
     Did (CallDo 0 (sendMetadata Metadata_new));
     Did (CallDo 0 (write {| message := [x01]; flags := None |} None));
     Did (CallDo 0 end_);
     Did (CallDo 0 (on ev_data)); Did (CallDo 0 (on ev_end)); Did (CallDo 0 (on ev_status));
     Did (CallDo 0 (on ev_metadata)); Did (CallDo 0 (on ev_status))].
Proof. reflexivity. Qed.

(** A serializer that throws ends the request after the call was created. *)
Example unary_request_serializer_throws :
  makeUnaryRequest (Resp := Samples.Reply) {| kChannel := "channel" |} "/svc/M"
    Samples.encode Samples.decode "" (function 9) None None (world_at 0) =
    (Throw (JsError "empty request"),
     {| trace := [CreateCall "channel" "/svc/M" None None None None]; next_call := 1 |}).
Proof. reflexivity. Qed.

(** A bidi request with metadata and options. *)
Example bidi_request_trace :
  let options := {| deadline := None; host := Some "example.org"; parent := None;
                    propagate_flags := None; credentials := None |} in
  trace (makeBidiStreamRequest (Resp := Samples.Reply) {| kChannel := "channel" |} "/svc/M"
           Samples.encode Samples.decode
           (Some (a_metadata [("k", ["v"])])) (Some options) (world_at 3)).2 =
    [CreateCall "channel" "/svc/M" None (Some "example.org") None None;
     Did (CallDo 3 (sendMetadata [("k", ["v"])]));
     Did (CallDo 3 (on ev_metadata)); Did (CallDo 3 (on ev_data));
     Did (CallDo 3 (on ev_end)); Did (CallDo 3 (on ev_status));
     Did (CallDo 3 pause)].
Proof. reflexivity. Qed.

(** A readable stream: a message that fills the buffer pauses the call, a
    message that does not parse cancels it, 'end' before 'status' waits,
    and a status other than OK is an 'error' before it is a 'status'. *)
Example readable_stream_run :
  (run (ClientReadableStreamImpl.step Samples.null)
     (ClientReadableStreamImpl.constructor 4 Samples.decode).1
     [CallMetadata Metadata_new; StreamRead 16; CallData [x01] false;
      CallData [x00] true; CallEnd; CallStatus Samples.internal_status true;
      CallEnd]).2 =
    [Emit (emit_metadata Metadata_new);
     CallDo 4 resume;
     Push (Some (Samples.reply_text "pong")); CallDo 4 pause;
     CallDo 4 (cancelWithStatus INTERNAL "Failed to parse server response");
     CallDo 4 (once ev_status);
     Emit (emit_error (ServiceError_of Samples.internal_status));
     Emit (emit_status Samples.internal_status);
     Push None;
     Push None].
Proof. reflexivity. Qed.

(** The same stream without a listener for 'error': the 'error' is thrown
    by [emit], 'status' is not emitted and the end of the stream is not
    pushed; and a message that deserializes to [null] is the end of the
    stream. *)
Example readable_stream_unheard :
  (run (ClientReadableStreamImpl.step Samples.null)
     (ClientReadableStreamImpl.constructor 4 Samples.decode).1
     [StreamRead 16; CallData [] false; CallEnd;
      CallStatus Samples.internal_status false]).2 =
    [CallDo 4 resume;
     Push None; CallDo 4 pause;
     CallDo 4 (once ev_status);
     Emit (emit_error (ServiceError_of Samples.internal_status));
     Uncaught (ServiceError_of Samples.internal_status)].
Proof. reflexivity. Qed.

(** A write with a flag, a write that cannot be serialized, the end. *)
Example writable_stream_run :
  (run (ClientWritableStreamImpl.step (Resp := Samples.Reply) Samples.to_number)
     (ClientWritableStreamImpl.constructor (Resp := Samples.Reply) 4 Samples.encode).1
     [StreamWrite "ping" "1" 1; StreamWrite "ping" "utf8" 2; StreamWrite "" "utf8" 3;
      StreamFinal 4]).2 =
    [CallDo 4 (write {| message := [x01]; flags := Some (Num 1) |} (Some 1));
     CallDo 4 (write {| message := [x01]; flags := None |} (Some 2));
     CallDo 4 (cancelWithStatus INTERNAL "Serialization failure");
     InvokeWriteCb 3 (Some (JsError "empty request"));
     CallDo 4 end_; InvokeWriteCb 4 None].
Proof. reflexivity. Qed.

(** The unary handler on one message and status OK, on none, and on two. *)
Example unary_handler_runs :
  let h := (handleUnaryResponse 3 Samples.decode 9).1 in
  (run (handle Samples.nullish) h
     [EvMetadata Metadata_new; EvData [x01]; EvEnd; EvStatus Samples.ok_status]).2 =
    [InvokeUnaryCb 9 None (Some (Samples.reply_text "pong"))] ∧
  (run (handle Samples.nullish) h
     [EvMetadata Metadata_new; EvEnd; EvStatus Samples.internal_status]).2 =
    [CallDo 3 (cancelWithStatus INTERNAL "Not enough responses received");
     InvokeUnaryCb 9 (Some (ServiceError_of Samples.internal_status)) None] ∧
  (run (handle Samples.nullish) h
     [EvMetadata Metadata_new; EvData [x01]; EvData [x02]; EvEnd;
      EvStatus Samples.internal_status]).2 =
    [CallDo 3 (cancelWithStatus INTERNAL "Too many responses received");
     InvokeUnaryCb 9 (Some (ServiceError_of Samples.internal_status)) None].
Proof. repeat split. Qed.

(** [waitForReady] on a channel that is connecting and then ready: the
    state is read and watched, and read again when the channel calls
    back.  The error that the first round holds is not looked at. *)
Example wait_for_ready_run :
  WaitForReady.waitForReady {| kChannel := "channel" |} (Instant 5)
    [{| WaitForReady.err := true;
        WaitForReady.connectivity := Normal WaitForReady.CONNECTING;
        WaitForReady.watching := Normal tt |};
     {| WaitForReady.err := false;
        WaitForReady.connectivity := Normal WaitForReady.READY;
        WaitForReady.watching := Normal tt |}] =
    [WaitForReady.SetImmediate;
     WaitForReady.GetConnectivityState "channel" true;
     WaitForReady.WatchConnectivityState "channel" WaitForReady.CONNECTING (Instant 5);
     WaitForReady.GetConnectivityState "channel" true;
     WaitForReady.InvokeCallback None].
Proof. reflexivity. Qed.

(** A transform called on a pending promise: the job registers the
    returned promise on the input; when the input is fulfilled a job is
    queued that fulfils the returned promise with the same value. *)
Example transform_on_pending_promise :
  let rt := {| promises := [Pending []]; jobs := [] |} in
  let called := BaseFilter.sendMetadata (V := string) 0 rt in
  called = (1, {| promises := [Pending []; Pending []];
                  jobs := [ResolveThenableJob 1 0] |}) ∧
  foldl BaseFilter.move called.2 [BaseFilter.RunJob] = {| promises := [Pending [1]; Pending []]; jobs := [] |} ∧
  foldl BaseFilter.move called.2 [BaseFilter.RunJob; BaseFilter.Settle 0 (Fulfilled "metadata")] =
    {| promises := [Settled (Fulfilled "metadata"); Pending []];
       jobs := [ReactionJob 1 (Fulfilled "metadata")] |} ∧
  foldl BaseFilter.move called.2 [BaseFilter.RunJob; BaseFilter.Settle 0 (Fulfilled "metadata"); BaseFilter.RunJob] =
    {| promises := [Settled (Fulfilled "metadata"); Settled (Fulfilled "metadata")];
       jobs := [] |}.
Proof. repeat split. Qed.

End Examples.

(** ** call.ts *)

Module CallSurfaceProps.
Import CallSurface CallSurfaceMore.

(** C6: for each of the four surface variants (unary call, readable stream,
    writable stream, duplex stream), [cancel()] performs exactly one action:
    [cancelWithStatus] on the underlying call, with code CANCELLED and
    details 'Cancelled on client'. *)
Theorem cancel_is_cancelled_on_client (Req Resp : Type) (null : Resp -> bool)
    (Number : string -> JsNumber) :
  (∀ this : ClientUnaryCallImpl.t,
     ClientUnaryCallImpl.cancel (Resp := Resp) this =
       [CallDo (ClientUnaryCallImpl.call this)
               (cancelWithStatus CANCELLED "Cancelled on client")]) ∧
  (∀ this : ClientReadableStreamImpl.t Resp,
     ClientReadableStreamImpl.cancel this =
       [CallDo (ClientReadableStreamImpl.call this)
               (cancelWithStatus CANCELLED "Cancelled on client")] ∧
     ClientReadableStreamImpl.step null this AppCancel =
       (this, ClientReadableStreamImpl.cancel this)) ∧
  (∀ this : ClientWritableStreamImpl.t Req,
     ClientWritableStreamImpl.cancel (Resp := Resp) this =
       [CallDo (ClientWritableStreamImpl.call this)
               (cancelWithStatus CANCELLED "Cancelled on client")] ∧
     ClientWritableStreamImpl.step Number this WAppCancel =
       (this, ClientWritableStreamImpl.cancel (Resp := Resp) this)) ∧
  (∀ this : ClientDuplexStreamImpl.t Req Resp,
     ClientDuplexStreamImpl.cancel this =
       [CallDo (ClientDuplexStreamImpl.call this)
               (cancelWithStatus CANCELLED "Cancelled on client")] ∧
     ClientDuplexStreamImpl.step null Number this (Readable AppCancel) =
       (this, ClientDuplexStreamImpl.cancel this)).
Proof. repeat split. Qed.

Section Writes.
Context {Req Resp : Type} (Number : string -> JsNumber).

Lemma tryWrite_throw (call : Call) (serialize : Req -> completion Buffer)
    (chunk : Req) (encoding : string) (cb : Callback) (e : Thrown) :
  serialize chunk = Throw e →
  tryWrite (Resp := Resp) Number call serialize chunk encoding cb =
    [CallDo call (cancelWithStatus INTERNAL "Serialization failure");
     InvokeWriteCb cb (Some e)].
Proof. intros Hthrow. unfold tryWrite. by rewrite Hthrow. Qed.

Lemma tryWrite_normal (call : Call) (serialize : Req -> completion Buffer)
    (chunk : Req) (encoding : string) (cb : Callback) (message : Buffer) :
  serialize chunk = Normal message →
  ∃ writeObj,
    CallStream.message writeObj = message ∧
    tryWrite (Resp := Resp) Number call serialize chunk encoding cb =
      [CallDo call (write writeObj (Some cb))].
Proof.
  intros Hok. unfold tryWrite. rewrite Hok.
  destruct (Number_isNaN (Number encoding)); simpl;
    (eexists; split; [|reflexivity]; reflexivity).
Qed.

End Writes.

(** *** Runs *)
Section Runs.
Context {S I E : Type} (step : S -> I -> S * list E).

Lemma run_cons_state (s : S) (i : I) (rest : list I) :
  (run step s (i :: rest)).1 = (run step (step s i).1 rest).1.
Proof.
  simpl. destruct (step s i) as [s1 effs1]. simpl.
  by destruct (run step s1 rest).
Qed.

Lemma run_cons_effects (s : S) (i : I) (rest : list I) :
  (run step s (i :: rest)).2 = (step s i).2 ++ (run step (step s i).1 rest).2.
Proof.
  simpl. destruct (step s i) as [s1 effs1]. simpl.
  by destruct (run step s1 rest).
Qed.

End Runs.

(** *** The listeners installed by setUpReadableStream *)
Section Listeners.
Context {Resp : Type} (null : Resp -> bool).
Implicit Types (st : ReadableSetup) (status : StatusObject).

Lemma on_data_throw (call : Call) (deserialize : Buffer -> completion Resp)
    st (data : Buffer) (accepted : bool) (e : Thrown) :
  deserialize data = Throw e →
  on_data null call deserialize st data accepted =
    (st, [CallDo call (cancelWithStatus INTERNAL "Failed to parse server response")]).
Proof. intros Hthrow. unfold on_data. by rewrite Hthrow. Qed.

Lemma on_data_setup (call : Call) (deserialize : Buffer -> completion Resp)
    st (data : Buffer) (accepted : bool) :
  (on_data null call deserialize st data accepted).1 = st.
Proof. unfold on_data. by destruct (deserialize data). Qed.

Lemma on_data_effects (call : Call) (deserialize : Buffer -> completion Resp)
    st (data : Buffer) (accepted : bool) (effect : Effect Resp) :
  effect ∈ (on_data null call deserialize st data accepted).2 →
  (∃ message, deserialize data = Normal message ∧ effect = Push (chunk_of null message)) ∨
  (∃ c text, effect = CallDo call (cancelWithStatus c text)) ∨
  effect = CallDo call pause.
Proof.
  unfold on_data. destruct (deserialize data) as [message|e]; simpl.
  - rewrite elem_of_cons. intros [->|Hin]; [left; by exists message|].
    destruct accepted; [by apply elem_of_nil in Hin|].
    apply list_elem_of_singleton in Hin as ->. eauto.
  - intros Hin. apply list_elem_of_singleton in Hin as ->. eauto.
Qed.

Lemma status_event_not_ok st status :
  code status ≠ OK →
  status_event (Resp := Resp) st status true =
    ({| statusEmitted := true; pendingOnce := 0 |},
     Emit (emit_error {| error_message := details status; error_status := status |})
       :: Emit (emit_status status) :: replicate (pendingOnce st) (Push None)).
Proof.
  intros Hcode. unfold status_event, on_status, once_status. simpl.
  by destruct (decide (code status ≠ OK)).
Qed.

(** Without a listener for 'error' the dispatch ends at the throw. *)
Lemma status_event_unheard st status :
  code status ≠ OK →
  status_event (Resp := Resp) st status false =
    (st, [Emit (emit_error {| error_message := details status; error_status := status |});
          Uncaught (ServiceError_of status)]).
Proof.
  intros Hcode. unfold status_event, on_status.
  by destruct (decide (code status ≠ OK)).
Qed.

Lemma status_event_ok st status (listened : bool) :
  code status = OK →
  status_event (Resp := Resp) st status listened =
    ({| statusEmitted := true; pendingOnce := 0 |},
     Emit (emit_status status) :: replicate (pendingOnce st) (Push None)).
Proof.
  intros Hcode. unfold status_event, on_status, once_status. simpl.
  by destruct (decide (code status ≠ OK)).
Qed.

Lemma on_end_effects (call : Call) st :
  (on_end (Resp := Resp) call st).2 =
    if statusEmitted st then [Push None] else [CallDo call (once ev_status)].
Proof. unfold on_end. by destruct (statusEmitted st). Qed.

Lemma on_end_setup (call : Call) st :
  (on_end (Resp := Resp) call st).1 =
    if statusEmitted st then st
    else {| statusEmitted := false; pendingOnce := S (pendingOnce st) |}.
Proof. unfold on_end. destruct (statusEmitted st) eqn:E; simpl; by rewrite ?E. Qed.

Lemma not_in_replicate_error (n : nat) (error : ServiceError) :
  Emit (emit_error error) ∉ replicate n (Push (Resp := Resp) None).
Proof. intros Hin. by apply elem_of_replicate in Hin as [? _]. Qed.

End Listeners.

(** *** One step of a readable or duplex stream *)

(** The first component of a step is taken apart with these. *)
Lemma pair_fst_let {A B C D : Type} (p : A * B) (f : A -> B -> C * D) :
  (let '(a, b) := p in f a b).1 = (f p.1 p.2).1.
Proof. by destruct p. Qed.

Lemma pair_snd_let {A B C D : Type} (p : A * B) (f : A -> B -> C * D) :
  (let '(a, b) := p in f a b).2 = (f p.1 p.2).2.
Proof. by destruct p. Qed.

Section ReadableSteps.
Context {Resp : Type} (null : Resp -> bool).
Import ClientReadableStreamImpl.
Implicit Types (this : ClientReadableStreamImpl.t Resp) (i : ReadableInput).

Lemma readable_step_setup this i :
  setup (step null this i).1 =
    match i with
    | CallData data accepted =>
        (on_data null (call this) (deserialize this) (setup this) data accepted).1
    | CallEnd => (on_end (Resp := Resp) (call this) (setup this)).1
    | CallStatus status listened => (status_event (Resp := Resp) (setup this) status listened).1
    | _ => setup this
    end.
Proof. destruct i; simpl; try done; by rewrite pair_fst_let. Qed.

Lemma readable_step_effects this i :
  (step null this i).2 =
    match i with
    | CallMetadata metadata => [Emit (emit_metadata metadata)]
    | CallData data accepted =>
        (on_data null (call this) (deserialize this) (setup this) data accepted).2
    | CallEnd => (on_end (call this) (setup this)).2
    | CallStatus status listened => (status_event (setup this) status listened).2
    | StreamRead size => [CallDo (call this) resume]
    | AppCancel => [CallDo (call this) (cancelWithStatus CANCELLED "Cancelled on client")]
    end.
Proof. destruct i; simpl; try done; by rewrite pair_snd_let. Qed.

Lemma readable_step_call this i : call (step null this i).1 = call this.
Proof. destruct i; simpl; try done; by rewrite pair_fst_let. Qed.

Lemma readable_step_deserialize this i :
  deserialize (step null this i).1 = deserialize this.
Proof. destruct i; simpl; try done; by rewrite pair_fst_let. Qed.

End ReadableSteps.

Section DuplexSteps.
Context {Req Resp : Type} (null : Resp -> bool) (Number : string -> JsNumber).
Import ClientDuplexStreamImpl.
Implicit Types (this : ClientDuplexStreamImpl.t Req Resp) (i : DuplexInput Req).

Lemma duplex_step_setup this i :
  setup (step null Number this i).1 =
    match i with
    | Readable (CallData data accepted) =>
        (on_data null (call this) (deserialize this) (setup this) data accepted).1
    | Readable CallEnd => (on_end (Resp := Resp) (call this) (setup this)).1
    | Readable (CallStatus status listened) => (status_event (Resp := Resp) (setup this) status listened).1
    | _ => setup this
    end.
Proof. destruct i as [[]| |]; simpl; try done; by rewrite pair_fst_let. Qed.

Lemma duplex_step_effects this i :
  (step null Number this i).2 =
    match i with
    | Readable (CallMetadata metadata) => [Emit (emit_metadata metadata)]
    | Readable (CallData data accepted) =>
        (on_data null (call this) (deserialize this) (setup this) data accepted).2
    | Readable CallEnd => (on_end (call this) (setup this)).2
    | Readable (CallStatus status listened) => (status_event (setup this) status listened).2
    | Readable (StreamRead size) => [CallDo (call this) resume]
    | Readable AppCancel =>
        [CallDo (call this) (cancelWithStatus CANCELLED "Cancelled on client")]
    | DuplexWrite chunk encoding cb =>
        tryWrite Number (call this) (serialize this) chunk encoding cb
    | DuplexFinal cb => [CallDo (call this) end_; InvokeWriteCb cb None]
    end.
Proof. destruct i as [[]| |]; simpl; try done; by rewrite pair_snd_let. Qed.

Lemma duplex_step_call this i : call (step null Number this i).1 = call this.
Proof. destruct i as [[]| |]; simpl; try done; by rewrite pair_fst_let. Qed.

Lemma duplex_step_deserialize this i :
  deserialize (step null Number this i).1 = deserialize this.
Proof. destruct i as [[]| |]; simpl; try done; by rewrite pair_fst_let. Qed.

End DuplexSteps.

(** *** Behaviour common to the surfaces built on setUpReadableStream

    [step] is the step of such a surface, [view] tells which inputs are
    those of a readable stream; the hypotheses say that the step handles
    these with the listeners of [setUpReadableStream] and with [_read] and
    [cancel], and that the other inputs (the writes of a duplex stream)
    neither push, nor emit, nor pause or resume the call. *)
Section ReadableBehaviour.
Context {S I Resp : Type} (null : Resp -> bool).
Context (step : S -> I -> S * list (Effect Resp)).
Context (setup_of : S -> ReadableSetup) (call_of : S -> Call).
Context (deserialize_of : S -> Buffer -> completion Resp).
Context (view : I -> option ReadableInput) (is_data : I -> bool).

Hypothesis step_setup : ∀ s i,
  setup_of (step s i).1 =
    match view i with
    | Some (CallData data accepted) =>
        (on_data null (call_of s) (deserialize_of s) (setup_of s) data accepted).1
    | Some CallEnd => (on_end (Resp := Resp) (call_of s) (setup_of s)).1
    | Some (CallStatus status listened) =>
        (status_event (Resp := Resp) (setup_of s) status listened).1
    | _ => setup_of s
    end.

Hypothesis step_effects : ∀ s i,
  match view i with
  | Some (CallMetadata metadata) => (step s i).2 = [Emit (emit_metadata metadata)]
  | Some (CallData data accepted) =>
      (step s i).2 =
        (on_data null (call_of s) (deserialize_of s) (setup_of s) data accepted).2
  | Some CallEnd => (step s i).2 = (on_end (call_of s) (setup_of s)).2
  | Some (CallStatus status listened) =>
      (step s i).2 = (status_event (setup_of s) status listened).2
  | Some (StreamRead size) => (step s i).2 = [CallDo (call_of s) resume]
  | Some AppCancel =>
      (step s i).2 = [CallDo (call_of s) (cancelWithStatus CANCELLED "Cancelled on client")]
  | None =>
      ∀ effect, effect ∈ (step s i).2 →
        (∃ c text, effect = CallDo (call_of s) (cancelWithStatus c text)) ∨
        (∃ writeObj cb, effect = CallDo (call_of s) (write writeObj cb)) ∨
        effect = CallDo (call_of s) end_ ∨
        (∃ cb err, effect = InvokeWriteCb cb err)
  end.

Hypothesis step_call : ∀ s i, call_of (step s i).1 = call_of s.

Hypothesis step_deserialize : ∀ s i, deserialize_of (step s i).1 = deserialize_of s.

Hypothesis is_data_view : ∀ i,
  is_data i = true ↔ ∃ data accepted, view i = Some (CallData data accepted).

(** What one step may do, by the kind of its input. *)
Lemma step_effect_kinds (s : S) (i : I) (effect : Effect Resp) :
  effect ∈ (step s i).2 →
  (∃ metadata, view i = Some (CallMetadata metadata) ∧ effect = Emit (emit_metadata metadata)) ∨
  (∃ data accepted message,
     view i = Some (CallData data accepted) ∧ deserialize_of s data = Normal message ∧
     effect = Push (chunk_of null message)) ∨
  (is_data i = true ∧ effect = CallDo (call_of s) pause) ∨
  (view i = Some CallEnd ∧ statusEmitted (setup_of s) = true ∧ effect = Push None) ∨
  (view i = Some CallEnd ∧ statusEmitted (setup_of s) = false ∧
     effect = CallDo (call_of s) (once ev_status)) ∨
  (∃ status listened, view i = Some (CallStatus status listened) ∧
     effect ∈ (status_event (Resp := Resp) (setup_of s) status listened).2) ∨
  ((∃ size, view i = Some (StreamRead size)) ∧ effect = CallDo (call_of s) resume) ∨
  (∃ c text, effect = CallDo (call_of s) (cancelWithStatus c text)) ∨
  (∃ writeObj cb, effect = CallDo (call_of s) (write writeObj cb)) ∨
  effect = CallDo (call_of s) end_ ∨
  (∃ cb err, effect = InvokeWriteCb cb err).
Proof.
  intros Hin. pose proof (step_effects s i) as Hstep.
  destruct (view i) as [[metadata|data accepted| |status listened|size|]|] eqn:Hview.
  - rewrite Hstep in Hin. apply list_elem_of_singleton in Hin.
    left. by exists metadata.
  - rewrite Hstep in Hin.
    assert (is_data i = true) as Hdata by (apply is_data_view; eauto).
    apply on_data_effects in Hin as [(message & Hmessage & ->)|[(c & text & ->)| ->]].
    + right. left. by exists data, accepted, message.
    + do 7 right. left. by exists c, text.
    + do 2 right. by left.
  - rewrite Hstep, on_end_effects in Hin.
    destruct (statusEmitted (setup_of s)) eqn:Hemitted;
      apply list_elem_of_singleton in Hin.
    + do 3 right. by left.
    + do 4 right. by left.
  - rewrite Hstep in Hin. do 5 right. left. by exists status, listened.
  - rewrite Hstep in Hin. apply list_elem_of_singleton in Hin.
    do 6 right. left. split; [by exists size|done].
  - rewrite Hstep in Hin. apply list_elem_of_singleton in Hin.
    do 7 right. left. by exists CANCELLED, "Cancelled on client".
  - do 7 right. apply (Hstep effect Hin).
Qed.

Lemma status_event_effects (st : ReadableSetup) (status : StatusObject)
    (listened : bool) (effect : Effect Resp) :
  effect ∈ (status_event st status listened).2 →
  (code status ≠ OK ∧ effect = Emit (emit_error (ServiceError_of status))) ∨
  effect = Emit (emit_status status) ∨
  (0 < pendingOnce st ∧ effect = Push None) ∨
  (code status ≠ OK ∧ listened = false ∧ effect = Uncaught (ServiceError_of status)).
Proof.
  destruct (decide (code status = OK)) as [Hok|Hnot].
  - rewrite (status_event_ok _ _ _ Hok). simpl. rewrite elem_of_cons.
    intros [->|Hin]; [eauto|].
    apply elem_of_replicate in Hin as [-> Hn]. right. right. left. split; [lia|done].
  - destruct listened.
    + rewrite (status_event_not_ok _ _ Hnot). simpl. rewrite !elem_of_cons.
      intros [->|[->|Hin]]; [eauto|eauto|].
      apply elem_of_replicate in Hin as [-> Hn]. right. right. left. split; [lia|done].
    + rewrite (status_event_unheard _ _ Hnot). simpl. rewrite !elem_of_cons.
      intros [->|[->|Hin]]; [eauto|by do 3 right|by apply elem_of_nil in Hin].
Qed.

(** No 'error' is emitted by a run all of whose 'status' events are OK. *)
Lemma run_no_error (s : S) (inputs : list I) :
  (∀ i status listened,
     i ∈ inputs → view i = Some (CallStatus status listened) → code status = OK) →
  ∀ error, Emit (emit_error error) ∉ (run step s inputs).2.
Proof.
  revert s. induction inputs as [|i rest IH]; intros s Hok error.
  - simpl. apply not_elem_of_nil.
  - rewrite run_cons_effects, elem_of_app. intros [Hin|Hin].
    + apply step_effect_kinds in Hin
        as [(? & _ & ?)|[(? & ? & ? & _ & _ & ?)|[(_ & ?)|[(_ & _ & ?)|[(_ & _ & ?)|
            [(status & listened & Hview & Hin)|[(_ & ?)|[(? & ? & ?)|[(? & ? & ?)|
            [?|(? & ? & ?)]]]]]]]]]];
        try discriminate.
      apply status_event_effects in Hin as [[Hnot _]|[?|[[_ ?]|(_ & _ & ?)]]];
        try discriminate.
      apply Hnot, (Hok i _ listened); [apply elem_of_cons; by left|done].
    + revert Hin. apply IH. intros j status listened Hj. apply Hok, elem_of_cons. by right.
Qed.

(** The flag after a 'status' event: up when the listener returned, as it
    was when 'error' found no listener. *)
Lemma status_event_flag (st : ReadableSetup) (status : StatusObject) (listened : bool) :
  statusEmitted (status_event (Resp := Resp) st status listened).1 =
    delivered (CallStatus status listened) || statusEmitted st.
Proof.
  unfold delivered. destruct (decide (code status = OK)) as [Hok|Hnot].
  - rewrite (status_event_ok _ _ _ Hok). by rewrite bool_decide_eq_true_2.
  - rewrite bool_decide_eq_false_2 by done. destruct listened.
    + by rewrite (status_event_not_ok _ _ Hnot).
    + by rewrite (status_event_unheard _ _ Hnot).
Qed.

Lemma step_keeps_flag (s : S) (i : I) :
  statusEmitted (setup_of s) = false →
  (∀ r, view i = Some r → delivered r = false) →
  statusEmitted (setup_of (step s i).1) = false.
Proof.
  intros Hflag Hnone. rewrite step_setup.
  destruct (view i) as [[metadata|data accepted| |status listened|size|]|] eqn:Hview;
    try done.
  - by rewrite on_data_setup.
  - by rewrite on_end_setup, Hflag.
  - by rewrite status_event_flag, (Hnone _ eq_refl), Hflag.
Qed.

(** Until a 'status' event comes, the flag stays down, and the end of the
    stream is not pushed unless a message deserializes to [null]. *)
Lemma run_before_status (s : S) (inputs : list I) :
  statusEmitted (setup_of s) = false →
  (∀ i status listened, i ∈ inputs → view i ≠ Some (CallStatus status listened)) →
  statusEmitted (setup_of (run step s inputs).1) = false ∧
  ((∀ i r, i ∈ inputs → view i = Some r →
      brings_null null (deserialize_of s) r = false) →
   Push None ∉ (run step s inputs).2).
Proof.
  revert s. induction inputs as [|i rest IH]; intros s Hflag Hnone.
  - split; [done|]. intros _. simpl. apply not_elem_of_nil.
  - assert (statusEmitted (setup_of (step s i).1) = false) as Hflag1.
    { apply step_keeps_flag; [done|]. intros r Hview.
      destruct r as [| | |status listened| |]; try done.
      by destruct (Hnone i status listened (ltac:(apply elem_of_cons; by left))). }
    destruct (IH (step s i).1 Hflag1) as [IHflag IHpush].
    { intros j status listened Hj. apply Hnone, elem_of_cons. by right. }
    rewrite run_cons_state, run_cons_effects. split; [done|].
    intros Hnonull. rewrite elem_of_app. intros [Hin|Hin].
    + apply step_effect_kinds in Hin
        as [(? & _ & ?)|[(data & accepted & message & Hview & Hmessage & Hpush)|[(_ & ?)|
            [(_ & Hup & _)|[(_ & _ & ?)|[(status & listened & Hview & _)|[(_ & ?)|
            [(? & ? & ?)|[(? & ? & ?)|[?|(? & ? & ?)]]]]]]]]]];
        try discriminate.
      * pose proof (Hnonull i _ (ltac:(apply elem_of_cons; by left)) Hview) as Hnull.
        simpl in Hnull. rewrite Hmessage in Hnull.
        unfold chunk_of in Hpush. by rewrite Hnull in Hpush.
      * congruence.
      * apply (Hnone i status listened); [apply elem_of_cons; by left|done].
    + revert Hin. apply IHpush. intros j r Hj Hview. rewrite step_deserialize.
      apply (Hnonull j); [apply elem_of_cons; by right|done].
Qed.

(** A listener added by [once('status')] stays until a 'status' event
    whose listener returns. *)
Lemma run_keeps_pending (s : S) (inputs : list I) :
  statusEmitted (setup_of s) = false →
  0 < pendingOnce (setup_of s) →
  (∀ i r, i ∈ inputs → view i = Some r → delivered r = false) →
  0 < pendingOnce (setup_of (run step s inputs).1).
Proof.
  revert s. induction inputs as [|i rest IH]; intros s Hflag Hpending Hnone; [done|].
  assert (Hhere : ∀ r, view i = Some r → delivered r = false).
  { intros r. apply Hnone, elem_of_cons. by left. }
  rewrite run_cons_state. apply IH.
  - by apply step_keeps_flag.
  - rewrite step_setup.
    destruct (view i) as [[metadata|data accepted| |status listened|size|]|] eqn:Hview;
      try done.
    + by rewrite on_data_setup.
    + rewrite on_end_setup, Hflag. simpl. lia.
    + pose proof (Hhere _ eq_refl) as Hnot. unfold delivered in Hnot.
      apply orb_false_iff in Hnot as [Hcode ->].
      apply bool_decide_eq_false in Hcode.
      by rewrite (status_event_unheard _ _ Hcode).
  - intros j r Hj. apply Hnone, elem_of_cons. by right.
Qed.

(** While nothing resumes it, a paused call stays paused. *)
Lemma paused_after_effects (call : Call) (effects : list (Effect Resp)) :
  CallDo call resume ∉ effects →
  foldl (paused_after call) true effects = true.
Proof.
  induction effects as [|effect rest IH]; [done|].
  rewrite not_elem_of_cons. intros [Hne Hrest]. simpl.
  assert (paused_after call true effect = true) as ->; [|by apply IH].
  destruct effect as [c op| | | | |]; try done.
  destruct op; simpl; try done; destruct (decide (c = call)) as [->|]; done.
Qed.

(** On a paused call, every 'data' event comes after a [_read]. *)
Lemma run_on_call_data_after_read (call : Call) (s : S) (inputs : list I)
    (result : S * list (Effect Resp)) :
  call_of s = call →
  run_on_call step is_data call true s inputs = Some result →
  ∀ before i after, inputs = before ++ i :: after → is_data i = true →
    ∃ j size, j ∈ before ∧ view j = Some (StreamRead size).
Proof.
  revert s result. induction inputs as [|j rest IH];
    intros s result Hcall Hrun before i after Hsplit Hdata.
  - by destruct before.
  - simpl in Hrun.
    destruct (is_data j) eqn:Hj; simpl in Hrun; [discriminate|].
    destruct before as [|j' before]; simplify_eq/=; [congruence|].
    destruct (step s j') as [s1 effs1] eqn:Hstep.
    assert ((∃ size, view j' = Some (StreamRead size)) ∨
            CallDo (call_of s) resume ∉ (step s j').2) as [[size Hsize]|Hnotin].
    { destruct (view j') as [[metadata|data accepted| |status listened|size|]|] eqn:Hview;
        [right..|left; by exists size|right|right];
        (intros Hin; apply step_effect_kinds in Hin
          as [(? & _ & ?)|[(? & ? & ? & _ & _ & ?)|[(_ & ?)|[(_ & _ & ?)|[(_ & _ & ?)|
              [(st & l & _ & Hin)|[((? & ?) & _)|[(? & ? & ?)|[(? & ? & ?)|
              [?|(? & ? & ?)]]]]]]]]]];
          try congruence;
          apply status_event_effects in Hin as [[_ ?]|[?|[[_ ?]|(_ & _ & ?)]]];
          discriminate). }
    + exists j', size. split; [apply elem_of_cons; by left|done].
    + rewrite Hstep in Hnotin. simpl in Hnotin.
      rewrite (paused_after_effects _ _ Hnotin) in Hrun.
      destruct (run_on_call step is_data (call_of s) true s1 (before ++ i :: after))
        as [[s2 effs2]|] eqn:Hrest; [|discriminate].
      destruct (IH s1 (s2, effs2)) with (before := before) (i := i) (after := after)
        as (k & size & Hk & Hkread); try done.
      * pose proof (step_call s j') as Hc. by rewrite Hstep in Hc.
      * exists k, size. split; [apply elem_of_cons; by right|done].
Qed.

(** The flag is up exactly when a 'status' event has come whose listener
    returned. *)
Lemma run_flag (s : S) (inputs : list I) :
  statusEmitted (setup_of (run step s inputs).1) = true ↔
  statusEmitted (setup_of s) = true ∨
  ∃ i r, i ∈ inputs ∧ view i = Some r ∧ delivered r = true.
Proof.
  revert s. induction inputs as [|i rest IH]; intros s.
  - simpl. split; [by left|]. intros [?|(i & ? & Hin & _)]; [done|].
    by apply elem_of_nil in Hin.
  - rewrite run_cons_state, IH, step_setup. split.
    + intros [Hflag|(j & r & Hj & Hview & Hr)].
      * destruct (view i) as [[metadata|data accepted| |status listened|size|]|] eqn:Hview;
          try (by left).
        -- rewrite on_data_setup in Hflag. by left.
        -- rewrite on_end_setup in Hflag.
           destruct (statusEmitted (setup_of s)); [by left|done].
        -- rewrite status_event_flag in Hflag.
           apply orb_true_iff in Hflag as [Hflag|Hflag]; [|by left].
           right. exists i, (CallStatus status listened).
           split; [apply elem_of_cons; by left|done].
      * right. exists j, r. split; [apply elem_of_cons; by right|done].
    + intros [Hflag|(j & r & Hj & Hview & Hr)].
      * left. destruct (view i) as [[metadata|data accepted| |status listened|size|]|];
          try done.
        -- by rewrite on_data_setup.
        -- by rewrite on_end_setup, Hflag.
        -- rewrite status_event_flag, Hflag. apply orb_true_r.
      * apply elem_of_cons in Hj as [->|Hj].
        -- left. rewrite Hview. destruct r; try done.
           by rewrite status_event_flag, Hr.
        -- right. by exists j, r.
Qed.

(** A behaviour on a call is a run. *)
Lemma run_on_call_run (call : Call) (paused : bool) (s : S) (inputs : list I)
    (result : S * list (Effect Resp)) :
  run_on_call step is_data call paused s inputs = Some result →
  result = run step s inputs.
Proof.
  revert paused s result. induction inputs as [|i rest IH];
    intros paused s result Hrun; simpl in *; [by simplify_eq|].
  destruct (is_data i && paused); [discriminate|].
  destruct (step s i) as [s1 effs1].
  destruct (run_on_call step is_data call _ s1 rest) as [[s2 effs2]|] eqn:Hrest;
    [|discriminate].
  apply IH in Hrest. rewrite <- Hrest. by simplify_eq.
Qed.

(** A message is pushed only by a 'data' event. *)
Lemma run_push_data (s : S) (inputs : list I) (message : Resp) :
  Push (Some message) ∈ (run step s inputs).2 →
  ∃ i, i ∈ inputs ∧ is_data i = true.
Proof.
  revert s. induction inputs as [|i rest IH]; intros s.
  - simpl. intros Hin. by apply elem_of_nil in Hin.
  - rewrite run_cons_effects, elem_of_app. intros [Hin|Hin].
    + exists i. split; [apply elem_of_cons; by left|].
      apply step_effect_kinds in Hin
        as [(? & _ & ?)|[(? & ? & ? & Hview & _ & _)|[(_ & ?)|[(_ & _ & ?)|[(_ & _ & ?)|
            [(status & listened & _ & Hin)|[(_ & ?)|[(? & ? & ?)|[(? & ? & ?)|
            [?|(? & ? & ?)]]]]]]]]]];
        try discriminate; try done.
      * apply is_data_view. eauto.
      * apply status_event_effects in Hin as [[_ ?]|[?|[[_ ?]|(_ & _ & ?)]]];
          discriminate.
    + destruct (IH _ Hin) as (j & Hj & Hdata).
      exists j. split; [apply elem_of_cons; by right|done].
Qed.

End ReadableBehaviour.

(** *** The two classes meet the hypotheses *)
Section Classes.
Context {Req Resp : Type} (null : Resp -> bool) (Number : string -> JsNumber).

Local Abbreviation readable_step := (ClientReadableStreamImpl.step null (Resp := Resp)).
Local Abbreviation duplex_step :=
  (ClientDuplexStreamImpl.step (Req := Req) (Resp := Resp) null Number).
Local Abbreviation duplex_view := (readable_part (Req := Req)).

Lemma readable_meets_setup (s : ClientReadableStreamImpl.t Resp) (i : ReadableInput) :
  ClientReadableStreamImpl.setup (readable_step s i).1 =
    match Some i with
    | Some (CallData data accepted) =>
        (on_data null (ClientReadableStreamImpl.call s) (ClientReadableStreamImpl.deserialize s)
           (ClientReadableStreamImpl.setup s) data accepted).1
    | Some CallEnd =>
        (on_end (Resp := Resp) (ClientReadableStreamImpl.call s)
           (ClientReadableStreamImpl.setup s)).1
    | Some (CallStatus status listened) =>
        (status_event (Resp := Resp) (ClientReadableStreamImpl.setup s) status listened).1
    | _ => ClientReadableStreamImpl.setup s
    end.
Proof. rewrite readable_step_setup. by destruct i. Qed.

Lemma readable_meets_effects (s : ClientReadableStreamImpl.t Resp) (i : ReadableInput) :
  match Some i with
  | Some (CallMetadata metadata) => (readable_step s i).2 = [Emit (emit_metadata metadata)]
  | Some (CallData data accepted) =>
      (readable_step s i).2 =
        (on_data null (ClientReadableStreamImpl.call s) (ClientReadableStreamImpl.deserialize s)
           (ClientReadableStreamImpl.setup s) data accepted).2
  | Some CallEnd =>
      (readable_step s i).2 =
        (on_end (ClientReadableStreamImpl.call s) (ClientReadableStreamImpl.setup s)).2
  | Some (CallStatus status listened) =>
      (readable_step s i).2 = (status_event (ClientReadableStreamImpl.setup s) status listened).2
  | Some (StreamRead size) =>
      (readable_step s i).2 = [CallDo (ClientReadableStreamImpl.call s) resume]
  | Some AppCancel =>
      (readable_step s i).2 =
        [CallDo (ClientReadableStreamImpl.call s)
                (cancelWithStatus CANCELLED "Cancelled on client")]
  | None =>
      ∀ effect, effect ∈ (readable_step s i).2 →
        (∃ c text, effect = CallDo (ClientReadableStreamImpl.call s) (cancelWithStatus c text)) ∨
        (∃ writeObj cb, effect = CallDo (ClientReadableStreamImpl.call s) (write writeObj cb)) ∨
        effect = CallDo (ClientReadableStreamImpl.call s) end_ ∨
        (∃ cb err, effect = InvokeWriteCb cb err)
  end.
Proof. rewrite readable_step_effects. by destruct i. Qed.

Lemma readable_meets_data (i : ReadableInput) :
  readable_is_data i = true ↔ ∃ data accepted, Some i = Some (CallData data accepted).
Proof.
  destruct i; simpl; split; try done; try (by intros (? & ? & ?)). eauto.
Qed.

Lemma duplex_meets_setup (s : ClientDuplexStreamImpl.t Req Resp) (i : DuplexInput Req) :
  ClientDuplexStreamImpl.setup (duplex_step s i).1 =
    match duplex_view i with
    | Some (CallData data accepted) =>
        (on_data null (ClientDuplexStreamImpl.call s) (ClientDuplexStreamImpl.deserialize s)
           (ClientDuplexStreamImpl.setup s) data accepted).1
    | Some CallEnd =>
        (on_end (Resp := Resp) (ClientDuplexStreamImpl.call s)
           (ClientDuplexStreamImpl.setup s)).1
    | Some (CallStatus status listened) =>
        (status_event (Resp := Resp) (ClientDuplexStreamImpl.setup s) status listened).1
    | _ => ClientDuplexStreamImpl.setup s
    end.
Proof. rewrite duplex_step_setup. by destruct i as [[]| |]. Qed.

Lemma duplex_meets_effects (s : ClientDuplexStreamImpl.t Req Resp) (i : DuplexInput Req) :
  match duplex_view i with
  | Some (CallMetadata metadata) => (duplex_step s i).2 = [Emit (emit_metadata metadata)]
  | Some (CallData data accepted) =>
      (duplex_step s i).2 =
        (on_data null (ClientDuplexStreamImpl.call s) (ClientDuplexStreamImpl.deserialize s)
           (ClientDuplexStreamImpl.setup s) data accepted).2
  | Some CallEnd =>
      (duplex_step s i).2 =
        (on_end (ClientDuplexStreamImpl.call s) (ClientDuplexStreamImpl.setup s)).2
  | Some (CallStatus status listened) =>
      (duplex_step s i).2 = (status_event (ClientDuplexStreamImpl.setup s) status listened).2
  | Some (StreamRead size) =>
      (duplex_step s i).2 = [CallDo (ClientDuplexStreamImpl.call s) resume]
  | Some AppCancel =>
      (duplex_step s i).2 =
        [CallDo (ClientDuplexStreamImpl.call s)
                (cancelWithStatus CANCELLED "Cancelled on client")]
  | None =>
      ∀ effect, effect ∈ (duplex_step s i).2 →
        (∃ c text, effect = CallDo (ClientDuplexStreamImpl.call s) (cancelWithStatus c text)) ∨
        (∃ writeObj cb, effect = CallDo (ClientDuplexStreamImpl.call s) (write writeObj cb)) ∨
        effect = CallDo (ClientDuplexStreamImpl.call s) end_ ∨
        (∃ cb err, effect = InvokeWriteCb cb err)
  end.
Proof.
  rewrite duplex_step_effects. destruct i as [[]|chunk encoding cb|cb]; try done.
  - intros effect Hin.
    destruct (ClientDuplexStreamImpl.serialize s chunk) as [message|e] eqn:Hser.
    + destruct (tryWrite_normal (Resp := Resp) Number (ClientDuplexStreamImpl.call s)
                  _ _ encoding cb _ Hser) as (writeObj & _ & Heq).
      rewrite Heq in Hin. apply list_elem_of_singleton in Hin as ->.
      right. left. by exists writeObj, (Some cb).
    + rewrite (tryWrite_throw Number _ _ _ _ _ _ Hser) in Hin.
      apply elem_of_cons in Hin as [->|Hin].
      * left. by exists INTERNAL, "Serialization failure".
      * apply list_elem_of_singleton in Hin as ->. do 3 right. by exists cb, (Some e).
  - intros effect Hin. apply elem_of_cons in Hin as [->|Hin].
    + right. right. by left.
    + apply list_elem_of_singleton in Hin as ->. do 3 right. by exists cb, None.
Qed.

Lemma duplex_meets_data (i : DuplexInput Req) :
  duplex_is_data i = true ↔ ∃ data accepted, duplex_view i = Some (CallData data accepted).
Proof.
  destruct i as [[]| |]; simpl; split; try done; try (by intros (? & ? & ?)). eauto.
Qed.

End Classes.

(** The hypotheses of the section on common behaviour, for either class. *)
Ltac readable_class :=
  first [ apply readable_meets_setup | apply readable_meets_effects
        | apply readable_step_call | apply readable_step_deserialize
        | apply readable_meets_data ].
Ltac duplex_class :=
  first [ apply duplex_meets_setup | apply duplex_meets_effects
        | apply duplex_step_call | apply duplex_step_deserialize
        | apply duplex_meets_data ].

(** C3: when the serialization function of a writable or duplex stream
    throws on a chunk, [_write] cancels the call with INTERNAL and
    'Serialization failure', then passes the thrown error to the callback
    of that write, and does nothing else: [Call.write] is not invoked. *)
Theorem serialization_failure (Req Resp : Type) (Number : string -> JsNumber)
    (chunk : Req) (encoding : string) (cb : Callback) (e : Thrown) :
  (∀ this : ClientWritableStreamImpl.t Req,
     ClientWritableStreamImpl.serialize this chunk = Throw e →
     let effects := ClientWritableStreamImpl._write (Resp := Resp) Number this chunk encoding cb in
     effects =
       [CallDo (ClientWritableStreamImpl.call this)
               (cancelWithStatus INTERNAL "Serialization failure");
        InvokeWriteCb cb (Some e)] ∧
     ∀ c writeObj cb', CallDo c (write writeObj cb') ∉ effects) ∧
  (∀ this : ClientDuplexStreamImpl.t Req Resp,
     ClientDuplexStreamImpl.serialize this chunk = Throw e →
     let effects := ClientDuplexStreamImpl._write Number this chunk encoding cb in
     effects =
       [CallDo (ClientDuplexStreamImpl.call this)
               (cancelWithStatus INTERNAL "Serialization failure");
        InvokeWriteCb cb (Some e)] ∧
     ∀ c writeObj cb', CallDo c (write writeObj cb') ∉ effects).
Proof.
  split; intros this Hthrow effects; subst effects.
  - unfold ClientWritableStreamImpl._write.
    rewrite (tryWrite_throw _ _ _ _ _ _ _ Hthrow).
    split; [done|]. intros c w cb' Hin.
    repeat (apply elem_of_cons in Hin as [Hin|Hin]; [discriminate|]).
    by apply elem_of_nil in Hin.
  - unfold ClientDuplexStreamImpl._write.
    rewrite (tryWrite_throw _ _ _ _ _ _ _ Hthrow).
    split; [done|]. intros c w cb' Hin.
    repeat (apply elem_of_cons in Hin as [Hin|Hin]; [discriminate|]).
    by apply elem_of_nil in Hin.
Qed.

(** An instance: the sample serializer rejects the empty request. *)
Lemma serialization_failure_witness :
  let this := (ClientWritableStreamImpl.constructor (Resp := Samples.Reply) 4 Samples.encode).1 in
  ClientWritableStreamImpl.serialize this "" = Throw (JsError "empty request") ∧
  ClientWritableStreamImpl._write (Resp := Samples.Reply) Samples.to_number this "" "1" 8 =
    [CallDo 4 (cancelWithStatus INTERNAL "Serialization failure");
     InvokeWriteCb 8 (Some (JsError "empty request"))].
Proof.
  intros this. split; [reflexivity|].
  apply (proj1 (serialization_failure string Samples.Reply Samples.to_number
                  "" "1" 8 (JsError "empty request")) this).
  reflexivity.
Defined.

(** C4 as stated fails on a stream that has no listener for 'error': the
    'error' that the stream emits for a status with code INTERNAL is thrown
    by [emit], and the stream does not emit 'status'. *)
Lemma status_not_emitted_when_error_unheard :
  let this := (ClientReadableStreamImpl.constructor 4 Samples.decode).1 in
  let effects :=
    (ClientReadableStreamImpl.step Samples.null this
       (CallStatus Samples.internal_status false)).2 in
  code Samples.internal_status ≠ OK ∧
  effects = [Emit (emit_error (ServiceError_of Samples.internal_status));
             Uncaught (ServiceError_of Samples.internal_status)] ∧
  Emit (emit_status Samples.internal_status) ∉ effects.
Proof.
  intros this effects. split; [simpl; discriminate|]. split; [reflexivity|].
  intros Hin. repeat (apply elem_of_cons in Hin as [Hin|Hin]; [discriminate|]).
  by apply elem_of_nil in Hin.
Qed.

(** C4, amended: on a readable or duplex stream, a 'status' event of the
    call with a code other than OK makes the stream emit 'error', carrying
    an error whose message is the details of the status and which holds
    the code, the details and the metadata of the status.  When the stream
    has a listener for 'error', 'status' is emitted immediately after it,
    and whatever else that event does only pushes the end of the stream.
    When it has none, [emit] throws the error out of the listener: the
    stream emits no 'status', and the listener leaves the stream as it
    was.  In a run all of whose 'status' events have code OK the stream
    emits no 'error'. *)
Theorem error_before_status (Req Resp : Type) (null : Resp -> bool)
    (Number : string -> JsNumber) :
  (∀ (this : ClientReadableStreamImpl.t Resp) (status : StatusObject),
     code status ≠ OK →
     (∃ n, (ClientReadableStreamImpl.step null this (CallStatus status true)).2 =
             Emit (emit_error {| error_message := details status; error_status := status |})
               :: Emit (emit_status status) :: replicate n (Push None)) ∧
     ClientReadableStreamImpl.step null this (CallStatus status false) =
       (this,
        [Emit (emit_error {| error_message := details status; error_status := status |});
         Uncaught {| error_message := details status; error_status := status |}])) ∧
  (∀ (this : ClientReadableStreamImpl.t Resp) (inputs : list ReadableInput),
     (∀ status listened, CallStatus status listened ∈ inputs → code status = OK) →
     ∀ error,
       Emit (emit_error error) ∉ (run (ClientReadableStreamImpl.step null) this inputs).2) ∧
  (∀ (this : ClientDuplexStreamImpl.t Req Resp) (status : StatusObject),
     code status ≠ OK →
     (∃ n, (ClientDuplexStreamImpl.step null Number this
              (Readable (CallStatus status true))).2 =
             Emit (emit_error {| error_message := details status; error_status := status |})
               :: Emit (emit_status status) :: replicate n (Push None)) ∧
     ClientDuplexStreamImpl.step null Number this (Readable (CallStatus status false)) =
       (this,
        [Emit (emit_error {| error_message := details status; error_status := status |});
         Uncaught {| error_message := details status; error_status := status |}])) ∧
  (∀ (this : ClientDuplexStreamImpl.t Req Resp) (inputs : list (DuplexInput Req)),
     (∀ status listened, Readable (CallStatus status listened) ∈ inputs → code status = OK) →
     ∀ error,
       Emit (emit_error error) ∉
         (run (ClientDuplexStreamImpl.step null Number) this inputs).2).
Proof.
  split; [|split; [|split]].
  - intros this status Hcode. split.
    + exists (pendingOnce (ClientReadableStreamImpl.setup this)).
      by rewrite readable_step_effects, (status_event_not_ok _ _ Hcode).
    + simpl. rewrite (status_event_unheard _ _ Hcode). by destruct this.
  - intros this inputs Hok.
    eapply run_no_error with (view := Some); try readable_class.
    intros i status listened Hin [= ->]. by apply (Hok status listened).
  - intros this status Hcode. split.
    + exists (pendingOnce (ClientDuplexStreamImpl.setup this)).
      by rewrite duplex_step_effects, (status_event_not_ok _ _ Hcode).
    + simpl. rewrite (status_event_unheard _ _ Hcode). by destruct this.
  - intros this inputs Hok.
    eapply run_no_error with (view := readable_part); try duplex_class.
    intros [r| |] status listened Hin [= ->]. by apply (Hok status listened).
Qed.

(** An instance: a status with code INTERNAL on a new readable stream that
    has a listener for 'error'. *)
Lemma error_before_status_witness :
  let this := (ClientReadableStreamImpl.constructor 4 Samples.decode).1 in
  code Samples.internal_status ≠ OK ∧
  ∃ n, (ClientReadableStreamImpl.step Samples.null this
          (CallStatus Samples.internal_status true)).2 =
         Emit (emit_error {| error_message := "boom";
                             error_status := Samples.internal_status |})
           :: Emit (emit_status Samples.internal_status) :: replicate n (Push None).
Proof.
  intros this.
  assert (code Samples.internal_status ≠ OK) as Hcode by (simpl; discriminate).
  split; [exact Hcode|].
  exact (proj1 (proj1 (error_before_status string Samples.Reply Samples.null
                         Samples.to_number)
                  this Samples.internal_status Hcode)).
Defined.

(** C7 as stated fails in two ways.  A message that deserializes to [null]
    is pushed as it is, which is the end of the stream, before any
    'status'.  And on a stream without a listener for 'error', after 'end'
    and a 'status' that is not OK the end of the stream has not been
    pushed, and the flag is down, although the call has emitted
    'status'. *)
Lemma end_of_stream_apart_from_status :
  let this := (ClientReadableStreamImpl.constructor 4 Samples.decode).1 in
  let early := [StreamRead 16; CallData [] false] in
  let unheard := [CallEnd; CallStatus Samples.internal_status false] in
  (Samples.decode [] = Normal Samples.reply_null ∧
   (∀ status listened, CallStatus status listened ∉ early) ∧
   Push None ∈ (run (ClientReadableStreamImpl.step Samples.null) this early).2) ∧
  ((Push None ∉ (run (ClientReadableStreamImpl.step Samples.null) this unheard).2) ∧
   statusEmitted (ClientReadableStreamImpl.setup
                    (run (ClientReadableStreamImpl.step Samples.null) this unheard).1)
     = false).
Proof.
  intros this early unheard. split; [split; [reflexivity|split]|split].
  - intros status listened Hin.
    repeat (apply elem_of_cons in Hin as [Hin|Hin]; [discriminate|]).
    by apply elem_of_nil in Hin.
  - apply elem_of_cons. right. apply elem_of_cons. by left.
  - intros Hin. repeat (apply elem_of_cons in Hin as [Hin|Hin]; [discriminate|]).
    by apply elem_of_nil in Hin.
  - reflexivity.
Qed.

(** C7, amended: on a readable or duplex stream whose messages do not
    deserialize to [null], the end of the stream is pushed only once the
    call has emitted 'status'.  (a) In a run from construction with no
    'status' event and no such message, [push(null)] does not happen; and
    the flag [statusEmitted] is up exactly when a 'status' event has come
    whose listener returned: one with code OK, or one on a stream that has
    a listener for 'error'.  (b) An 'end' event with the flag up pushes the
    end of the stream at once.  (c) An 'end' event with the flag down
    pushes nothing and adds a listener for 'status'; whatever comes next,
    the end of the stream is pushed when the next 'status' event comes, if
    its listener returns.  (d) A 'status' event that is not OK on a stream
    without a listener for 'error' pushes nothing and leaves the flag and
    the listeners that wait as they were. *)
Theorem end_of_stream_after_status (Req Resp : Type) (null : Resp -> bool)
    (Number : string -> JsNumber) :
  (∀ (call : Call) (deserialize : Buffer -> completion Resp) (inputs : list ReadableInput),
     let this := (ClientReadableStreamImpl.constructor call deserialize).1 in
     ((∀ status listened, CallStatus status listened ∉ inputs) →
      (∀ data accepted message, CallData data accepted ∈ inputs →
         deserialize data = Normal message → null message = false) →
      Push None ∉ (run (ClientReadableStreamImpl.step null) this inputs).2) ∧
     (statusEmitted (ClientReadableStreamImpl.setup
                       (run (ClientReadableStreamImpl.step null) this inputs).1) = true ↔
      ∃ status listened, CallStatus status listened ∈ inputs ∧
                         (code status = OK ∨ listened = true))) ∧
  (∀ this : ClientReadableStreamImpl.t Resp,
     statusEmitted (ClientReadableStreamImpl.setup this) = true →
     (ClientReadableStreamImpl.step null this CallEnd).2 = [Push None]) ∧
  (∀ this : ClientReadableStreamImpl.t Resp,
     statusEmitted (ClientReadableStreamImpl.setup this) = false →
     (ClientReadableStreamImpl.step null this CallEnd).2 =
       [CallDo (ClientReadableStreamImpl.call this) (once ev_status)] ∧
     ∀ (later : list ReadableInput) (status : StatusObject) (listened : bool),
       (∀ st l, CallStatus st l ∉ later) →
       code status = OK ∨ listened = true →
       Push None ∈
         (ClientReadableStreamImpl.step null
            (run (ClientReadableStreamImpl.step null) this (CallEnd :: later)).1
            (CallStatus status listened)).2) ∧
  (∀ (this : ClientReadableStreamImpl.t Resp) (status : StatusObject),
     code status ≠ OK →
     let after := ClientReadableStreamImpl.step null this (CallStatus status false) in
     ClientReadableStreamImpl.setup after.1 = ClientReadableStreamImpl.setup this ∧
     Push None ∉ after.2) ∧
  (∀ (call : Call) (serialize : Req -> completion Buffer)
     (deserialize : Buffer -> completion Resp) (inputs : list (DuplexInput Req)),
     let this := (ClientDuplexStreamImpl.constructor call serialize deserialize).1 in
     ((∀ status listened, Readable (CallStatus status listened) ∉ inputs) →
      (∀ data accepted message, Readable (CallData data accepted) ∈ inputs →
         deserialize data = Normal message → null message = false) →
      Push None ∉ (run (ClientDuplexStreamImpl.step null Number) this inputs).2) ∧
     (statusEmitted (ClientDuplexStreamImpl.setup
                       (run (ClientDuplexStreamImpl.step null Number) this inputs).1) = true ↔
      ∃ status listened, Readable (CallStatus status listened) ∈ inputs ∧
                         (code status = OK ∨ listened = true))) ∧
  (∀ this : ClientDuplexStreamImpl.t Req Resp,
     statusEmitted (ClientDuplexStreamImpl.setup this) = true →
     (ClientDuplexStreamImpl.step null Number this (Readable CallEnd)).2 = [Push None]) ∧
  (∀ this : ClientDuplexStreamImpl.t Req Resp,
     statusEmitted (ClientDuplexStreamImpl.setup this) = false →
     (ClientDuplexStreamImpl.step null Number this (Readable CallEnd)).2 =
       [CallDo (ClientDuplexStreamImpl.call this) (once ev_status)] ∧
     ∀ (later : list (DuplexInput Req)) (status : StatusObject) (listened : bool),
       (∀ st l, Readable (CallStatus st l) ∉ later) →
       code status = OK ∨ listened = true →
       Push None ∈
         (ClientDuplexStreamImpl.step null Number
            (run (ClientDuplexStreamImpl.step null Number) this (Readable CallEnd :: later)).1
            (Readable (CallStatus status listened))).2) ∧
  (∀ (this : ClientDuplexStreamImpl.t Req Resp) (status : StatusObject),
     code status ≠ OK →
     let after :=
       ClientDuplexStreamImpl.step null Number this (Readable (CallStatus status false)) in
     ClientDuplexStreamImpl.setup after.1 = ClientDuplexStreamImpl.setup this ∧
     Push None ∉ after.2).
Proof.
  assert (Hdelivered : ∀ status listened,
            delivered (CallStatus status listened) = true ↔
            code status = OK ∨ listened = true).
  { intros status listened. unfold delivered.
    rewrite orb_true_iff, bool_decide_eq_true. done. }
  assert (Hpushed : ∀ (st : ReadableSetup) status listened,
            0 < pendingOnce st → code status = OK ∨ listened = true →
            Push None ∈ (status_event (Resp := Resp) st status listened).2).
  { intros st status listened Hpending Hreturns.
    destruct (decide (code status = OK)) as [Hok|Hnot].
    - rewrite (status_event_ok _ _ _ Hok). simpl. apply elem_of_cons. right.
      apply elem_of_replicate. split; [done|lia].
    - destruct Hreturns as [?| ->]; [done|].
      rewrite (status_event_not_ok _ _ Hnot). simpl. do 2 (apply elem_of_cons; right).
      apply elem_of_replicate. split; [done|lia]. }
  assert (Hunheard : ∀ (st : ReadableSetup) status, code status ≠ OK →
            (status_event (Resp := Resp) st status false).1 = st ∧
            Push None ∉ (status_event (Resp := Resp) st status false).2).
  { intros st status Hnot. rewrite (status_event_unheard _ _ Hnot). split; [done|].
    simpl. intros Hin.
    repeat (apply elem_of_cons in Hin as [Hin|Hin]; [discriminate|]).
    by apply elem_of_nil in Hin. }
  split; [|split; [|split; [|split; [|split; [|split; [|split]]]]]].
  - intros call deserialize inputs this. split.
    + intros Hnone Hnonull.
      eapply run_before_status with (view := Some) (deserialize_of := ClientReadableStreamImpl.deserialize);
        try readable_class; [done| |].
      * intros i status listened Hin [= ->]. by apply (Hnone status listened).
      * intros i r Hin [= <-]. destruct i as [|data accepted| | | |]; try done.
        simpl. destruct (deserialize data) as [message|e] eqn:Hdata; [|done].
        by apply (Hnonull data accepted).
    + erewrite run_flag with (view := Some); try readable_class.
      split.
      * intros [?|(i & r & Hin & [= <-] & Hr)]; [done|].
        destruct i as [| | |status listened| |]; try done.
        exists status, listened. split; [done|]. by apply Hdelivered.
      * intros (status & listened & Hin & Hreturns). right.
        exists (CallStatus status listened), (CallStatus status listened).
        split; [done|]. split; [done|]. by apply Hdelivered.
  - intros this Hup. by rewrite readable_step_effects, on_end_effects, Hup.
  - intros this Hdown. split.
    { by rewrite readable_step_effects, on_end_effects, Hdown. }
    intros later status listened Hnone Hreturns.
    rewrite readable_step_effects, run_cons_state.
    set (this1 := (ClientReadableStreamImpl.step null this CallEnd).1).
    assert (ClientReadableStreamImpl.setup this1 =
            {| statusEmitted := false;
               pendingOnce := S (pendingOnce (ClientReadableStreamImpl.setup this)) |})
      as Hsetup1.
    { unfold this1. by rewrite readable_step_setup, on_end_setup, Hdown. }
    apply Hpushed; [|done].
    eapply run_keeps_pending with (view := Some); try readable_class.
    + by rewrite Hsetup1.
    + rewrite Hsetup1. simpl. lia.
    + intros i r Hin [= <-]. destruct i as [| | |st l| |]; try done.
      by destruct (Hnone st l).
  - intros this status Hnot after. subst after.
    rewrite readable_step_setup, readable_step_effects. by apply Hunheard.
  - intros call serialize deserialize inputs this. split.
    + intros Hnone Hnonull.
      eapply run_before_status with (view := readable_part)
        (deserialize_of := ClientDuplexStreamImpl.deserialize);
        try duplex_class; [done| |].
      * intros [r| |] status listened Hin [= ->]. by apply (Hnone status listened).
      * intros [i| |] r Hin [= <-]. destruct i as [|data accepted| | | |]; try done.
        simpl. destruct (deserialize data) as [message|e] eqn:Hdata; [|done].
        by apply (Hnonull data accepted).
    + erewrite run_flag with (view := readable_part); try duplex_class.
      split.
      * intros [?|([i| |] & r & Hin & [= <-] & Hr)]; [done|].
        destruct i as [| | |status listened| |]; try done.
        exists status, listened. split; [done|]. by apply Hdelivered.
      * intros (status & listened & Hin & Hreturns). right.
        exists (Readable (CallStatus status listened)), (CallStatus status listened).
        split; [done|]. split; [done|]. by apply Hdelivered.
  - intros this Hup. by rewrite duplex_step_effects, on_end_effects, Hup.
  - intros this Hdown. split.
    { by rewrite duplex_step_effects, on_end_effects, Hdown. }
    intros later status listened Hnone Hreturns.
    rewrite duplex_step_effects, run_cons_state.
    set (this1 := (ClientDuplexStreamImpl.step null Number this (Readable CallEnd)).1).
    assert (ClientDuplexStreamImpl.setup this1 =
            {| statusEmitted := false;
               pendingOnce := S (pendingOnce (ClientDuplexStreamImpl.setup this)) |})
      as Hsetup1.
    { unfold this1. by rewrite duplex_step_setup, on_end_setup, Hdown. }
    apply Hpushed; [|done].
    eapply run_keeps_pending with (view := readable_part); try duplex_class.
    + by rewrite Hsetup1.
    + rewrite Hsetup1. simpl. lia.
    + intros [i| |] r Hin [= <-]. destruct i as [| | |st l| |]; try done.
      by destruct (Hnone st l).
  - intros this status Hnot after. subst after.
    rewrite duplex_step_setup, duplex_step_effects. by apply Hunheard.
Qed.

(** An instance: before any 'status', an 'end' does not close the stream. *)
Lemma end_of_stream_after_status_witness :
  let this := (ClientReadableStreamImpl.constructor 4 Samples.decode).1 in
  let inputs := [CallMetadata Metadata_new; CallData [x01] true; CallEnd] in
  (∀ status listened, CallStatus status listened ∉ inputs) ∧
  (∀ data accepted message, CallData data accepted ∈ inputs →
     Samples.decode data = Normal message → Samples.null message = false) ∧
  Push None ∉ (run (ClientReadableStreamImpl.step Samples.null) this inputs).2.
Proof.
  intros this inputs.
  assert (∀ status listened, CallStatus status listened ∉ inputs) as Hnone.
  { intros status listened Hin.
    repeat (apply elem_of_cons in Hin as [Hin|Hin]; [discriminate|]).
    by apply elem_of_nil in Hin. }
  assert (∀ data accepted message, CallData data accepted ∈ inputs →
            Samples.decode data = Normal message → Samples.null message = false)
    as Hnonull.
  { intros data accepted message Hin.
    apply elem_of_cons in Hin as [Hin|Hin]; [discriminate|].
    apply elem_of_cons in Hin as [[= -> ->]|Hin]; [by intros [= <-]|].
    apply elem_of_cons in Hin as [Hin|Hin]; [discriminate|].
    by apply elem_of_nil in Hin. }
  split; [exact Hnone|]. split; [exact Hnonull|].
  exact (proj1 (proj1 (end_of_stream_after_status string Samples.Reply Samples.null
                         Samples.to_number)
                  4 Samples.decode inputs) Hnone Hnonull).
Defined.

(** C9: a readable or duplex stream pauses its call when it is constructed
    (the last thing the constructor does, so the call is paused afterwards
    whatever it was before); no listener or method other than [_read]
    resumes the call, and [_read] does; consequently, on a call that emits
    no 'data' while paused, every 'data' event comes after a [_read], and a
    run without [_read] pushes no message to the stream. *)
Theorem paused_until_read (Req Resp : Type) (null : Resp -> bool)
    (Number : string -> JsNumber) :
  (∀ (call : Call) (deserialize : Buffer -> completion Resp),
     let built := ClientReadableStreamImpl.constructor call deserialize in
     (∃ before, built.2 = before ++ [CallDo call pause]) ∧
     (∀ paused, foldl (paused_after call) paused built.2 = true)) ∧
  (∀ (this : ClientReadableStreamImpl.t Resp) (i : ReadableInput) (c : Call),
     CallDo c resume ∈ (ClientReadableStreamImpl.step null this i).2 →
     ∃ size, i = StreamRead size) ∧
  (∀ (this : ClientReadableStreamImpl.t Resp) (size : nat),
     (ClientReadableStreamImpl.step null this (StreamRead size)).2 =
       [CallDo (ClientReadableStreamImpl.call this) resume]) ∧
  (∀ (call : Call) (deserialize : Buffer -> completion Resp) (paused : bool)
     (inputs : list ReadableInput) result,
     let built := ClientReadableStreamImpl.constructor call deserialize in
     run_on_call (ClientReadableStreamImpl.step null) readable_is_data call
       (foldl (paused_after call) paused built.2) built.1 inputs = Some result →
     (∀ before data accepted after,
        inputs = before ++ CallData data accepted :: after →
        ∃ size, StreamRead size ∈ before) ∧
     ((∀ size, StreamRead size ∉ inputs) →
      ∀ message, Push (Some message) ∉ result.2)) ∧
  (∀ (call : Call) (serialize : Req -> completion Buffer)
     (deserialize : Buffer -> completion Resp),
     let built := ClientDuplexStreamImpl.constructor call serialize deserialize in
     (∃ before, built.2 = before ++ [CallDo call pause]) ∧
     (∀ paused, foldl (paused_after call) paused built.2 = true)) ∧
  (∀ (this : ClientDuplexStreamImpl.t Req Resp) (i : DuplexInput Req) (c : Call),
     CallDo c resume ∈ (ClientDuplexStreamImpl.step null Number this i).2 →
     ∃ size, i = Readable (StreamRead size)) ∧
  (∀ (this : ClientDuplexStreamImpl.t Req Resp) (size : nat),
     (ClientDuplexStreamImpl.step null Number this (Readable (StreamRead size))).2 =
       [CallDo (ClientDuplexStreamImpl.call this) resume]) ∧
  (∀ (call : Call) (serialize : Req -> completion Buffer)
     (deserialize : Buffer -> completion Resp) (paused : bool)
     (inputs : list (DuplexInput Req)) result,
     let built := ClientDuplexStreamImpl.constructor call serialize deserialize in
     run_on_call (ClientDuplexStreamImpl.step null Number) duplex_is_data call
       (foldl (paused_after call) paused built.2) built.1 inputs = Some result →
     (∀ before data accepted after,
        inputs = before ++ Readable (CallData data accepted) :: after →
        ∃ size, Readable (StreamRead size) ∈ before) ∧
     ((∀ size, Readable (StreamRead size) ∉ inputs) →
      ∀ message, Push (Some message) ∉ result.2)).
Proof.
  assert (∀ (call : Call) (paused : bool),
            foldl (paused_after (Resp := Resp) call) paused
              [CallDo call (on ev_metadata); CallDo call (on ev_data);
               CallDo call (on ev_end); CallDo call (on ev_status);
               CallDo call pause] = true) as Hpaused.
  { intros call paused. simpl. by destruct (decide (call = call)). }
  split; [|split; [|split; [|split; [|split; [|split; [|split]]]]]].
  - intros call deserialize built. split; [|apply Hpaused].
    by exists [CallDo call (on ev_metadata); CallDo call (on ev_data);
               CallDo call (on ev_end); CallDo call (on ev_status)].
  - intros this i c Hin.
    eapply step_effect_kinds with (view := Some) (is_data := readable_is_data) in Hin;
      try readable_class.
    destruct Hin
      as [(? & _ & ?)|[(? & ? & ? & _ & _ & ?)|[(_ & ?)|[(_ & _ & ?)|[(_ & _ & ?)|
          [(st & l & _ & Hin)|[((size & [= ->]) & _)|[(? & ? & ?)|[(? & ? & ?)|
          [?|(? & ? & ?)]]]]]]]]]];
      try discriminate.
    + apply status_event_effects in Hin as [[_ ?]|[?|[[_ ?]|(_ & _ & ?)]]]; discriminate.
    + by exists size.
  - intros this size. by rewrite readable_step_effects.
  - intros call deserialize paused inputs result built Hrun.
    assert (built.2 = [CallDo call (on ev_metadata); CallDo call (on ev_data);
                       CallDo call (on ev_end); CallDo call (on ev_status);
                       CallDo call pause]) as Hbuilt by done.
    assert (ClientReadableStreamImpl.call built.1 = call) as Hcall by done.
    rewrite Hbuilt, Hpaused in Hrun.
    assert (∀ before data accepted after,
              inputs = before ++ CallData data accepted :: after →
              ∃ size, StreamRead size ∈ before) as Hafter.
    { intros before data accepted after Hsplit.
      eapply run_on_call_data_after_read
        with (view := Some) (before := before) (i := CallData data accepted)
        in Hrun as (j & size & Hj & [= ->]);
        try readable_class; try done; [by exists size|by eexists _, _]. }
    split; [done|]. intros Hnoread message Hin.
    apply run_on_call_run in Hrun as ->.
    eapply run_push_data with (view := Some) (is_data := readable_is_data) in Hin
      as (i & Hi & Hdata); try readable_class.
    destruct i as [|data accepted| | | |]; try discriminate.
    apply list_elem_of_split in Hi as (before & after & ->).
    destruct (Hafter before data accepted after eq_refl) as [size Hsize].
    apply (Hnoread size), elem_of_app. by left.
  - intros call serialize deserialize built. split; [|apply Hpaused].
    by exists [CallDo call (on ev_metadata); CallDo call (on ev_data);
               CallDo call (on ev_end); CallDo call (on ev_status)].
  - intros this i c Hin.
    eapply step_effect_kinds with (view := readable_part) (is_data := duplex_is_data) in Hin;
      try duplex_class.
    destruct Hin
      as [(? & _ & ?)|[(? & ? & ? & _ & _ & ?)|[(_ & ?)|[(_ & _ & ?)|[(_ & _ & ?)|
          [(st & l & _ & Hin)|[((size & Hsize) & _)|[(? & ? & ?)|[(? & ? & ?)|
          [?|(? & ? & ?)]]]]]]]]]];
      try discriminate.
    + apply status_event_effects in Hin as [[_ ?]|[?|[[_ ?]|(_ & _ & ?)]]]; discriminate.
    + exists size. destruct i as [r| |]; by simplify_eq/=.
  - intros this size. by rewrite duplex_step_effects.
  - intros call serialize deserialize paused inputs result built Hrun.
    assert (built.2 = [CallDo call (on ev_metadata); CallDo call (on ev_data);
                       CallDo call (on ev_end); CallDo call (on ev_status);
                       CallDo call pause]) as Hbuilt by done.
    assert (ClientDuplexStreamImpl.call built.1 = call) as Hcall by done.
    rewrite Hbuilt, Hpaused in Hrun.
    assert (∀ before data accepted after,
              inputs = before ++ Readable (CallData data accepted) :: after →
              ∃ size, Readable (StreamRead size) ∈ before) as Hafter.
    { intros before data accepted after Hsplit.
      eapply run_on_call_data_after_read
        with (view := readable_part) (before := before)
             (i := Readable (CallData data accepted))
        in Hrun as (j & size & Hj & Hview);
        try duplex_class; try done; [|by eexists _, _].
      exists size. destruct j as [r| |]; by simplify_eq/=. }
    split; [done|]. intros Hnoread message Hin.
    apply run_on_call_run in Hrun as ->.
    eapply run_push_data with (view := readable_part) (is_data := duplex_is_data) in Hin
      as (i & Hi & Hdata); try duplex_class.
    destruct i as [[|data accepted| | | |]| |]; try discriminate.
    apply list_elem_of_split in Hi as (before & after & ->).
    destruct (Hafter before data accepted after eq_refl) as [size Hsize].
    apply (Hnoread size), elem_of_app. by left.
Qed.

(** An instance: a message that arrives after the first [_read]. *)
Lemma paused_until_read_witness :
  let built := ClientReadableStreamImpl.constructor 4 Samples.decode in
  let inputs := [CallMetadata Metadata_new; StreamRead 16; CallData [x01] true] in
  run_on_call (ClientReadableStreamImpl.step Samples.null) readable_is_data 4
    (foldl (paused_after 4) false built.2) built.1 inputs =
    Some (built.1, [Emit (emit_metadata Metadata_new); CallDo 4 resume;
                    Push (Some (Samples.reply_text "pong"))]) ∧
  ∃ size, StreamRead size ∈ [CallMetadata Metadata_new; StreamRead 16].
Proof.
  intros built inputs.
  assert (run_on_call (ClientReadableStreamImpl.step Samples.null) readable_is_data 4
            (foldl (paused_after 4) false built.2) built.1 inputs =
          Some (built.1, [Emit (emit_metadata Metadata_new); CallDo 4 resume;
                          Push (Some (Samples.reply_text "pong"))])) as Hrun
    by reflexivity.
  split; [exact Hrun|].
  exact (proj1 (proj1 (proj2 (proj2 (proj2
           (paused_until_read string Samples.Reply Samples.null Samples.to_number))))
           4 Samples.decode false inputs _ Hrun)
           [CallMetadata Metadata_new; StreamRead 16] [x01] true [] eq_refl).
Defined.

End CallSurfaceProps.

(** ** client.ts *)

Module ClientProps.
Import CallSurface Client.

(** *** The unary response handler *)
Section UnaryHandler.
Context {Resp : Type} (nullish : Resp -> bool).
Implicit Types (h : Handler Resp) (responseMessage : option Resp).

Lemma handle_effects h (ev : CallEvent) :
  (handle nullish h ev).2 =
    match ev with
    | EvMetadata _ => []
    | EvData data => (on_data nullish (call h) (deserialize h) (responseMessage h) data).2
    | EvEnd => (on_end nullish (call h) (responseMessage h)).2
    | EvStatus status => (on_status (callback h) (responseMessage h) status).2
    end.
Proof. unfold handle. rewrite CallSurfaceProps.pair_snd_let. by destruct ev. Qed.

Lemma handle_handler h (ev : CallEvent) :
  (handle nullish h ev).1 =
    {| call := call h; deserialize := deserialize h; callback := callback h;
       responseMessage :=
         match ev with
         | EvData data =>
             (on_data nullish (call h) (deserialize h) (responseMessage h) data).1
         | _ => responseMessage h
         end |}.
Proof. unfold handle. rewrite CallSurfaceProps.pair_fst_let. by destruct ev. Qed.

Lemma handle_pair h (ev : CallEvent) :
  handle nullish h ev = ((handle nullish h ev).1, (handle nullish h ev).2).
Proof. by destruct (handle nullish h ev). Qed.

(** No 'data' event leaves the variable at its initial [null]. *)
Lemma no_data_no_response h (events : list CallEvent) :
  (∀ data, EvData data ∉ events) →
  responseMessage (run (handle nullish) h events).1 = responseMessage h.
Proof.
  revert h. induction events as [|ev rest IH]; intros h Hnone; [done|].
  rewrite CallSurfaceProps.run_cons_state, IH.
  - rewrite handle_handler. destruct ev as [metadata|data| |status]; try done.
    destruct (Hnone data). apply elem_of_cons. by left.
  - intros data Hin. apply (Hnone data), elem_of_cons. by right.
Qed.

(** 'end' with nothing recorded: not enough responses. *)
Lemma end_without_response h :
  is_null nullish (responseMessage h) = true →
  handle nullish h EvEnd =
    (h, [CallDo (call h) (cancelWithStatus INTERNAL "Not enough responses received")]).
Proof.
  intros Hnull. rewrite handle_pair, handle_handler, handle_effects.
  unfold on_end. cbn [snd]. rewrite Hnull. by destruct h.
Qed.

(** 'data' with a response recorded that is not [null]: too many. *)
Lemma data_after_response h (data : Buffer) :
  is_null nullish (responseMessage h) = false →
  ∃ effects,
    (handle nullish h (EvData data)).2 =
      CallDo (call h) (cancelWithStatus INTERNAL "Too many responses received") :: effects.
Proof.
  intros Hnull. rewrite handle_effects. unfold on_data. rewrite Hnull.
  destruct (deserialize h data); simpl; eauto.
Qed.

(** 'data' with nothing recorded, or with [null] recorded: too many
    responses are not reported. *)
Lemma data_without_response h (data : Buffer) (text : string) :
  is_null nullish (responseMessage h) = true →
  text ≠ "Failed to parse server response" →
  CallDo (call h) (cancelWithStatus INTERNAL text) ∉ (handle nullish h (EvData data)).2.
Proof.
  intros Hnull Htext. rewrite handle_effects. unfold on_data. rewrite Hnull.
  destruct (deserialize h data); simpl.
  - apply not_elem_of_nil.
  - intros Hin. apply list_elem_of_singleton in Hin. congruence.
Qed.

(** 'status' with code OK: the callback gets no error and the variable. *)
Lemma status_ok_callback h (status : StatusObject) :
  code status = OK →
  handle nullish h (EvStatus status) =
    (h, [InvokeUnaryCb (callback h) None (responseMessage h)]).
Proof.
  intros Hok. rewrite handle_pair, handle_handler, handle_effects.
  unfold on_status. cbn [snd]. destruct (decide (code status = OK)); [|done].
  by destruct h.
Qed.

(** 'status' with another code: the callback gets the error made from it. *)
Lemma status_error_callback h (status : StatusObject) :
  code status ≠ OK →
  handle nullish h (EvStatus status) =
    (h, [InvokeUnaryCb (callback h) (Some (ServiceError_of status)) None]).
Proof.
  intros Hnot. rewrite handle_pair, handle_handler, handle_effects.
  unfold on_status. cbn [snd]. destruct (decide (code status = OK)); [done|].
  by destruct h.
Qed.

(** A message that does not parse: the variable stays, the call is
    cancelled last. *)
Lemma data_not_parsed h (data : Buffer) (e : Thrown) :
  deserialize h data = Throw e →
  handle nullish h (EvData data) =
    (h, (if is_null nullish (responseMessage h) then []
         else [CallDo (call h) (cancelWithStatus INTERNAL "Too many responses received")])
        ++ [CallDo (call h) (cancelWithStatus INTERNAL "Failed to parse server response")]).
Proof.
  intros Hthrow. rewrite handle_pair, handle_handler, handle_effects.
  unfold on_data. rewrite Hthrow. cbn [fst snd].
  destruct (is_null nullish (responseMessage h)); by destruct h.
Qed.

End UnaryHandler.

(** The call, the deserializer and the callback of a handler stay. *)
Lemma run_handler_fixed {Resp : Type} (nullish : Resp -> bool) (h : Handler Resp)
    (events : list CallEvent) :
  call (run (handle nullish) h events).1 = call h ∧
  deserialize (run (handle nullish) h events).1 = deserialize h ∧
  callback (run (handle nullish) h events).1 = callback h.
Proof.
  revert h. induction events as [|ev rest IH]; intros h; [done|].
  rewrite CallSurfaceProps.run_cons_state.
  destruct (IH (handle nullish h ev).1) as (-> & -> & ->).
  by rewrite handle_handler.
Qed.

(** C1: the handler does not do what the claim says, and what its own
    message 'Too many responses received' is there for, when the first
    message deserializes to [null].  The call emits metadata, two 'data'
    events, end, and status OK, and the handler cancels nothing after the
    first 'data' event, so that the call may go on to the second.  The
    variable [responseMessage] is still null when the second 'data' event
    comes: the handler does not cancel the call with 'Too many responses
    received', it cancels nothing at all in the whole run, and the
    callback gets the second message as the response. *)
Lemma second_response_undetected :
  let h := (handleUnaryResponse 3 Samples.decode 9).1 in
  let before := [EvMetadata Metadata_new; EvData []] in
  let events := before ++ (EvData [x01] :: [EvEnd; EvStatus Samples.ok_status]) in
  in_call_order events ∧
  Samples.decode [] = Normal Samples.reply_null ∧
  (run (handle Samples.nullish) h before).2 = [] ∧
  (handle Samples.nullish (run (handle Samples.nullish) h before).1 (EvData [x01])).2 = [] ∧
  (CallDo 3 (cancelWithStatus INTERNAL "Too many responses received") ∉
     (run (handle (Resp := Samples.Reply) Samples.nullish) h events).2) ∧
  (run (handle Samples.nullish) h events).2 =
    [InvokeUnaryCb 9 None (Some (Samples.reply_text "pong"))].
Proof.
  intros h before events. split; [|split; [|split; [|split; [|split]]]].
  - by exists Metadata_new, [[]; [x01]], Samples.ok_status.
  - reflexivity.
  - reflexivity.
  - reflexivity.
  - intros Hin. apply list_elem_of_singleton in Hin. discriminate.
  - reflexivity.
Qed.

(** What the handler does do of C1, for a unary or client-stream call
    whose call emits metadata, then data events, then end, then status:
    (i) if no 'data' event has come when 'end' comes, the handler cancels
    the call with INTERNAL and 'Not enough responses received'; (ii) a
    'data' event makes it cancel the call with INTERNAL and 'Too many
    responses received' when the response recorded is neither null nor
    undefined, as it is on the second 'data' event after a first message
    that was deserialized to such a value; (iii) on a status with code OK
    the callback is invoked with a null error and the recorded response,
    which after a single message that was deserialized is that message. *)
Lemma unary_response_contract (Resp : Type) (nullish : Resp -> bool)
    (call : Call) (deserialize : Buffer -> completion Resp) (callback : Callback) :
  let h0 := (handleUnaryResponse call deserialize callback).1 in
  (∀ before : list CallEvent,
     (∀ data, EvData data ∉ before) →
     (handle nullish (run (handle nullish) h0 before).1 EvEnd).2 =
       [CallDo call (cancelWithStatus INTERNAL "Not enough responses received")]) ∧
  (∀ (h : Handler Resp) (data : Buffer),
     is_null nullish (responseMessage h) = false →
     ∃ effects,
       (handle nullish h (EvData data)).2 =
         CallDo (Client.call h) (cancelWithStatus INTERNAL "Too many responses received")
           :: effects) ∧
  (∀ (metadata : Metadata) (first second : Buffer) (message : Resp),
     deserialize first = Normal message → nullish message = false →
     ∃ effects,
       (handle nullish (run (handle nullish) h0 [EvMetadata metadata; EvData first]).1
          (EvData second)).2 =
         CallDo call (cancelWithStatus INTERNAL "Too many responses received") :: effects) ∧
  (∀ (h : Handler Resp) (status : StatusObject),
     code status = OK →
     (handle nullish h (EvStatus status)).2 =
       [InvokeUnaryCb (Client.callback h) None (responseMessage h)]) ∧
  (∀ (metadata : Metadata) (data : Buffer) (message : Resp) (status : StatusObject)
     (before : list CallEvent),
     deserialize data = Normal message → code status = OK →
     before = [EvMetadata metadata; EvData data; EvEnd] →
     (handle nullish (run (handle nullish) h0 before).1 (EvStatus status)).2 =
       [InvokeUnaryCb callback None (Some message)]).
Proof.
  intros h0. split; [|split; [|split; [|split]]].
  - intros before Hnone.
    pose proof (no_data_no_response nullish h0 before Hnone) as Hresponse.
    destruct (run_handler_fixed nullish h0 before) as (Hcall & _ & _).
    rewrite end_without_response; [by rewrite Hcall|]. by rewrite Hresponse.
  - intros h data Hnull. by apply data_after_response.
  - intros metadata first second message Hfirst Hmessage.
    replace call
      with (Client.call (run (handle nullish) h0 [EvMetadata metadata; EvData first]).1)
      by apply run_handler_fixed.
    apply data_after_response.
    rewrite 2!CallSurfaceProps.run_cons_state. cbn [run fst].
    rewrite !handle_handler. cbn -[is_null]. unfold on_data. by rewrite Hfirst.
  - intros h status Hok. by rewrite status_ok_callback.
  - intros metadata data message status before Hdata Hok ->.
    rewrite status_ok_callback by done.
    rewrite 3!CallSurfaceProps.run_cons_state. cbn [run fst].
    rewrite !handle_handler. cbn -[is_null]. unfold on_data. by rewrite Hdata.
Qed.

(** An instance: two messages, the first of which is recorded. *)
Lemma unary_response_contract_witness :
  let h0 := (handleUnaryResponse 3 Samples.decode 9).1 in
  Samples.decode [x01] = Normal (Samples.reply_text "pong") ∧
  Samples.nullish (Samples.reply_text "pong") = false ∧
  ∃ effects,
    (handle Samples.nullish
       (run (handle Samples.nullish) h0 [EvMetadata Metadata_new; EvData [x01]]).1
       (EvData [x02])).2 =
      CallDo 3 (cancelWithStatus INTERNAL "Too many responses received") :: effects.
Proof.
  intros h0. split; [reflexivity|]. split; [reflexivity|].
  exact (proj1 (proj2 (proj2
           (unary_response_contract Samples.Reply Samples.nullish 3 Samples.decode 9)))
           Metadata_new [x01] [x02] (Samples.reply_text "pong") eq_refl eq_refl).
Defined.

(** C5: on each receive path, a message whose deserialization throws makes
    the code cancel the call with INTERNAL and 'Failed to parse server
    response'.  A readable or duplex stream does nothing else on that
    event: the message is not pushed and the state is unchanged.  The unary
    response handler keeps its recorded response as it was, pushes nothing,
    and the cancellation is the last thing it does on that event. *)
Theorem deserialization_failure (Req Resp : Type) (null : Resp -> bool)
    (Number : string -> JsNumber)
    (nullish : Resp -> bool) (data : Buffer) (e : Thrown) :
  (∀ (this : ClientReadableStreamImpl.t Resp) (accepted : bool),
     ClientReadableStreamImpl.deserialize this data = Throw e →
     ClientReadableStreamImpl.step null this (CallData data accepted) =
       (this, [CallDo (ClientReadableStreamImpl.call this)
                      (cancelWithStatus INTERNAL "Failed to parse server response")])) ∧
  (∀ (this : ClientDuplexStreamImpl.t Req Resp) (accepted : bool),
     ClientDuplexStreamImpl.deserialize this data = Throw e →
     ClientDuplexStreamImpl.step null Number this (Readable (CallData data accepted)) =
       (this, [CallDo (ClientDuplexStreamImpl.call this)
                      (cancelWithStatus INTERNAL "Failed to parse server response")])) ∧
  (∀ h : Handler Resp,
     deserialize h data = Throw e →
     ∃ effects,
       handle nullish h (EvData data) = (h, effects) ∧
       last effects =
         Some (CallDo (call h) (cancelWithStatus INTERNAL "Failed to parse server response")) ∧
       ∀ chunk, Push chunk ∉ effects).
Proof.
  split; [|split].
  - intros this accepted Hthrow. simpl.
    rewrite (CallSurfaceProps.on_data_throw _ _ _ _ _ _ _ Hthrow). by destruct this.
  - intros this accepted Hthrow. simpl.
    rewrite (CallSurfaceProps.on_data_throw _ _ _ _ _ _ _ Hthrow). by destruct this.
  - intros h Hthrow. rewrite (data_not_parsed nullish h data e Hthrow).
    eexists. split; [done|].
    destruct (is_null nullish (responseMessage h)); simpl; split; try done;
      intros chunk Hin;
      repeat (apply elem_of_cons in Hin as [Hin|Hin]; [discriminate|]);
      by apply elem_of_nil in Hin.
Qed.

(** An instance: a buffer the sample deserializer does not parse. *)
Lemma deserialization_failure_witness :
  let this := (ClientReadableStreamImpl.constructor 4 Samples.decode).1 in
  ClientReadableStreamImpl.deserialize this [x00] = Throw (JsError "unexpected tag") ∧
  ClientReadableStreamImpl.step Samples.null this (CallData [x00] true) =
    (this, [CallDo 4 (cancelWithStatus INTERNAL "Failed to parse server response")]).
Proof.
  intros this. split; [reflexivity|].
  apply (proj1 (deserialization_failure string Samples.Reply Samples.null Samples.to_number
                  Samples.nullish [x00] (JsError "unexpected tag")) this true).
  reflexivity.
Defined.

(** *** Argument resolution *)

(** With options in the first place and no second argument, the server
    stream and bidi requests use the options given, where the rule of the
    spec has them use empty options. *)
Lemma options_in_first_place :
  let options := {| deadline := None; host := Some "example.org"; parent := None;
                    propagate_flags := None; credentials := None |} in
  MetadataAndOptions.options (checkMetadataAndOptions (Some (an_options options)) None)
    = options ∧
  MetadataAndOptions.options (spec_resolution (Some (an_options options)) None)
    = no_options ∧
  checkMetadataAndOptions (Some (an_options options)) None ≠
    spec_resolution (Some (an_options options)) None ∧
  (Resolved.options <$>
     checkOptionalUnaryResponseArguments (value (an_options options))
       (Some (function 5)) None) = Normal options ∧
  MetadataAndOptions.options
    (spec_resolution (first_optional (value (an_options options)))
       (second_optional (Some (function 5)))) = no_options.
Proof. repeat split. discriminate. Qed.

Lemma unary_arguments_throw (arg1 : OrCallback MetadataOrOptions)
    (arg2 : option (OrCallback CallOptions)) (arg3 : option Callback) (e : Thrown) :
  checkOptionalUnaryResponseArguments arg1 arg2 arg3 = Throw e →
  e = JsError "Incorrect arguments passed".
Proof.
  destruct arg1 as [[m|o]|cb]; destruct arg2 as [[o2|cb2]|]; destruct arg3 as [cb3|];
    simpl; congruence.
Qed.

Section Requests.
Context {Channel Req Resp : Type} (Number : string -> JsNumber).
Implicit Types (this : Client.t Channel) (w : World Channel Resp).

Lemma create_call_with_trace this (method : string) (options : CallOptions) w :
  ∃ w1,
    create_call_with this method options w = (Normal (next_call w), w1) ∧
    ∃ rest,
      trace w1 =
        trace w ++ CreateCall (kChannel this) method (deadline options) (host options)
                     (parent options) (propagate_flags options) :: rest.
Proof.
  unfold create_call_with, bind, createCall, perform, ret.
  destruct (credentials options) as [c|]; simpl; eexists; (split; [done|]); simpl.
  - rewrite <- app_assoc. by eexists.
  - by eexists.
Qed.

(** The trace only grows. *)
Lemma bind_trace {A B : Type} (m : M A) (k : A → M (Channel := Channel) (Resp := Resp) B) w a w1 :
  m w = (Normal a, w1) → bind m k w = k a w1.
Proof. intros Hm. unfold bind. by rewrite Hm. Qed.

(** A server-stream or bidi request has no failure path before the call
    is created: whatever its optional arguments, it creates the call with
    the options resolved from them. *)
Lemma server_stream_request_creates_call this (method : string)
    (serialize : Req -> completion Buffer) (deserialize : Buffer -> completion Resp)
    (argument : Req) (arg1 : option MetadataOrOptions) (arg2 : option CallOptions) w :
  let options := MetadataAndOptions.options (checkMetadataAndOptions arg1 arg2) in
  ∃ rest,
    trace (makeServerStreamRequest this method serialize deserialize argument
             arg1 arg2 w).2 =
      trace w ++ CreateCall (kChannel this) method (deadline options) (host options)
                   (parent options) (propagate_flags options) :: rest.
Proof.
  intros options.
  destruct (create_call_with_trace this method options w) as (w1 & Hcall & rest & Hrest).
  unfold makeServerStreamRequest. fold options.
  rewrite (bind_trace _ _ _ _ _ Hcall).
  unfold bind, evaluate, perform, construct, ret, bind.
  destruct (serialize argument) as [message|e0]; simpl.
  - rewrite Hrest, <- !app_assoc. simpl. by eexists.
  - rewrite Hrest. by eexists.
Qed.

Lemma bidi_request_creates_call this (method : string)
    (serialize : Req -> completion Buffer) (deserialize : Buffer -> completion Resp)
    (arg1 : option MetadataOrOptions) (arg2 : option CallOptions) w :
  let options := MetadataAndOptions.options (checkMetadataAndOptions arg1 arg2) in
  ∃ rest,
    trace (makeBidiStreamRequest this method serialize deserialize arg1 arg2 w).2 =
      trace w ++ CreateCall (kChannel this) method (deadline options) (host options)
                   (parent options) (propagate_flags options) :: rest.
Proof.
  intros options.
  destruct (create_call_with_trace this method options w) as (w1 & Hcall & rest & Hrest).
  unfold makeBidiStreamRequest. fold options.
  rewrite (bind_trace _ _ _ _ _ Hcall).
  unfold bind, evaluate, perform, construct, ret, bind. simpl.
  rewrite Hrest, <- !app_assoc. simpl. by eexists.
Qed.

End Requests.

(** C2, amended: the optional arguments are resolved by their types.
    (a) The metadata is the first optional argument when that is a
    Metadata, and a new empty Metadata otherwise.  (b) The options are:
    the second optional argument, or empty options when there is none, if
    the first optional argument is a Metadata; the first optional argument
    itself if it is there and is not a Metadata; empty options if there is
    no optional argument.  (c) A unary or client-stream request fails
    exactly when neither of its first two arguments is a function and the
    arguments are not (Metadata, options, callback); every call shape the
    overloads declare is accepted; the failure is an Error with message
    'Incorrect arguments passed', thrown before anything is done: no call
    is created. *)
Theorem argument_resolution (Channel Req Resp : Type) :
  (∀ (arg1 : option MetadataOrOptions) (arg2 : option CallOptions),
     MetadataAndOptions.metadata (checkMetadataAndOptions arg1 arg2) =
       match arg1 with
       | Some (a_metadata metadata) => metadata
       | _ => Metadata_new
       end ∧
     MetadataAndOptions.options (checkMetadataAndOptions arg1 arg2) =
       match arg1 with
       | Some (a_metadata _) => default no_options arg2
       | Some (an_options options) => options
       | None => no_options
       end) ∧
  (∀ arg1 arg2 arg3 (r : Resolved.t),
     checkOptionalUnaryResponseArguments arg1 arg2 arg3 = Normal r →
     Resolved.metadata r =
       match first_optional arg1 with
       | Some (a_metadata metadata) => metadata
       | _ => Metadata_new
       end ∧
     Resolved.options r =
       match first_optional arg1 with
       | Some (a_metadata _) => default no_options (second_optional arg2)
       | Some (an_options options) => options
       | None => no_options
       end) ∧
  (∀ arg1 arg2 arg3,
     ((∃ e, checkOptionalUnaryResponseArguments arg1 arg2 arg3 = Throw e) ↔
      (∃ first, arg1 = value first) ∧ (∀ cb, arg2 ≠ Some (function cb)) ∧
      ¬ (∃ metadata options cb,
           arg1 = value (a_metadata metadata) ∧ arg2 = Some (value options) ∧
           arg3 = Some cb)) ∧
     (recognized_arity arg1 arg2 arg3 = true →
      ∃ r, checkOptionalUnaryResponseArguments arg1 arg2 arg3 = Normal r)) ∧
  (∀ (this : Client.t Channel) (method : string)
     (serialize : Req -> completion Buffer) (deserialize : Buffer -> completion Resp)
     (argument : Req) arg1 arg2 arg3 (e : Thrown) (w : World Channel Resp),
     checkOptionalUnaryResponseArguments arg1 arg2 arg3 = Throw e →
     e = JsError "Incorrect arguments passed" ∧
     makeUnaryRequest this method serialize deserialize argument arg1 arg2 arg3 w
       = (Throw e, w) ∧
     makeClientStreamRequest this method serialize deserialize arg1 arg2 arg3 w
       = (Throw e, w)).
Proof.
  split; [|split; [|split]].
  - intros [[m|o]|] [o2|]; by split.
  - intros [[m|o]|cb] [[o2|cb2]|] [cb3|] r Hr; simplify_eq/=; by split.
  - intros arg1 arg2 arg3. split; [split|].
    + intros [e He]. destruct arg1 as [[m|o]|cb]; destruct arg2 as [[o2|cb2]|];
        destruct arg3 as [cb3|]; simplify_eq/=;
        (split; [by eexists|]; split; [by intros ?|]);
        by intros (? & ? & ? & ? & ? & ?).
    + intros ([first ->] & Hnofun & Hshape).
      destruct first as [m|o]; destruct arg2 as [[o2|cb2]|]; destruct arg3 as [cb3|];
        simpl; try (by eexists);
        try (by destruct (Hnofun cb2)).
      destruct Hshape. by exists m, o2, cb3.
    + destruct arg1 as [[m|o]|cb]; destruct arg2 as [[o2|cb2]|]; destruct arg3 as [cb3|];
        simpl; try done; by eexists.
  - intros this method serialize deserialize argument arg1 arg2 arg3 e w Hthrow.
    split; [by eapply unary_arguments_throw|].
    unfold makeUnaryRequest, makeClientStreamRequest, bind, evaluate.
    by rewrite Hthrow.
Qed.

(** An instance: two options objects before the callback are rejected, and
    nothing is done. *)
Lemma argument_resolution_witness :
  let this := {| kChannel := "channel" |} in
  let w := world_at (Channel := string) (Resp := Samples.Reply) 0 in
  checkOptionalUnaryResponseArguments (value (an_options no_options))
    (Some (value no_options)) (Some 9) = Throw (JsError "Incorrect arguments passed") ∧
  makeUnaryRequest this "/svc/M" Samples.encode Samples.decode "ping"
    (value (an_options no_options)) (Some (value no_options)) (Some 9) w
    = (Throw (JsError "Incorrect arguments passed"), w).
Proof.
  intros this w.
  assert (checkOptionalUnaryResponseArguments (value (an_options no_options))
            (Some (value no_options)) (Some 9) =
          Throw (JsError "Incorrect arguments passed")) as Hthrow by reflexivity.
  split; [exact Hthrow|].
  exact (proj1 (proj2 (proj2 (proj2 (proj2
           (argument_resolution string string Samples.Reply)))
           this "/svc/M" Samples.encode Samples.decode "ping" _ _ _ _ w Hthrow))).
Defined.

(** *** The constructor *)

(** C10: the constructor chooses the channel by precedence.  With
    [channelOverride] present the channel is that one and nothing is called
    or constructed; otherwise, with [channelFactoryOverride] present, the
    channel is what the factory returns for (address, credentials,
    options), and the factory is called once; otherwise the channel is a
    new Http2Channel for the same three arguments.  In every case exactly
    one channel is stored, at most one of the two is called or constructed,
    [getChannel()] returns the stored channel, [close()] acts on it, and
    the requests create their calls on it. *)
Theorem channel_precedence (Channel ChannelCredentials ChannelOptions Req Resp : Type)
    (call_factory : ChannelFactory -> string -> ChannelCredentials ->
                    ClientOptions Channel ChannelOptions -> Channel)
    (Http2Channel : string -> ChannelCredentials ->
                    ClientOptions Channel ChannelOptions -> Channel)
    (default_options : ClientOptions Channel ChannelOptions)
    (address : string) (credentials : ChannelCredentials)
    (given : option (ClientOptions Channel ChannelOptions)) :
  let options := default default_options given in
  let built := constructor call_factory Http2Channel default_options address credentials given in
  (∀ channel, channelOverride options = Some channel →
     built = ({| kChannel := channel |}, [])) ∧
  (∀ factory, channelOverride options = None →
     channelFactoryOverride options = Some factory →
     built = ({| kChannel := call_factory factory address credentials options |},
              [FactoryCalled factory address credentials options])) ∧
  (channelOverride options = None → channelFactoryOverride options = None →
     built = ({| kChannel := Http2Channel address credentials options |},
              [Http2ChannelConstructed address credentials options])) ∧
  (length built.2 ≤ 1)%nat ∧
  getChannel built.1 = kChannel built.1 ∧
  close (ChannelCredentials := ChannelCredentials) (ChannelOptions := ChannelOptions) built.1
    = [ChannelClosed (getChannel built.1)] ∧
  (∀ (method : string) (serialize : Req -> completion Buffer)
     (deserialize : Buffer -> completion Resp) arg1 arg2 (w : World Channel Resp),
     ∃ deadline host parent propagate_flags rest,
       trace (makeBidiStreamRequest built.1 method serialize deserialize arg1 arg2 w).2 =
         trace w ++ CreateCall (getChannel built.1) method deadline host parent
                      propagate_flags :: rest).
Proof.
  intros options built.
  assert (∀ (method : string) (serialize : Req -> completion Buffer)
            (deserialize : Buffer -> completion Resp) arg1 arg2 (w : World Channel Resp),
            ∃ deadline host parent propagate_flags rest,
              trace (makeBidiStreamRequest built.1 method serialize deserialize
                       arg1 arg2 w).2 =
                trace w ++ CreateCall (getChannel built.1) method deadline host parent
                             propagate_flags :: rest) as Hrequests.
  { intros method serialize deserialize arg1 arg2 w.
    destruct (bidi_request_creates_call built.1 method serialize deserialize arg1 arg2 w)
      as [rest Hrest].
    by eexists _, _, _, _, rest. }
  revert Hrequests. unfold built, constructor.
  change (match given with Some o => o | None => default_options end) with options.
  destruct (channelOverride options) as [channel|];
    [|destruct (channelFactoryOverride options) as [factory|]];
    intros Hrequests; repeat split; simpl; try congruence; try lia; try done.
Qed.

(** An instance: an override wins over a factory. *)
Lemma channel_precedence_witness :
  let options := {| channelOptions := tt; channelOverride := Some "given";
                    channelFactoryOverride := Some 1 |} in
  constructor (λ _ _ _ _, "made") (λ _ _ _, "http2")
    {| channelOptions := tt; channelOverride := None; channelFactoryOverride := None |}
    "localhost:50051" tt (Some options)
  = ({| kChannel := "given" |}, []).
Proof.
  intros options.
  exact (proj1 (channel_precedence string unit unit string Samples.Reply
                  (λ _ _ _ _, "made") (λ _ _ _, "http2")
                  {| channelOptions := tt; channelOverride := None;
                     channelFactoryOverride := None |}
                  "localhost:50051" tt (Some options)) "given" eq_refl).
Defined.

End ClientProps.

(** ** The base filter *)

Module FilterProps.
Import Promises BaseFilter.

Section Engine.
Context {V : Type}.
Implicit Types (rt : Runtime V) (p q r x : Promise) (o : Outcome V).

Lemma sum_list_with_insert {A : Type} (f : A -> nat) (l : list A) (i : nat) (a b : A) :
  l !! i = Some a →
  sum_list_with f (<[i := b]> l) + f a = sum_list_with f l + f b.
Proof.
  revert i. induction l as [|c l IH]; intros [|i] Hi; simplify_eq/=; [lia|].
  specialize (IH i Hi). lia.
Qed.

Lemma sum_list_with_reactions (rs : list Promise) o :
  sum_list_with job_weight ((λ r, ReactionJob r o) <$> rs) = length rs.
Proof. induction rs as [|r rs IH]; [done|]. rewrite fmap_cons. simpl. by f_equal. Qed.

Lemma tick_weight rt rt1 : tick rt = Some rt1 → weight rt1 < weight rt.
Proof.
  unfold tick. destruct rt as [P J]. simpl. destruct J as [|job rest]; [done|].
  intros [= <-]. unfold weight.
  destruct job as [q x|q o]; simpl.
  - unfold then_. simpl. destruct (P !! x) as [[rs|o]|] eqn:Hx; simpl.
    + pose proof (sum_list_with_insert state_weight P x _ (Pending (rs ++ [q])) Hx) as H.
      assert (state_weight (V := V) (Pending (rs ++ [q])) = 2 * length rs + 2) as Hnew
        by (unfold state_weight; simpl; rewrite length_app; simpl; lia).
      assert (state_weight (V := V) (Pending rs) = 2 * length rs) as Hold by done.
      unfold Promise in *. lia.
    + rewrite sum_list_with_app. simpl. lia.
    + lia.
  - unfold settle. simpl. destruct (P !! q) as [[rs|o']|] eqn:Hq; simpl; try lia.
    pose proof (sum_list_with_insert state_weight P q _ (Settled o) Hq) as H.
    assert (state_weight (Settled o) = 0) as Hnew by done.
    assert (state_weight (V := V) (Pending rs) = 2 * length rs) as Hold by done.
    rewrite sum_list_with_app, sum_list_with_reactions. unfold Promise in *. lia.
Qed.

Lemma weight_zero rt : weight rt = 0 → jobs rt = [].
Proof.
  unfold weight. destruct (jobs rt) as [|[]]; simpl; [done|lia|lia].
Qed.

Lemma drain_quiescent (fuel : nat) rt :
  (weight rt ≤ fuel)%nat → jobs (drain fuel rt) = [].
Proof.
  revert rt. induction fuel as [|fuel IH]; intros rt Hfuel; simpl.
  - apply weight_zero. lia.
  - destruct (tick rt) as [rt1|] eqn:Htick.
    + apply IH. apply tick_weight in Htick. lia.
    + unfold tick in Htick. by destruct (jobs rt).
Qed.


(** *** Lookups after the primitive operations *)

Lemma settle_promises r o rt p :
  promises (settle r o rt) !! p =
    match promises rt !! r with
    | Some (Pending _) =>
        if decide (p = r) then Some (Settled o) else promises rt !! p
    | _ => promises rt !! p
    end.
Proof.
  unfold settle. destruct (promises rt !! r) as [[rs|o']|] eqn:Hr; try done.
  simpl. destruct (decide (p = r)) as [->|Hne].
  - apply list_lookup_insert_eq. by eapply lookup_lt_Some.
  - by apply list_lookup_insert_ne.
Qed.

Lemma settle_jobs r o rt :
  jobs (settle r o rt) =
    jobs rt ++ match promises rt !! r with
               | Some (Pending rs) => (λ y, ReactionJob y o) <$> rs
               | _ => []
               end.
Proof.
  unfold settle. destruct (promises rt !! r) as [[rs|o']|]; simpl;
    by rewrite ?app_nil_r.
Qed.

Lemma settle_length r o rt :
  length (promises (settle r o rt)) = length (promises rt).
Proof.
  unfold settle. destruct (promises rt !! r) as [[rs|o']|]; simpl; try done.
  apply length_insert.
Qed.

Lemma then_promises x q rt p :
  promises (then_ x q rt) !! p =
    match promises rt !! x with
    | Some (Pending rs) =>
        if decide (p = x) then Some (Pending (rs ++ [q])) else promises rt !! p
    | _ => promises rt !! p
    end.
Proof.
  unfold then_. destruct (promises rt !! x) as [[rs|o']|] eqn:Hx; try done.
  simpl. destruct (decide (p = x)) as [->|Hne].
  - apply list_lookup_insert_eq. by eapply lookup_lt_Some.
  - by apply list_lookup_insert_ne.
Qed.

Lemma then_jobs x q rt :
  jobs (then_ x q rt) =
    jobs rt ++ match promises rt !! x with
               | Some (Settled o) => [ReactionJob q o]
               | _ => []
               end.
Proof.
  unfold then_. destruct (promises rt !! x) as [[rs|o']|]; simpl;
    by rewrite ?app_nil_r.
Qed.

Lemma then_length x q rt :
  length (promises (then_ x q rt)) = length (promises rt).
Proof.
  unfold then_. destruct (promises rt !! x) as [[rs|o']|]; simpl; try done.
  apply length_insert.
Qed.

(** *** The link is kept *)

Lemma follows_settle q x r o rt (extra : list (Job V)) :
  follows q x {| promises := promises rt; jobs := extra ++ jobs rt |} →
  (∀ job, job ∈ extra → job = ReactionJob r o) →
  (extra = [] → r ≠ q) →
  follows q x (settle r o rt).
Proof.
  intros [Hne Hq Hx Hthen Hreact Hreg Hset Hpend] Hextra Hnoextra. simpl in *.
  assert (r = q → promises rt !! x = Some (Settled o)) as Hrq.
  { intros ->. apply Hreact. destruct extra as [|job extra']; [by destruct Hnoextra|].
    rewrite (Hextra job); [|apply elem_of_cons; by left]. apply elem_of_cons. by left. }
  split.
  - done.
  - by rewrite settle_length.
  - by rewrite settle_length.
  - intros t. rewrite settle_jobs, elem_of_app. intros [Hin|Hin].
    + apply Hthen, elem_of_app. by right.
    + destruct (promises rt !! r) as [[rs|?]|]; try by apply elem_of_nil in Hin.
      apply list_elem_of_fmap in Hin as (? & ? & _). done.
  - intros o'. rewrite settle_jobs, elem_of_app, settle_promises. intros [Hin|Hin].
    + assert (promises rt !! x = Some (Settled o')) as Hxo
        by (apply Hreact, elem_of_app; by right).
      destruct (promises rt !! r) as [[rs|?]|] eqn:Hr; try done.
      destruct (decide (x = r)) as [->|]; [congruence|done].
    + destruct (promises rt !! r) as [[rs|?]|] eqn:Hr; try by apply elem_of_nil in Hin.
      apply list_elem_of_fmap in Hin as (y & [= <- <-] & Hy).
      rewrite (Hreg r rs Hr Hy). by destruct (decide (x = x)).
  - intros p rs'. rewrite settle_promises.
    destruct (promises rt !! r) as [[rs|?]|] eqn:Hr; try apply Hreg.
    destruct (decide (p = r)) as [->|]; [done|apply Hreg].
  - intros o'. rewrite !settle_promises.
    destruct (promises rt !! r) as [[rs|?]|] eqn:Hr; try apply Hset.
    destruct (decide (q = r)) as [->|Hqr].
    + intros [= <-]. destruct (decide (x = r)) as [->|]; [done|by apply Hrq].
    + intros Hqo. pose proof (Hset _ Hqo) as Hxo.
      destruct (decide (x = r)) as [->|]; [congruence|done].
  - intros rs'. rewrite !settle_promises, settle_jobs.
    intros Hq'.
    assert (q ≠ r ∧ promises rt !! q = Some (Pending rs')) as [Hqr Hqp].
    { destruct (promises rt !! r) as [[rs|?]|] eqn:Hr.
      - destruct (decide (q = r)) as [->|]; [done|]. done.
      - split; [|done]. intros ->. congruence.
      - split; [|done]. intros ->. congruence. }
    destruct (Hpend _ Hqp) as [Hin|[(w & Hw & Hqw)|[o' Hin]]].
    + left. apply elem_of_app in Hin as [Hin|Hin]; [|apply elem_of_app; by left].
      by specialize (Hextra _ Hin).
    + destruct (promises rt !! r) as [[rs|?]|] eqn:Hr.
      * destruct (decide (x = r)) as [->|].
        -- right. right. exists o. apply elem_of_app. right.
           apply list_elem_of_fmap. exists q. split; [done|]. congruence.
        -- right. left. by exists w.
      * right. left. by exists w.
      * right. left. by exists w.
    + right. right. exists o'. apply elem_of_app in Hin as [Hin|Hin].
      * specialize (Hextra _ Hin). congruence.
      * apply elem_of_app. by left.
Qed.

Lemma follows_then q x x' q' rt :
  follows q x {| promises := promises rt;
                 jobs := ResolveThenableJob q' x' :: jobs rt |} →
  follows q x (then_ x' q' rt).
Proof.
  intros [Hne Hq Hx Hthen Hreact Hreg Hset Hpend]. simpl in *.
  assert (q' = q → x' = x) as Hqq.
  { intros ->. apply Hthen, elem_of_cons. by left. }
  split.
  - done.
  - by rewrite then_length.
  - by rewrite then_length.
  - intros t. rewrite then_jobs, elem_of_app. intros [Hin|Hin].
    + apply Hthen, elem_of_cons. by right.
    + destruct (promises rt !! x') as [[rs|?]|]; try by apply elem_of_nil in Hin.
      by apply list_elem_of_singleton in Hin.
  - intros o'. rewrite then_jobs, elem_of_app, then_promises. intros [Hin|Hin].
    + assert (promises rt !! x = Some (Settled o')) as Hxo
        by (apply Hreact, elem_of_cons; by right).
      destruct (promises rt !! x') as [[rs|?]|] eqn:Hr; try done.
      destruct (decide (x = x')) as [->|]; [congruence|done].
    + destruct (promises rt !! x') as [[rs|o'']|] eqn:Hr; try by apply elem_of_nil in Hin.
      apply list_elem_of_singleton in Hin as [= -> ->]. by rewrite <- Hqq.
  - intros p rs'. rewrite then_promises.
    destruct (promises rt !! x') as [[rs|?]|] eqn:Hr; try apply Hreg.
    destruct (decide (p = x')) as [->|]; [|apply Hreg].
    intros [= <-]. rewrite elem_of_app, list_elem_of_singleton.
    intros [Hin| ->]; [by apply (Hreg x' rs)|by apply Hqq].
  - intros o'. rewrite !then_promises.
    destruct (promises rt !! x') as [[rs|?]|] eqn:Hr; try apply Hset.
    destruct (decide (q = x')) as [->|Hqr]; [done|].
    intros Hqo. pose proof (Hset _ Hqo) as Hxo.
    destruct (decide (x = x')) as [->|]; [congruence|done].
  - intros rs'. rewrite !then_promises, then_jobs. intros Hq'.
    assert (∃ rs0, promises rt !! q = Some (Pending rs0)) as [rs0 Hqp].
    { destruct (promises rt !! x') as [[rs|?]|] eqn:Hr; eauto.
      destruct (decide (q = x')) as [->|]; eauto. }
    destruct (Hpend _ Hqp) as [Hin|[(w & Hw & Hqw)|[o' Hin]]].
    + apply elem_of_cons in Hin as [[= <- <-]|Hin].
      * destruct (promises rt !! x) as [[rs|o'']|] eqn:Hr.
        -- right. left. destruct (decide (x = x)); [|done]. eexists. split; [done|].
           apply elem_of_app. right. by apply list_elem_of_singleton.
        -- right. right. exists o''. apply elem_of_app. right.
           by apply list_elem_of_singleton.
        -- destruct (lookup_lt_is_Some_2 _ _ Hx) as [? ?]. unfold Promise in *. congruence.
      * left. apply elem_of_app. by left.
    + right. left. destruct (promises rt !! x') as [[rs|?]|] eqn:Hr; eauto.
      destruct (decide (x = x')) as [->|]; eauto.
      eexists. split; [done|]. apply elem_of_app. left. congruence.
    + right. right. exists o'. apply elem_of_cons in Hin as [?|Hin]; [done|].
      apply elem_of_app. by left.
Qed.


Lemma follows_new_promise q x rt :
  follows q x rt → follows q x (new_promise rt).2.
Proof.
  intros [Hne Hq Hx Hthen Hreact Hreg Hset Hpend]. unfold Promise in *.
  split; simpl; rewrite ?length_app; simpl; try lia; try done.
  - intros o Hin. rewrite lookup_app_l by done. by apply Hreact.
  - intros p rs. destruct (decide (p < length (promises rt))) as [Hlt|Hge].
    + rewrite lookup_app_l by done. apply Hreg.
    + rewrite lookup_app_r by lia.
      destruct (p - length (promises rt)) as [|n]; simpl; [|done].
      intros [= <-] Hin. by apply elem_of_nil in Hin.
  - intros o. rewrite !lookup_app_l by done. apply Hset.
  - intros rs. rewrite !lookup_app_l by done. apply Hpend.
Qed.

Lemma follows_enqueue q x rt (job : Job V) :
  follows q x rt →
  (∀ t, job ≠ ResolveThenableJob q t) → (∀ o, job ≠ ReactionJob q o) →
  follows q x (enqueue job rt).
Proof.
  intros [Hne Hq Hx Hthen Hreact Hreg Hset Hpend] Hjob1 Hjob2.
  split; simpl; try done.
  - intros t. rewrite elem_of_app, list_elem_of_singleton.
    intros [Hin|Heq]; [by apply Hthen|]. by destruct (Hjob1 t).
  - intros o. rewrite elem_of_app, list_elem_of_singleton.
    intros [Hin|Heq]; [by apply Hreact|]. by destruct (Hjob2 o).
  - intros rs Hqp. destruct (Hpend rs Hqp) as [Hin|[?|[o Hin]]].
    + left. apply elem_of_app. by left.
    + right. by left.
    + right. right. exists o. apply elem_of_app. by left.
Qed.

(** Calling any [async] function that returns a promise keeps the link of
    an earlier call. *)
Lemma follows_async q x rt (input : Promise) :
  follows q x rt → follows q x (async (Normal (a_promise input)) rt).2.
Proof.
  intros Hfollows. unfold async. simpl.
  apply (follows_enqueue q x (new_promise rt).2).
  - by apply follows_new_promise.
  - intros t [= <- _]. destruct Hfollows as [_ Hq _ _ _ _ _ _]. unfold Promise in *. lia.
  - done.
Qed.

(** The call itself sets the link up. *)
Lemma async_follows rt (input : Promise) :
  well_formed rt → input < length (promises rt) →
  follows (async (Normal (a_promise input)) rt).1 input
          (async (Normal (a_promise input)) rt).2.
Proof.
  intros [Hjobs Hstates] Hinput. unfold async. simpl. unfold Promise in *.
  split; simpl; rewrite ?length_app; simpl; try lia.
  - intros t. rewrite elem_of_app, list_elem_of_singleton. intros [Hin|[= ->]]; [|done].
    specialize (Hjobs _ (length (promises rt)) Hin). simpl in Hjobs.
    assert (length (promises rt) < length (promises rt)); [|lia].
    apply Hjobs. apply elem_of_cons. by left.
  - intros o. rewrite elem_of_app, list_elem_of_singleton. intros [Hin|?]; [|done].
    specialize (Hjobs _ (length (promises rt)) Hin). simpl in Hjobs.
    assert (length (promises rt) < length (promises rt)); [|lia].
    apply Hjobs. by apply list_elem_of_singleton.
  - intros p rs. destruct (decide (p < length (promises rt))) as [Hlt|Hge].
    + rewrite lookup_app_l by done. intros Hp Hin.
      assert (length (promises rt) < length (promises rt)); [|lia].
      apply (Hstates (Pending rs)); [by eapply list_elem_of_lookup_2|done].
    + rewrite lookup_app_r by lia.
      destruct (p - length (promises rt)) as [|n]; simpl; [|done].
      intros [= <-] Hin. by apply elem_of_nil in Hin.
  - intros o. rewrite lookup_app_r by lia. by rewrite Nat.sub_diag.
  - intros rs _. left. apply elem_of_app. right. by apply list_elem_of_singleton.
Qed.

Lemma follows_tick q x rt rt1 :
  follows q x rt → tick rt = Some rt1 → follows q x rt1.
Proof.
  unfold tick. destruct rt as [P J]. simpl. destruct J as [|job rest]; [done|].
  intros Hfollows [= <-]. destruct job as [q' x'|r o]; simpl.
  - by apply (follows_then q x x' q' {| promises := P; jobs := rest |}).
  - apply (follows_settle q x r o {| promises := P; jobs := rest |} [ReactionJob r o]).
    + done.
    + intros job Hin. by apply list_elem_of_singleton in Hin.
    + done.
Qed.

Lemma follows_drain q x (fuel : nat) rt :
  follows q x rt → follows q x (drain fuel rt).
Proof.
  revert rt. induction fuel as [|fuel IH]; intros rt Hfollows; simpl; [done|].
  destruct (tick rt) as [rt1|] eqn:Htick; [|done].
  apply IH. by eapply follows_tick.
Qed.

Lemma follows_move q x rt (m : Move V) :
  follows q x rt → leaves q m → follows q x (move rt m).
Proof.
  intros Hfollows Hleaves. destruct m as [|r o| |which input]; simpl in *.
  - destruct (tick rt) as [rt1|] eqn:Htick; [|done]. by eapply follows_tick.
  - apply (follows_settle q x r o rt []); [by destruct rt|by intros ? ?%elem_of_nil|done].
  - by apply follows_new_promise.
  - destruct which; by apply follows_async.
Qed.

Lemma follows_moves q x rt (moves : list (Move V)) :
  follows q x rt → Forall (leaves q) moves → follows q x (foldl move rt moves).
Proof.
  revert rt. induction moves as [|m moves IH]; intros rt Hfollows Hleaves; [done|].
  apply Forall_cons in Hleaves as [Hm Hrest]. simpl. apply IH; [|done].
  by apply follows_move.
Qed.

(** With the queue empty, the two promises are in the same state. *)
Lemma follows_quiescent q x rt (o : Outcome V) :
  follows q x rt → jobs rt = [] →
  promises rt !! x = Some (Settled o) ↔ promises rt !! q = Some (Settled o).
Proof.
  intros [Hne Hq Hx Hthen Hreact Hreg Hset Hpend] Hempty. split; [|apply Hset].
  intros Hxo. destruct (lookup_lt_is_Some_2 _ _ Hq) as [[rs|o'] Hst].
  - destruct (Hpend rs Hst) as [Hin|[(w & Hw & _)|[o' Hin]]].
    + rewrite Hempty in Hin. by apply elem_of_nil in Hin.
    + unfold Promise in *. congruence.
    + rewrite Hempty in Hin. by apply elem_of_nil in Hin.
  - pose proof (Hset _ Hst). unfold Promise in *. congruence.
Qed.

End Engine.

(** C8: every transform of [BaseFilter] is an identity on what its input
    promise settles to.  Called in a well-formed runtime on a promise of
    that runtime, a transform returns a new promise; however the program
    goes on (jobs run, promises are settled by those who hold their
    resolving functions, promises are created, transforms are called
    again), whenever the job queue is empty the returned promise is
    fulfilled with a value exactly when the input is fulfilled with that
    value, and rejected with a reason exactly when the input is rejected
    with it; and the engine does empty the queue, within [weight] jobs. *)
Theorem base_filter_identity (V : Type) (which : Transform) (input : Promise)
    (rt : Runtime V) (moves : list (Move V)) :
  well_formed rt →
  input < length (promises rt) →
  let returned := (transform which input rt).1 in
  Forall (leaves returned) moves →
  let now := foldl move (transform which input rt).2 moves in
  let final := drain (weight now) now in
  returned = length (promises rt) ∧
  (jobs now = [] →
   ∀ outcome, promises now !! input = Some (Settled outcome) ↔
              promises now !! returned = Some (Settled outcome)) ∧
  jobs final = [] ∧
  (∀ outcome, promises final !! input = Some (Settled outcome) ↔
              promises final !! returned = Some (Settled outcome)).
Proof.
  intros Hwf Hinput returned Hleaves now final.
  assert (follows returned input now) as Hnow.
  { apply follows_moves; [|done]. unfold returned.
    destruct which; by apply async_follows. }
  assert (jobs final = []) as Hfinal by by apply drain_quiescent.
  split; [by destruct which|]. split; [|split; [done|]].
  - intros Hempty outcome. by apply follows_quiescent.
  - intros outcome. apply follows_quiescent; [|done]. by apply follows_drain.
Qed.

(** An instance: the input is already fulfilled when [receiveMessage] is
    called; once the two queued jobs have run, the returned promise is
    fulfilled with the same value. *)
Lemma base_filter_identity_witness :
  let rt := {| promises := [Settled (Fulfilled "payload")]; jobs := [] |} in
  let called := receiveMessage 0 rt in
  let final := drain (weight called.2) called.2 in
  called.1 = 1 ∧
  jobs final = [] ∧
  (∀ outcome, promises final !! 0 = Some (Settled outcome) ↔
              promises final !! called.1 = Some (Settled outcome)) ∧
  promises final !! called.1 = Some (Settled (Fulfilled "payload")).
Proof.
  intros rt called final.
  destruct (base_filter_identity string ReceiveMessage 0 rt []) as (H1 & _ & H3 & H4).
  - split.
    + intros job r Hin. by apply elem_of_nil in Hin.
    + intros st r Hin. apply list_elem_of_singleton in Hin as ->.
      intros Hr. by apply elem_of_nil in Hr.
  - simpl. lia.
  - constructor.
  - repeat split; try done; apply H4.
Defined.

End FilterProps.

(** ** More of call.ts: what whole runs of the surfaces show *)

Module CallSurfaceMoreProps.
Import CallSurface CallSurfaceMore Observe CallSurfaceProps.

(** *** Observations of a run *)
Section Observations.
Context {S I E A : Type} (step : S -> I -> S * list E) (f : E -> option A).

Lemma omap_none (l : list E) : (∀ e, e ∈ l → f e = None) → omap f l = [].
Proof.
  induction l as [|e l IH]; intros Hnone; [done|]. simpl.
  rewrite (Hnone e) by (apply elem_of_cons; by left).
  apply IH. intros e' He'. apply Hnone, elem_of_cons. by right.
Qed.

Lemma omap_replicate_none (n : nat) (e : E) : f e = None → omap f (replicate n e) = [].
Proof. intros He. induction n as [|n IH]; simpl; [done|]. by rewrite He. Qed.

(** What a run shows of one kind of effect, when each step shows a part
    that depends on the input and on what the steps keep. *)
Lemma bind_run (P : S -> Prop) (g : I -> list A) (s : S) (inputs : list I) :
  (∀ s i, P s → P (step s i).1) →
  (∀ s i, P s → omap f (step s i).2 = g i) →
  P s →
  omap f (run step s inputs).2 = inputs ≫= g.
Proof.
  intros Hkeep Hstep. revert s. induction inputs as [|i rest IH]; intros s Hs; [done|].
  rewrite run_cons_effects, omap_app, bind_cons, Hstep by done.
  f_equal. by apply IH, Hkeep.
Qed.

Lemma run_app_state (s : S) (inputs1 inputs2 : list I) :
  (run step s (inputs1 ++ inputs2)).1 = (run step (run step s inputs1).1 inputs2).1.
Proof.
  revert s. induction inputs1 as [|i rest IH]; intros s; [done|].
  rewrite <- app_comm_cons, !run_cons_state. apply IH.
Qed.

Lemma run_app_effects (s : S) (inputs1 inputs2 : list I) :
  (run step s (inputs1 ++ inputs2)).2 =
    (run step s inputs1).2 ++ (run step (run step s inputs1).1 inputs2).2.
Proof.
  revert s. induction inputs1 as [|i rest IH]; intros s; [done|].
  rewrite <- app_comm_cons, !run_cons_effects, run_cons_state, IH.
  by rewrite app_assoc.
Qed.

End Observations.

Lemma omap_pointwise {A B : Type} (f g : A -> option B) (l : list A) :
  (∀ x, f x = g x) → omap f l = omap g l.
Proof.
  intros Hfg. induction l as [|x l IH]; [done|].
  cbn [omap list_omap]. by rewrite Hfg, IH.
Qed.

Lemma omap_as_bind {A B : Type} (g : A -> option B) (l : list A) :
  omap g l = l ≫= (λ x, option_list (g x)).
Proof.
  induction l as [|x l IH]; [done|].
  rewrite bind_cons, <- IH. cbn [omap list_omap]. by destruct (g x).
Qed.

Section ReadableObservations.
Context {S I Resp : Type} (null : Resp -> bool).
Context (step : S -> I -> S * list (Effect Resp)).
Context (setup_of : S -> ReadableSetup) (call_of : S -> Call).
Context (deserialize_of : S -> Buffer -> completion Resp).
Context (view : I -> option ReadableInput) (is_data : I -> bool).

Hypothesis step_setup : ∀ s i,
  setup_of (step s i).1 =
    match view i with
    | Some (CallData data accepted) =>
        (on_data null (call_of s) (deserialize_of s) (setup_of s) data accepted).1
    | Some CallEnd => (on_end (Resp := Resp) (call_of s) (setup_of s)).1
    | Some (CallStatus status listened) =>
        (status_event (Resp := Resp) (setup_of s) status listened).1
    | _ => setup_of s
    end.

Hypothesis step_effects : ∀ s i,
  match view i with
  | Some (CallMetadata metadata) => (step s i).2 = [Emit (emit_metadata metadata)]
  | Some (CallData data accepted) =>
      (step s i).2 =
        (on_data null (call_of s) (deserialize_of s) (setup_of s) data accepted).2
  | Some CallEnd => (step s i).2 = (on_end (call_of s) (setup_of s)).2
  | Some (CallStatus status listened) =>
      (step s i).2 = (status_event (setup_of s) status listened).2
  | Some (StreamRead size) => (step s i).2 = [CallDo (call_of s) resume]
  | Some AppCancel =>
      (step s i).2 = [CallDo (call_of s) (cancelWithStatus CANCELLED "Cancelled on client")]
  | None =>
      ∀ effect, effect ∈ (step s i).2 →
        (∃ c text, effect = CallDo (call_of s) (cancelWithStatus c text)) ∨
        (∃ writeObj cb, effect = CallDo (call_of s) (write writeObj cb)) ∨
        effect = CallDo (call_of s) end_ ∨
        (∃ cb err, effect = InvokeWriteCb cb err)
  end.

Hypothesis step_call : ∀ s i, call_of (step s i).1 = call_of s.

Hypothesis step_deserialize : ∀ s i, deserialize_of (step s i).1 = deserialize_of s.

Hypothesis is_data_view : ∀ i,
  is_data i = true ↔ ∃ data accepted, view i = Some (CallData data accepted).

(** The effects of one step that an observation [f] keeps, when [f] keeps
    nothing of what the writes of a duplex stream do. *)
Lemma observe_step {A : Type} (f : Effect Resp -> option A) (s : S) (i : I) :
  (∀ c op, f (CallDo c op) = None) → (∀ cb e, f (InvokeWriteCb cb e) = None) →
  omap f (step s i).2 =
    match view i with
    | Some (CallMetadata metadata) => omap f [Emit (emit_metadata metadata)]
    | Some (CallData data accepted) =>
        omap f (on_data null (call_of s) (deserialize_of s) (setup_of s) data accepted).2
    | Some CallEnd => omap f (on_end (call_of s) (setup_of s)).2
    | Some (CallStatus status listened) =>
        omap f (status_event (setup_of s) status listened).2
    | _ => []
    end.
Proof.
  intros Hcall Hcb. pose proof (step_effects s i) as Hstep.
  destruct (view i) as [[metadata|data accepted| |status listened|size|]|];
    try (by rewrite Hstep).
  - rewrite Hstep. simpl. by rewrite Hcall.
  - rewrite Hstep. simpl. by rewrite Hcall.
  - apply omap_none. intros e He.
    destruct (Hstep e He) as [(? & ? & ->)|[(? & ? & ->)|[->|(? & ? & ->)]]]; auto.
Qed.

Lemma run_setup_call (s : S) (inputs : list I) :
  call_of (run step s inputs).1 = call_of s ∧
  deserialize_of (run step s inputs).1 = deserialize_of s.
Proof.
  revert s. induction inputs as [|i rest IH]; intros s; [done|].
  rewrite run_cons_state. destruct (IH (step s i).1) as [-> ->].
  by rewrite step_call, step_deserialize.
Qed.

(** The effects of a 'status' event, by its three cases. *)
Lemma status_event_by_cases (st : ReadableSetup) (status : StatusObject) (listened : bool) :
  (status_event (Resp := Resp) st status listened).2 =
    if decide (code status = OK) then
      [Emit (emit_status status)] ++ replicate (pendingOnce st) (Push None)
    else if listened then
      [Emit (emit_error (ServiceError_of status)); Emit (emit_status status)] ++
      replicate (pendingOnce st) (Push None)
    else [Emit (emit_error (ServiceError_of status)); Uncaught (ServiceError_of status)].
Proof.
  destruct (decide (code status = OK)) as [Hok|Hnot].
  - by rewrite (status_event_ok _ _ _ Hok).
  - destruct listened.
    + by rewrite (status_event_not_ok _ _ Hnot).
    + by rewrite (status_event_unheard _ _ Hnot).
Qed.

(** The messages pushed are the messages that parsed to something other
    than [null], in order. *)
Lemma run_pushed (s : S) (inputs : list I) :
  pushed (run step s inputs).2 =
    omap (λ i, match view i with
               | Some (CallData data _) => parsed (deserialize_of s) data ≫= chunk_of null
               | _ => None
               end) inputs.
Proof.
  revert s. induction inputs as [|i rest IH]; intros s; [done|].
  rewrite run_cons_effects. unfold pushed in *. rewrite omap_app, IH.
  rewrite step_deserialize, observe_step by done. cbn [omap list_omap].
  destruct (view i) as [[metadata|data accepted| |status listened|size|]|]; try done.
  - unfold on_data, parsed. destruct (deserialize_of s data) as [message|e]; simpl; [|done].
    by destruct (chunk_of null message), accepted.
  - rewrite on_end_effects. by destruct (statusEmitted (setup_of s)).
  - rewrite status_event_by_cases.
    destruct (decide (code status = OK)); [|destruct listened]; simpl;
      by rewrite ?omap_replicate_none.
Qed.

Lemma ends_pushed_app (a b : list (Effect Resp)) :
  ends_pushed (a ++ b) = ends_pushed a + ends_pushed b.
Proof. unfold ends_pushed. by rewrite omap_app, length_app. Qed.

Lemma ends_pushed_replicate (n : nat) :
  ends_pushed (replicate n (Push (Resp := Resp) None)) = n.
Proof. induction n as [|n IH]; [done|]. unfold ends_pushed in *. simpl. by f_equal. Qed.

(** The pushes of the end of the stream that one step does. *)
Lemma ends_pushed_step (s : S) (i : I) :
  ends_pushed (step s i).2 =
    match view i with
    | Some (CallData data accepted) =>
        if brings_null null (deserialize_of s) (CallData data accepted) then 1 else 0
    | Some CallEnd => if statusEmitted (setup_of s) then 1 else 0
    | Some (CallStatus status listened) =>
        if delivered (CallStatus status listened) then pendingOnce (setup_of s) else 0
    | _ => 0
    end.
Proof.
  unfold ends_pushed. rewrite observe_step by done.
  destruct (view i) as [[metadata|data accepted| |status listened|size|]|]; try done.
  - unfold on_data, brings_null, chunk_of.
    destruct (deserialize_of s data) as [message|e]; simpl; [|done].
    by destruct (null message), accepted.
  - rewrite on_end_effects. by destruct (statusEmitted (setup_of s)).
  - fold (ends_pushed (Resp := Resp) (status_event (setup_of s) status listened).2).
    rewrite status_event_by_cases. unfold delivered.
    destruct (decide (code status = OK)) as [Hok|Hnot].
    + rewrite bool_decide_eq_true_2 by done.
      by rewrite ends_pushed_app, ends_pushed_replicate.
    + rewrite bool_decide_eq_false_2 by done. destruct listened; [|done].
      by rewrite ends_pushed_app, ends_pushed_replicate.
Qed.

(** The listeners that wait for 'status' after one step. *)
Lemma pending_step (s : S) (i : I) :
  pendingOnce (setup_of (step s i).1) =
    match view i with
    | Some CallEnd =>
        if statusEmitted (setup_of s) then pendingOnce (setup_of s)
        else Datatypes.S (pendingOnce (setup_of s))
    | Some (CallStatus status listened) =>
        if delivered (CallStatus status listened) then 0 else pendingOnce (setup_of s)
    | _ => pendingOnce (setup_of s)
    end.
Proof.
  rewrite step_setup.
  destruct (view i) as [[metadata|data accepted| |status listened|size|]|]; try done.
  - by rewrite on_data_setup.
  - rewrite on_end_setup. by destruct (statusEmitted (setup_of s)).
  - unfold delivered. destruct (decide (code status = OK)) as [Hok|Hnot].
    + rewrite bool_decide_eq_true_2 by done. by rewrite (status_event_ok _ _ _ Hok).
    + rewrite bool_decide_eq_false_2 by done. destruct listened.
      * by rewrite (status_event_not_ok _ _ Hnot).
      * by rewrite (status_event_unheard _ _ Hnot).
Qed.

(** Every 'end' event and every message that is [null] is answered by one
    push of the end of the stream: at once for the message, and for the
    event at once or when the next 'status' is delivered. *)
Lemma run_ends_pushed (s : S) (inputs : list I) :
  ends_pushed (run step s inputs).2 + pendingOnce (setup_of (run step s inputs).1) =
    pendingOnce (setup_of s) + ends_of (omap view inputs) +
    nulls_of null (deserialize_of s) (omap view inputs).
Proof.
  revert s. induction inputs as [|i rest IH]; intros s; [simpl; unfold ends_of, nulls_of; simpl; lia|].
  rewrite run_cons_effects, run_cons_state, ends_pushed_app, ends_pushed_step.
  specialize (IH (step s i).1). rewrite pending_step, step_deserialize in IH.
  cbn [omap list_omap]. unfold ends_of, nulls_of in *.
  destruct (view i) as [[metadata|data accepted| |status listened|size|]|];
    cbn [List.filter brings_null] in *; try lia.
  - destruct (match deserialize_of s data with
              | Normal message => null message
              | Throw _ => false
              end); simpl; lia.
  - destruct (statusEmitted (setup_of s)); simpl in *; lia.
  - destruct (delivered (CallStatus status listened)); simpl in *; lia.
Qed.

(** After a 'status' event that is delivered no listener of [once] is
    left. *)
Lemma run_status_last (s : S) (inputs : list I) (i : I) (r : ReadableInput) :
  view i = Some r → delivered r = true →
  pendingOnce (setup_of (run step s (inputs ++ [i])).1) = 0.
Proof.
  intros Hview Hr. rewrite run_app_state, run_cons_state. cbn [run fst].
  rewrite pending_step, Hview. destruct r; try done. by rewrite Hr.
Qed.

(** A 'status' event that is not delivered pushes nothing. *)
Lemma run_status_unheard (s : S) (inputs : list I) (i : I) (r : ReadableInput) :
  view i = Some r → (∃ status listened, r = CallStatus status listened) →
  delivered r = false →
  ends_pushed (run step s (inputs ++ [i])).2 = ends_pushed (run step s inputs).2.
Proof.
  intros Hview (status & listened & ->) Hr.
  rewrite run_app_effects, ends_pushed_app, run_cons_effects. cbn [run snd].
  rewrite app_nil_r, ends_pushed_step, Hview, Hr. lia.
Qed.

(** The surface emits what its call emits: every 'metadata', every
    'status' whose listener gets that far, and an 'error' before each
    'status' that is not OK. *)
Lemma run_emitted (s : S) (inputs : list I) :
  emitted (run step s inputs).2 =
    inputs ≫= (λ i, match view i with Some r => forwarded true r | None => [] end).
Proof.
  revert s. induction inputs as [|i rest IH]; intros s; [done|].
  rewrite run_cons_effects, bind_cons. unfold emitted in *. rewrite omap_app, IH.
  f_equal. rewrite observe_step by done.
  destruct (view i) as [[metadata|data accepted| |status listened|size|]|]; try done.
  - unfold on_data. destruct (deserialize_of s data); simpl; [|done]. by destruct accepted.
  - rewrite on_end_effects. by destruct (statusEmitted (setup_of s)).
  - rewrite status_event_by_cases. unfold forwarded. cbn [andb].
    destruct (decide (code status = OK)) as [Hok|Hnot].
    + rewrite bool_decide_eq_false_2 by (by intros ?). simpl.
      by rewrite omap_replicate_none.
    + rewrite bool_decide_eq_true_2 by done. destruct listened; simpl; [|done].
      by rewrite omap_replicate_none.
Qed.

(** A behaviour on a call, cut in two. *)
Lemma run_on_call_app (call : Call) (paused : bool) (s : S) (inputs1 inputs2 : list I)
    (result : S * list (Effect Resp)) :
  run_on_call step is_data call paused s (inputs1 ++ inputs2) = Some result →
  ∃ s1 effs1 result2,
    run_on_call step is_data call paused s inputs1 = Some (s1, effs1) ∧
    run_on_call step is_data call (foldl (paused_after call) paused effs1) s1 inputs2
      = Some result2.
Proof.
  revert paused s result. induction inputs1 as [|i rest IH]; intros paused s result Hrun.
  - exists s, [], result. by split.
  - simpl in Hrun |- *. destruct (is_data i && paused); [done|].
    destruct (step s i) as [s1 effs1].
    destruct (run_on_call step is_data call (foldl (paused_after call) paused effs1) s1
                (rest ++ inputs2)) as [[s2 effs2]|] eqn:Hrest; [|done].
    destruct (IH _ _ _ Hrest) as (s3 & effs3 & result2 & Hfirst & Hsecond).
    rewrite Hfirst. exists s3, (effs1 ++ effs3), result2. split; [done|].
    by rewrite foldl_app.
Qed.

Lemma run_on_call_state (call : Call) (paused : bool) (s : S) (inputs : list I)
    (result : S * list (Effect Resp)) :
  run_on_call step is_data call paused s inputs = Some result →
  call_of result.1 = call_of s ∧ deserialize_of result.1 = deserialize_of s.
Proof.
  intros Hrun.
  apply (run_on_call_run step is_data) in Hrun as ->. apply run_setup_call.
Qed.

(** After a message that the stream's buffer did not accept, the call is
    paused: the next 'data' event comes after a [_read]. *)
Lemma run_on_call_refused (call : Call) (paused : bool) (s : S) (inputs : list I)
    (result : S * list (Effect Resp)) :
  call_of s = call →
  run_on_call step is_data call paused s inputs = Some result →
  ∀ before i data message between j after,
    inputs = before ++ i :: between ++ j :: after →
    view i = Some (CallData data false) →
    deserialize_of s data = Normal message →
    is_data j = true →
    ∃ k size, k ∈ between ∧ view k = Some (StreamRead size).
Proof.
  intros Hcall Hrun before i data message between j after -> Hview Hparsed Hdata.
  apply run_on_call_app in Hrun as (s1 & effs1 & result2 & Hfirst & Hsecond).
  destruct (run_on_call_state _ _ _ _ _ Hfirst) as [Hcall1 Hdes1]. simpl in *.
  destruct (is_data i && foldl (paused_after call) paused effs1); [done|].
  pose proof (step_effects s1 i) as Hstep. rewrite Hview in Hstep.
  pose proof (step_call s1 i) as Hcall2.
  destruct (step s1 i) as [s2 effs2]. simpl in *. subst effs2.
  unfold on_data in Hsecond. rewrite Hdes1, Hparsed in Hsecond. simpl in Hsecond.
  rewrite Hcall1, Hcall in Hsecond.
  destruct (decide (call = call)); [|done].
  destruct (run_on_call step is_data call true s2 (between ++ j :: after))
    as [result3|] eqn:Hrest; [|done].
  eapply run_on_call_data_after_read
    with (view := view) (setup_of := setup_of) (deserialize_of := deserialize_of)
    in Hrest as (k & size & Hk & Hsize); eauto.
  congruence.
Qed.

End ReadableObservations.

(** A 'status' event only emits, throws and pushes. *)
Lemma omap_status_event {Resp A : Type} (f : Effect Resp -> option A)
    (st : ReadableSetup) (status : StatusObject) (listened : bool) :
  (∀ event, f (Emit event) = None) →
  (∀ message, f (Push message) = None) →
  (∀ error, f (Uncaught error) = None) →
  omap f (status_event st status listened).2 = [].
Proof.
  intros Hemit Hpush Huncaught. rewrite status_event_by_cases.
  destruct (decide (code status = OK)); [|destruct listened]; simpl;
    rewrite ?Hemit, ?Huncaught; try done; by apply omap_replicate_none.
Qed.

Lemma omap_Some {A : Type} (l : list A) : omap Some l = l.
Proof. induction l as [|x l IH]; [done|]. cbn [omap list_omap]. by rewrite IH. Qed.

(** *** The two classes built on setUpReadableStream *)
Section Classes.
Context {Req Resp : Type} (null : Resp -> bool) (Number : string -> JsNumber).

Lemma duplex_step_serialize (this : ClientDuplexStreamImpl.t Req Resp) (i : DuplexInput Req) :
  ClientDuplexStreamImpl.serialize (ClientDuplexStreamImpl.step null Number this i).1 =
    ClientDuplexStreamImpl.serialize this.
Proof. destruct i as [[]| |]; simpl; try done; by rewrite pair_fst_let. Qed.

End Classes.

(** X1: the messages pushed to a readable or duplex stream are the messages
    of the 'data' events that parsed to something other than [null], each
    once and in the order of the events; a message that does not parse is
    skipped, one that is [null] is a push of the end of the stream, and no
    other input pushes a message. *)
Theorem messages_in_order (Req Resp : Type) (null : Resp -> bool)
    (Number : string -> JsNumber) :
  (∀ (this : ClientReadableStreamImpl.t Resp) (inputs : list ReadableInput),
     pushed (run (ClientReadableStreamImpl.step null) this inputs).2 =
       omap (λ i, match i with
                  | CallData data _ =>
                      parsed (ClientReadableStreamImpl.deserialize this) data ≫=
                      chunk_of null
                  | _ => None
                  end) inputs) ∧
  (∀ (this : ClientDuplexStreamImpl.t Req Resp) (inputs : list (DuplexInput Req)),
     pushed (run (ClientDuplexStreamImpl.step null Number) this inputs).2 =
       omap (λ i, match i with
                  | Readable (CallData data _) =>
                      parsed (ClientDuplexStreamImpl.deserialize this) data ≫=
                      chunk_of null
                  | _ => None
                  end) inputs).
Proof.
  split; intros this inputs.
  - erewrite run_pushed with (view := Some); try readable_class.
    apply omap_pointwise. by intros [].
  - erewrite run_pushed with (view := readable_part); try duplex_class.
    apply omap_pointwise. by intros [[]| |].
Qed.

(** X2: on a readable or duplex stream run from construction, the end of
    the stream is pushed once for each 'end' event of the call and once
    for each message that deserializes to [null], and never otherwise: the
    pushes done and the listeners still waiting for 'status' add up to the
    number of these.  After a 'status' event whose listener returned none
    is waiting; a 'status' event that is not OK on a stream without a
    listener for 'error' pushes nothing, and those that wait go on
    waiting. *)
Theorem end_pushed_once_per_end (Req Resp : Type) (null : Resp -> bool)
    (Number : string -> JsNumber) :
  (∀ (call : Call) (deserialize : Buffer -> completion Resp) (inputs : list ReadableInput),
     let this := (ClientReadableStreamImpl.constructor call deserialize).1 in
     let due := ends_of inputs + nulls_of null deserialize inputs in
     ends_pushed (run (ClientReadableStreamImpl.step null) this inputs).2 +
       pendingOnce (ClientReadableStreamImpl.setup
                      (run (ClientReadableStreamImpl.step null) this inputs).1) = due ∧
     ∀ status listened,
       ends_pushed
         (run (ClientReadableStreamImpl.step null) this
            (inputs ++ [CallStatus status listened])).2 =
         if delivered (CallStatus status listened) then due
         else ends_pushed (run (ClientReadableStreamImpl.step null) this inputs).2) ∧
  (∀ (call : Call) (serialize : Req -> completion Buffer)
     (deserialize : Buffer -> completion Resp) (inputs : list (DuplexInput Req)),
     let this := (ClientDuplexStreamImpl.constructor call serialize deserialize).1 in
     let due := ends_of (omap readable_part inputs) +
                nulls_of null deserialize (omap readable_part inputs) in
     ends_pushed (run (ClientDuplexStreamImpl.step null Number) this inputs).2 +
       pendingOnce (ClientDuplexStreamImpl.setup
                      (run (ClientDuplexStreamImpl.step null Number) this inputs).1) = due ∧
     ∀ status listened,
       ends_pushed
         (run (ClientDuplexStreamImpl.step null Number) this
            (inputs ++ [Readable (CallStatus status listened)])).2 =
         if delivered (CallStatus status listened) then due
         else ends_pushed (run (ClientDuplexStreamImpl.step null Number) this inputs).2).
Proof.
  split.
  - intros call deserialize inputs this due.
    assert (Hrun : ∀ l,
      ends_pushed (run (ClientReadableStreamImpl.step null) this l).2 +
        pendingOnce (ClientReadableStreamImpl.setup
                       (run (ClientReadableStreamImpl.step null) this l).1) =
        ends_of l + nulls_of null deserialize l).
    { intros l.
      erewrite run_ends_pushed with (view := Some)
        (deserialize_of := ClientReadableStreamImpl.deserialize); try readable_class.
      by rewrite omap_Some. }
    split; [apply Hrun|].
    intros status listened.
    destruct (delivered (CallStatus status listened)) eqn:Hdelivered.
    + specialize (Hrun (inputs ++ [CallStatus status listened])).
      erewrite run_status_last with (view := Some) in Hrun; try readable_class; try done.
      unfold ends_of, nulls_of in *.
      rewrite !List.filter_app, !length_app in Hrun. simpl in Hrun. subst due.
      unfold ends_of, nulls_of. lia.
    + eapply run_status_unheard with (view := Some); try readable_class; eauto.
  - intros call serialize deserialize inputs this due.
    assert (Hrun : ∀ l,
      ends_pushed (run (ClientDuplexStreamImpl.step null Number) this l).2 +
        pendingOnce (ClientDuplexStreamImpl.setup
                       (run (ClientDuplexStreamImpl.step null Number) this l).1) =
        ends_of (omap readable_part l) + nulls_of null deserialize (omap readable_part l)).
    { intros l.
      by erewrite run_ends_pushed with (view := readable_part)
        (deserialize_of := ClientDuplexStreamImpl.deserialize); try duplex_class. }
    split; [apply Hrun|].
    intros status listened.
    destruct (delivered (CallStatus status listened)) eqn:Hdelivered.
    + specialize (Hrun (inputs ++ [Readable (CallStatus status listened)])).
      erewrite run_status_last with (view := readable_part) in Hrun;
        try duplex_class; try done.
      rewrite omap_app in Hrun. unfold ends_of, nulls_of in *.
      rewrite !List.filter_app, !length_app in Hrun. simpl in Hrun. subst due.
      unfold ends_of, nulls_of. lia.
    + eapply run_status_unheard with (view := readable_part); try duplex_class; eauto.
Qed.

(** X3: the calls of [emit] that the listeners of the surfaces make are
    these, in order of the events of the call: 'metadata' for each
    'metadata' and 'status' for each 'status' on all of them, and, on a
    readable or duplex stream, an 'error' before each 'status' that is not
    OK, after which 'status' is emitted only if the stream has a listener
    for 'error'.  The listeners of the writable stream emit no 'error',
    and no other input makes the code of a surface emit. *)
Theorem surfaces_forward (Req Resp : Type) (null : Resp -> bool)
    (Number : string -> JsNumber) :
  (∀ (this : ClientReadableStreamImpl.t Resp) (inputs : list ReadableInput),
     emitted (run (ClientReadableStreamImpl.step null) this inputs).2 =
       inputs ≫= forwarded true) ∧
  (∀ (this : ClientDuplexStreamImpl.t Req Resp) (inputs : list (DuplexInput Req)),
     emitted (run (ClientDuplexStreamImpl.step null Number) this inputs).2 =
       omap readable_part inputs ≫= forwarded true) ∧
  (∀ (this : ClientWritableStreamImpl.t Req) (inputs : list (WritableInput Req)),
     emitted (Resp := Resp) (run (ClientWritableStreamImpl.step Number) this inputs).2 =
       inputs ≫= (λ i, match i with
                       | WCallMetadata metadata => [emit_metadata metadata]
                       | WCallStatus status => [emit_status status]
                       | _ => []
                       end)).
Proof.
  repeat split.
  - intros this inputs.
    erewrite run_emitted with (view := Some); try readable_class. done.
  - intros this inputs.
    erewrite run_emitted with (view := readable_part); try duplex_class.
    induction inputs as [|i rest IH]; [done|].
    rewrite bind_cons, IH. cbn [omap list_omap].
    destruct (readable_part i); [by rewrite bind_cons|done].
  - intros this inputs. unfold emitted.
    apply bind_run with (P := λ _, True); [done| |done].
    intros s [metadata|status|chunk encoding cb|cb|] _; try done.
    simpl. unfold ClientWritableStreamImpl._write, tryWrite.
    by destruct (ClientWritableStreamImpl.serialize s chunk).
Qed.

(** X4: what is written to the call is the chunks given to [_write] that
    serialize, each once, in order and with its flags; and every callback
    given to [_write] or [_final] is handed to [Call.write] or invoked,
    once and in the order of the requests.  Nothing else writes to the
    call. *)
Theorem writes_in_order (Req Resp : Type) (null : Resp -> bool)
    (Number : string -> JsNumber) :
  (∀ (this : ClientWritableStreamImpl.t Req) (inputs : list (WritableInput Req)),
     let effects : list (Effect Resp) :=
       (run (ClientWritableStreamImpl.step Number) this inputs).2 in
     written effects =
       omap (λ i, match i with
                  | StreamWrite chunk encoding _ =>
                      write_object Number (ClientWritableStreamImpl.serialize this)
                        chunk encoding
                  | _ => None
                  end) inputs ∧
     callbacks_taken effects =
       omap (λ i, match i with
                  | StreamWrite _ _ cb | StreamFinal cb => Some cb
                  | _ => None
                  end) inputs) ∧
  (∀ (this : ClientDuplexStreamImpl.t Req Resp) (inputs : list (DuplexInput Req)),
     let effects := (run (ClientDuplexStreamImpl.step null Number) this inputs).2 in
     written effects =
       omap (λ i, match i with
                  | DuplexWrite chunk encoding _ =>
                      write_object Number (ClientDuplexStreamImpl.serialize this)
                        chunk encoding
                  | _ => None
                  end) inputs ∧
     callbacks_taken effects =
       omap (λ i, match i with
                  | DuplexWrite _ _ cb | DuplexFinal cb => Some cb
                  | _ => None
                  end) inputs).
Proof.
  split.
  - intros this inputs effects. subst effects. unfold written, callbacks_taken.
    rewrite !(omap_as_bind (A := WritableInput Req)). split.
    + apply bind_run with
        (P := λ s, ClientWritableStreamImpl.serialize s =
                   ClientWritableStreamImpl.serialize this); [| |done].
      * by intros s [].
      * intros s [metadata|status|chunk encoding cb|cb|] Hs; try done.
        simpl. unfold ClientWritableStreamImpl._write, tryWrite, write_object.
        rewrite Hs. destruct (ClientWritableStreamImpl.serialize this chunk); [|done].
        simpl. by destruct (Number_isNaN (Number encoding)).
    + apply bind_run with (P := λ _, True); [done| |done].
      intros s [metadata|status|chunk encoding cb|cb|] _; try done.
      simpl. unfold ClientWritableStreamImpl._write, tryWrite.
      by destruct (ClientWritableStreamImpl.serialize s chunk).
  - intros this inputs effects. subst effects. unfold written, callbacks_taken.
    rewrite !(omap_as_bind (A := DuplexInput Req)). split.
    + apply bind_run with
        (P := λ s, ClientDuplexStreamImpl.serialize s =
                   ClientDuplexStreamImpl.serialize this); [| |done].
      * intros s i Hs. by rewrite duplex_step_serialize.
      * intros s [[metadata|data accepted| |status listened|size|]|chunk encoding cb|cb] Hs;
          simpl; rewrite ?pair_snd_let; try done.
        -- unfold on_data. destruct (ClientDuplexStreamImpl.deserialize s data); [|done].
           by destruct accepted.
        -- rewrite on_end_effects. by destruct (statusEmitted _).
        -- by apply omap_status_event.
        -- unfold ClientDuplexStreamImpl._write, tryWrite, write_object.
           rewrite Hs. destruct (ClientDuplexStreamImpl.serialize this chunk); [|done].
           simpl. by destruct (Number_isNaN (Number encoding)).
    + apply bind_run with (P := λ _, True); [done| |done].
      intros s [[metadata|data accepted| |status listened|size|]|chunk encoding cb|cb] _;
        simpl; rewrite ?pair_snd_let; try done.
      * unfold on_data. destruct (ClientDuplexStreamImpl.deserialize s data); [|done].
        by destruct accepted.
      * rewrite on_end_effects. by destruct (statusEmitted _).
      * by apply omap_status_event.
      * unfold ClientDuplexStreamImpl._write, tryWrite.
        by destruct (ClientDuplexStreamImpl.serialize s chunk).
Qed.


(** X6: back-pressure: on a call that emits no 'data' while paused, after a
    message that parsed and that the buffer of the stream did not accept
    ([push] returned false) the next 'data' event comes only after a
    [_read]. *)
Theorem refused_push_pauses (Req Resp : Type) (null : Resp -> bool)
    (Number : string -> JsNumber) :
  (∀ (this : ClientReadableStreamImpl.t Resp) (paused : bool)
     (inputs : list ReadableInput) result before data message between data' accepted' after,
     run_on_call (ClientReadableStreamImpl.step null) readable_is_data
       (ClientReadableStreamImpl.call this) paused this inputs = Some result →
     inputs = before ++ CallData data false :: between ++ CallData data' accepted' :: after →
     ClientReadableStreamImpl.deserialize this data = Normal message →
     ∃ size, StreamRead size ∈ between) ∧
  (∀ (this : ClientDuplexStreamImpl.t Req Resp) (paused : bool)
     (inputs : list (DuplexInput Req)) result before data message between data' accepted'
     after,
     run_on_call (ClientDuplexStreamImpl.step null Number) duplex_is_data
       (ClientDuplexStreamImpl.call this) paused this inputs = Some result →
     inputs = before ++ Readable (CallData data false) :: between ++
                Readable (CallData data' accepted') :: after →
     ClientDuplexStreamImpl.deserialize this data = Normal message →
     ∃ size, Readable (StreamRead size) ∈ between).
Proof.
  split.
  - intros this paused inputs result before data message between data' accepted' after
      Hrun Hinputs Hparsed.
    eapply run_on_call_refused
      with (view := Some) (setup_of := ClientReadableStreamImpl.setup)
           (deserialize_of := ClientReadableStreamImpl.deserialize)
           (i := CallData data false) (j := CallData data' accepted')
      in Hrun as (k & size & Hk & [= ->]); try readable_class; eauto.
  - intros this paused inputs result before data message between data' accepted' after
      Hrun Hinputs Hparsed.
    eapply run_on_call_refused
      with (view := readable_part) (setup_of := ClientDuplexStreamImpl.setup)
           (deserialize_of := ClientDuplexStreamImpl.deserialize)
           (i := Readable (CallData data false)) (j := Readable (CallData data' accepted'))
      in Hrun as (k & size & Hk & Hview); try duplex_class; eauto.
    destruct k as [r| |]; [|done..]. injection Hview as ->. eauto.
Qed.

Lemma refused_push_pauses_witness :
  let this := (ClientReadableStreamImpl.constructor 4 Samples.decode).1 in
  let inputs := [CallData [x01] false; StreamRead 16; CallData [x01] true] in
  run_on_call (ClientReadableStreamImpl.step Samples.null) readable_is_data 4 false this inputs =
    Some (this, [Push (Some (Samples.reply_text "pong")); CallDo 4 pause; CallDo 4 resume;
                 Push (Some (Samples.reply_text "pong"))]) ∧
  ∃ size, StreamRead size ∈ [StreamRead 16].
Proof.
  intros this inputs.
  assert (run_on_call (ClientReadableStreamImpl.step Samples.null) readable_is_data 4 false this inputs =
          Some (this, [Push (Some (Samples.reply_text "pong")); CallDo 4 pause;
                       CallDo 4 resume; Push (Some (Samples.reply_text "pong"))])) as Hrun
    by reflexivity.
  split; [exact Hrun|].
  exact (proj1 (refused_push_pauses string Samples.Reply Samples.null Samples.to_number)
           this false inputs _ [] [x01] (Samples.reply_text "pong") [StreamRead 16]
           [x01] true [] Hrun eq_refl eq_refl).
Defined.

(** X7: a duplex stream is a readable stream and a writable stream on one
    call: on the events of the call, [_read] and [cancel] it behaves as
    the readable stream with the same call, deserializer and listener
    state, and on [_write] and [_final] as the writable stream with the
    same call and serializer, which leave the readable side as it was. *)
Theorem duplex_is_readable_and_writable (Req Resp : Type) (null : Resp -> bool)
    (Number : string -> JsNumber) :
  (∀ (this : ClientDuplexStreamImpl.t Req Resp) (inputs : list ReadableInput),
     let after := run (ClientDuplexStreamImpl.step null Number) this (Readable <$> inputs) in
     run (ClientReadableStreamImpl.step null) (as_readable this) inputs =
       (as_readable after.1, after.2) ∧
     as_writable after.1 = as_writable this) ∧
  (∀ (this : ClientDuplexStreamImpl.t Req Resp) (inputs : list (DuplexInput Req))
     (writes : list (WritableInput Req)),
     mapM writable_part inputs = Some writes →
     let after := run (ClientDuplexStreamImpl.step null Number) this inputs in
     (run (ClientWritableStreamImpl.step Number) (as_writable this) writes).2 = after.2 ∧
     after.1 = this).
Proof.
  split.
  - intros this inputs. revert this.
    induction inputs as [|i rest IH]; intros this after; [done|].
    subst after. rewrite fmap_cons.
    assert (Hstep : ClientReadableStreamImpl.step null (as_readable this) i =
              (as_readable (ClientDuplexStreamImpl.step null Number this (Readable i)).1,
               (ClientDuplexStreamImpl.step null Number this (Readable i)).2) ∧
            as_writable (ClientDuplexStreamImpl.step null Number this (Readable i)).1 =
              as_writable this).
    { destruct i as [metadata|data accepted| |status listened|size|]; simpl; try done.
      - by destruct (on_data _ _ _ _ _ _).
      - by destruct (on_end _ _).
      - by destruct (status_event _ _ _). }
    destruct Hstep as [Hstep Hwritable].
    destruct (IH (ClientDuplexStreamImpl.step null Number this (Readable i)).1) as [Hrun Hkeep].
    split.
    + rewrite run_cons_state, run_cons_effects.
      cbn [run]. rewrite Hstep, Hrun. done.
    + rewrite run_cons_state. by rewrite Hkeep.
  - intros this inputs. revert this.
    induction inputs as [|i rest IH]; intros this writes Hwrites after.
    + by injection Hwrites as <-.
    + subst after. apply mapM_Some in Hwrites.
      apply Forall2_cons_inv_l in Hwrites as (w & ws & Hw & Hws & ->).
      apply mapM_Some in Hws.
      assert (Hstep : ClientDuplexStreamImpl.step null Number this i =
                (this, (ClientWritableStreamImpl.step Number (as_writable this) w).2)).
      { destruct i as [r|chunk encoding cb|cb]; [done|..]; by injection Hw as <-. }
      rewrite run_cons_state, !run_cons_effects, Hstep. simpl.
      destruct (IH this ws Hws) as [Heffs Hstate].
      rewrite Hstate. split; [|done]. rewrite <- Heffs. f_equal.
      by destruct w.
Qed.

Lemma duplex_is_readable_and_writable_witness :
  let this := (ClientDuplexStreamImpl.constructor 4 Samples.encode Samples.decode).1 in
  let inputs := [DuplexWrite "ping" "1" 7; DuplexFinal 8] in
  mapM writable_part inputs = Some [StreamWrite "ping" "1" 7; StreamFinal 8] ∧
  (run (ClientWritableStreamImpl.step Samples.to_number) (as_writable this)
     [StreamWrite "ping" "1" 7; StreamFinal 8]).2 =
    (run (ClientDuplexStreamImpl.step Samples.null Samples.to_number)
       this inputs).2.
Proof.
  intros this inputs. split; [reflexivity|].
  exact (proj1 (proj2 (duplex_is_readable_and_writable string Samples.Reply Samples.null Samples.to_number)
                  this inputs _ eq_refl)).
Defined.


(** X5: a surface cancels its call for three reasons only, each time once and
    with a fixed status: a message that does not parse (INTERNAL, 'Failed
    to parse server response'), a chunk that does not serialize (INTERNAL,
    'Serialization failure'), and [cancel()] from the application
    (CANCELLED, 'Cancelled on client'). *)
Theorem cancellations_accounted (Req Resp : Type) (null : Resp -> bool)
    (Number : string -> JsNumber) :
  (∀ (this : ClientReadableStreamImpl.t Resp) (inputs : list ReadableInput),
     cancellations (run (ClientReadableStreamImpl.step null) this inputs).2 =
       omap (λ i, match i with
                  | CallData data _ =>
                      match ClientReadableStreamImpl.deserialize this data with
                      | Throw _ => Some (INTERNAL, "Failed to parse server response")
                      | Normal _ => None
                      end
                  | AppCancel => Some (CANCELLED, "Cancelled on client")
                  | _ => None
                  end) inputs) ∧
  (∀ (this : ClientWritableStreamImpl.t Req) (inputs : list (WritableInput Req)),
     cancellations (Resp := Resp)
         (run (ClientWritableStreamImpl.step Number) this inputs).2 =
       omap (λ i, match i with
                  | StreamWrite chunk _ _ =>
                      match ClientWritableStreamImpl.serialize this chunk with
                      | Throw _ => Some (INTERNAL, "Serialization failure")
                      | Normal _ => None
                      end
                  | WAppCancel => Some (CANCELLED, "Cancelled on client")
                  | _ => None
                  end) inputs) ∧
  (∀ (this : ClientDuplexStreamImpl.t Req Resp) (inputs : list (DuplexInput Req)),
     cancellations (run (ClientDuplexStreamImpl.step null Number) this inputs).2 =
       omap (λ i, match i with
                  | Readable (CallData data _) =>
                      match ClientDuplexStreamImpl.deserialize this data with
                      | Throw _ => Some (INTERNAL, "Failed to parse server response")
                      | Normal _ => None
                      end
                  | DuplexWrite chunk _ _ =>
                      match ClientDuplexStreamImpl.serialize this chunk with
                      | Throw _ => Some (INTERNAL, "Serialization failure")
                      | Normal _ => None
                      end
                  | Readable AppCancel => Some (CANCELLED, "Cancelled on client")
                  | _ => None
                  end) inputs).
Proof.
  split; [|split].
  - intros this inputs. unfold cancellations.
    rewrite (omap_as_bind (A := ReadableInput)).
    apply bind_run with
      (P := λ s, ClientReadableStreamImpl.deserialize s =
                 ClientReadableStreamImpl.deserialize this); [| |done].
    + intros s i Hs. by rewrite readable_step_deserialize.
    + intros s [metadata|data accepted| |status listened|size|] Hs;
        simpl; rewrite ?pair_snd_let; try done.
      * unfold on_data. rewrite Hs.
        destruct (ClientReadableStreamImpl.deserialize this data); [|done].
        by destruct accepted.
      * rewrite on_end_effects. by destruct (statusEmitted _).
      * by apply omap_status_event.
  - intros this inputs. unfold cancellations.
    rewrite (omap_as_bind (A := WritableInput Req)).
    apply bind_run with
      (P := λ s, ClientWritableStreamImpl.serialize s =
                 ClientWritableStreamImpl.serialize this); [| |done].
    + by intros s [].
    + intros s [metadata|status|chunk encoding cb|cb|] Hs; try done.
      simpl. unfold ClientWritableStreamImpl._write, tryWrite. rewrite Hs.
      by destruct (ClientWritableStreamImpl.serialize this chunk).
  - intros this inputs. unfold cancellations.
    rewrite (omap_as_bind (A := DuplexInput Req)).
    apply bind_run with
      (P := λ s, ClientDuplexStreamImpl.deserialize s =
                 ClientDuplexStreamImpl.deserialize this ∧
                 ClientDuplexStreamImpl.serialize s =
                 ClientDuplexStreamImpl.serialize this); [| |done].
    + intros s i Hs. by rewrite duplex_step_deserialize, duplex_step_serialize.
    + intros s [[metadata|data accepted| |status listened|size|]|chunk encoding cb|cb] [Hd Hs];
        simpl; rewrite ?pair_snd_let; try done.
      * unfold on_data. rewrite Hd.
        destruct (ClientDuplexStreamImpl.deserialize this data); [|done].
        by destruct accepted.
      * rewrite on_end_effects. by destruct (statusEmitted _).
      * by apply omap_status_event.
      * unfold ClientDuplexStreamImpl._write, tryWrite. rewrite Hs.
        by destruct (ClientDuplexStreamImpl.serialize this chunk).
Qed.

End CallSurfaceMoreProps.

(** ** More of client.ts: the response handler, the requests, waitForReady *)

Module ClientMoreProps.
Import Constants CallStream CallSurface Client Observe.

(** *** The unary response handler over whole runs *)
Section UnaryHandlerRuns.
Context {Resp : Type} (nullish : Resp -> bool).
Implicit Types (h : Handler Resp).

Lemma cancellations_app (a b : list (Effect Resp)) :
  cancellations (a ++ b) = cancellations a ++ cancellations b.
Proof. apply omap_app. Qed.

Lemma unary_callbacks_app (a b : list (Effect Resp)) :
  unary_callbacks (a ++ b) = unary_callbacks a ++ unary_callbacks b.
Proof. apply omap_app. Qed.

(** Only the listener of 'status' invokes the callback. *)
Lemma handle_callbacks h (ev : CallEvent) :
  unary_callbacks (handle nullish h ev).2 =
    match ev with
    | EvStatus status =>
        [(callback h,
          if decide (code status = OK) then None else Some (ServiceError_of status),
          if decide (code status = OK) then responseMessage h else None)]
    | _ => []
    end.
Proof.
  rewrite ClientProps.handle_effects. destruct ev as [metadata|data| |status]; try done.
  - unfold on_data. destruct (is_null nullish (responseMessage h));
      by destruct (deserialize h data).
  - unfold on_end. by destruct (is_null nullish (responseMessage h)).
  - unfold on_status. by destruct (decide (code status = OK)).
Qed.

Lemma run_handle_callback h (events : list CallEvent) :
  callback (run (handle nullish) h events).1 = callback h.
Proof. by destruct (ClientProps.run_handler_fixed nullish h events) as (_ & _ & ->). Qed.

End UnaryHandlerRuns.


(** X8: the callback of a unary or client-stream request is invoked once for
    each 'status' event of the call and at no other time, with an error
    built from the status exactly when its code is not OK.  On a call that
    emits metadata, data, end and status in that order it is invoked
    exactly once, as the last thing the handler does, and with no response
    when there is an error. *)
Theorem callback_once_per_status (Resp : Type) (nullish : Resp -> bool) :
  (∀ (h : Handler Resp) (events : list CallEvent),
     (λ invocation, (invocation.1.1, invocation.1.2)) <$>
       unary_callbacks (run (handle nullish) h events).2 =
     omap (λ ev, match ev with
                 | EvStatus status =>
                     Some (callback h,
                           if decide (code status = OK) then None
                           else Some (ServiceError_of status))
                 | _ => None
                 end) events) ∧
  (∀ (h : Handler Resp) (metadata : Metadata) (messages : list Buffer)
     (status : StatusObject),
     let events := EvMetadata metadata :: (EvData <$> messages) ++ [EvEnd; EvStatus status] in
     ∃ before recorded,
       (run (handle nullish) h events).2 =
         before ++
         [InvokeUnaryCb (callback h)
            (if decide (code status = OK) then None else Some (ServiceError_of status))
            (if decide (code status = OK) then recorded else None)] ∧
       unary_callbacks before = []).
Proof.
  assert (Hmap : ∀ (h : Handler Resp) (events : list CallEvent),
     (λ invocation, (invocation.1.1, invocation.1.2)) <$>
       unary_callbacks (run (handle nullish) h events).2 =
     omap (λ ev, match ev with
                 | EvStatus status =>
                     Some (callback h,
                           if decide (code status = OK) then None
                           else Some (ServiceError_of status))
                 | _ => None
                 end) events).
  { intros h events. revert h. induction events as [|ev rest IH]; intros h; [done|].
    rewrite CallSurfaceProps.run_cons_effects, unary_callbacks_app, fmap_app.
    rewrite handle_callbacks, IH. cbn [omap list_omap].
    rewrite ClientProps.handle_handler. simpl. by destruct ev. }
  split; [exact Hmap|].
  intros h metadata messages status events. subst events.
  replace (EvMetadata metadata :: (EvData <$> messages) ++ [EvEnd; EvStatus status])
    with ((EvMetadata metadata :: (EvData <$> messages) ++ [EvEnd]) ++ [EvStatus status])
    by (simpl; by rewrite <- app_assoc).
  set (first := EvMetadata metadata :: (EvData <$> messages) ++ [EvEnd]).
  rewrite CallSurfaceMoreProps.run_app_effects.
  exists (run (handle nullish) h first).2,
         (responseMessage (run (handle nullish) h first).1).
  split.
  - f_equal. rewrite CallSurfaceProps.run_cons_effects. cbn [run snd].
    rewrite app_nil_r, ClientProps.handle_effects. unfold on_status.
    rewrite run_handle_callback. by destruct (decide (code status = OK)).
  - eapply fmap_nil_inv. rewrite Hmap.
    apply CallSurfaceMoreProps.omap_none. intros ev Hev. subst first.
    apply elem_of_cons in Hev as [->|Hev]; [done|].
    apply elem_of_app in Hev as [Hev|Hev].
    + by apply list_elem_of_fmap in Hev as (data & -> & _).
    + by apply list_elem_of_singleton in Hev as ->.
Qed.

(** X9: the invariant that the handler's 'status' listener relies on, as far
    as the handler itself can keep it: when the deserializer never yields
    null or undefined, on a call that emits metadata, data and end in that
    order the handler has asked for no cancellation by the time 'status'
    comes exactly when one message came and it parsed; and then that
    message is the recorded response. *)
Theorem no_cancellation_iff_one_response (Resp : Type) (nullish : Resp -> bool)
    (call : Call) (deserialize : Buffer -> completion Resp) (callback : Callback)
    (metadata : Metadata) (messages : list Buffer) :
  (∀ data message, deserialize data = Normal message → nullish message = false) →
  let h0 := (handleUnaryResponse call deserialize callback).1 in
  let after := run (handle nullish) h0
                 (EvMetadata metadata :: (EvData <$> messages) ++ [EvEnd]) in
  (cancellations after.2 = [] ↔
   ∃ data message, messages = [data] ∧ deserialize data = Normal message) ∧
  (∀ data message, messages = [data] → deserialize data = Normal message →
   responseMessage after.1 = Some message).
Proof.
  intros Hvalues h0 after. subst after.
  rewrite CallSurfaceProps.run_cons_effects, CallSurfaceProps.run_cons_state.
  change (handle nullish h0 (EvMetadata metadata)).1 with h0.
  change (handle nullish h0 (EvMetadata metadata)).2 with (@nil (Effect Resp)).
  rewrite app_nil_l.
  destruct messages as [|first [|second rest]].
  - split; [|done]. split; [done|]. by intros (data & message & ? & _).
  - change (EvData <$> [first]) with [EvData first]. cbn [app].
    rewrite !CallSurfaceProps.run_cons_effects, !CallSurfaceProps.run_cons_state.
    cbn [run fst snd]. rewrite app_nil_r, cancellations_app.
    rewrite !ClientProps.handle_effects, !ClientProps.handle_handler.
    cbn [Client.call Client.deserialize Client.callback responseMessage].
    unfold on_data, on_end. change (responseMessage h0) with (@None Resp).
    change (Client.deserialize h0) with deserialize.
    cbn [is_null negb]. destruct (deserialize first) as [message|e] eqn:Hfirst.
    + cbn [fst snd is_null]. rewrite (Hvalues _ _ Hfirst). split.
      * split; [eauto|done].
      * intros data message' [= <-] Hdata. congruence.
    + cbn [fst snd]. split.
      * split; [done|]. intros (data & message & [= <-] & Hdata). congruence.
      * intros data message [= <-] Hdata. congruence.
  - split; [|done]. split; [|by intros (data & message & ? & _)].
    intros Hnone. exfalso. revert Hnone.
    rewrite !fmap_cons, <- !app_comm_cons.
    rewrite !CallSurfaceProps.run_cons_effects, !cancellations_app.
    rewrite !ClientProps.handle_effects, !ClientProps.handle_handler.
    cbn [Client.call Client.deserialize Client.callback responseMessage].
    unfold on_data. change (responseMessage h0) with (@None Resp).
    change (Client.deserialize h0) with deserialize.
    cbn [is_null negb]. destruct (deserialize first) as [message|e] eqn:Hfirst; [|done].
    cbn [fst snd is_null]. rewrite (Hvalues _ _ Hfirst).
    by destruct (deserialize second).
Qed.

Lemma no_cancellation_iff_one_response_witness :
  let parse := λ data : Buffer,
    match data with
    | x00 :: _ => Throw (JsError "unexpected tag")
    | _ => Normal (Samples.reply_text "pong")
    end in
  let h0 := (handleUnaryResponse 3 parse 9).1 in
  let after := run (handle Samples.nullish) h0
                 (EvMetadata Metadata_new :: (EvData <$> [[x01]]) ++ [EvEnd]) in
  (∀ data message, parse data = Normal message → Samples.nullish message = false) ∧
  responseMessage after.1 = Some (Samples.reply_text "pong").
Proof.
  intros parse h0 after.
  assert (Hvalues : ∀ data message,
            parse data = Normal message → Samples.nullish message = false).
  { intros [|b data] message; [by intros [= <-]|]. destruct b; by intros [= <-]. }
  split; [exact Hvalues|].
  exact (proj2 (no_cancellation_iff_one_response Samples.Reply Samples.nullish 3 parse 9
                  Metadata_new [[x01]] Hvalues)
           [x01] (Samples.reply_text "pong") eq_refl eq_refl).
Defined.


(** X10: the surface of a unary request emits the 'metadata' and the 'status'
    of its call, in order, and never 'error'; on a 'status' event the
    callback of the request is invoked first, with for only argument the
    error when the code is not OK, and then the surface emits 'status'. *)
Theorem unary_surface_forwards (Resp : Type) (nullish : Resp -> bool) :
  (∀ (this : UnaryCall.t) (events : list CallEvent),
     emitted (run (UnaryCall.dispatch nullish) this events).2 =
       events ≫= (λ ev, match ev with
                        | EvMetadata metadata => forwarded false (CallMetadata metadata)
                        | EvStatus status => forwarded false (CallStatus status true)
                        | _ => []
                        end)) ∧
  (∀ (this : UnaryCall.t (Resp := Resp)) (status : StatusObject),
     (UnaryCall.dispatch nullish this (EvStatus status)).2 =
       [InvokeUnaryCb (callback this.2)
          (if decide (code status = OK) then None else Some (ServiceError_of status))
          (if decide (code status = OK) then responseMessage this.2 else None);
        Emit (emit_status status)]).
Proof.
  split.
  - intros this events. unfold emitted.
    apply CallSurfaceMoreProps.bind_run with (P := λ _, True); [done| |done].
    intros [surface h] ev _. unfold UnaryCall.dispatch.
    rewrite (ClientProps.handle_pair nullish). cbv beta iota.
    cbn [fst snd]. rewrite omap_app, ClientProps.handle_effects.
    destruct ev as [metadata|data| |status]; try done.
    + unfold on_data. destruct (is_null nullish (responseMessage h));
        by destruct (deserialize h data).
    + unfold on_end. by destruct (is_null nullish (responseMessage h)).
    + unfold on_status. by destruct (decide (code status = OK)).
  - intros [surface h] status. unfold UnaryCall.dispatch.
    rewrite (ClientProps.handle_pair nullish). cbv beta iota. cbn [fst snd].
    rewrite ClientProps.handle_effects. unfold on_status.
    by destruct (decide (code status = OK)).
Qed.


(** *** The four request methods *)
Section RequestResults.
Import RequestObserve.
Context {Channel Req Resp : Type}.
Implicit Types (this : Client.t Channel) (w : World Channel Resp).

(** The world after the lines that create the call. *)
Lemma create_call_with_result this (method : string) (options : CallOptions) w :
  create_call_with this method options w =
    (Normal (next_call w),
     {| trace := trace w ++
                 CreateCall (kChannel this) method (deadline options) (host options)
                   (parent options) (propagate_flags options) ::
                 (Did <$> (CallDo (next_call w) <$> credentials_set options));
        next_call := S (next_call w) |}).
Proof.
  unfold create_call_with, bind, createCall, perform, ret, credentials_set.
  destruct (credentials options) as [c|]; simpl; [|done].
  by rewrite <- app_assoc.
Qed.

Lemma on_one_call_intro w (after : World Channel Resp) (succeeded : bool)
    (channel : Channel) (method : string) (deadline : option Deadline)
    (host : option string) (parent : option Call) (propagate_flags : option JsNumber)
    (operations : list CallOp) :
  after = {| trace := trace w ++
                      CreateCall channel method deadline host parent propagate_flags ::
                      (Did <$> (CallDo (next_call w) <$> operations));
             next_call := S (next_call w) |} →
  on_one_call w after succeeded.
Proof.
  intros ->. eexists. split; [done|].
  assert (Hnone : ∀ ops : list CallOp,
    omap (λ e : RequestEffect Channel Resp,
            match e with CreateCall _ _ _ _ _ _ => Some tt | Did _ => None end)
      (Did <$> (CallDo (next_call w) <$> ops)) = []).
  { induction ops as [|op ops IH]; [done|]. by rewrite !fmap_cons. }
  unfold calls_created, acted_on. cbn [omap list_omap]. rewrite Hnone. simpl.
  repeat split; [lia|lia|].
  induction operations as [|op ops IH]; [done|].
  rewrite !fmap_cons. cbn [omap list_omap]. by constructor.
Qed.

(** What each method does once its arguments are resolved. *)
Lemma unary_request_result this (method : string)
    (serialize : Req -> completion Buffer) (deserialize : Buffer -> completion Resp)
    (argument : Req) arg1 arg2 arg3 (r : Resolved.t) w :
  checkOptionalUnaryResponseArguments arg1 arg2 arg3 = Normal r →
  let call := next_call w in
  let options := Resolved.options r in
  let created := CreateCall (kChannel this) method (deadline options) (host options)
                   (parent options) (propagate_flags options) in
  makeUnaryRequest this method serialize deserialize argument arg1 arg2 arg3 w =
    match serialize argument with
    | Throw e =>
        (Throw e,
         {| trace := trace w ++ created :: (Did <$> (CallDo call <$> credentials_set options));
            next_call := S call |})
    | Normal message =>
        (Normal ({| ClientUnaryCallImpl.call := call |},
                 {| Client.call := call; Client.deserialize := deserialize;
                    callback := Resolved.callback r; responseMessage := None |}),
         {| trace := trace w ++ created ::
              (Did <$> (CallDo call <$>
                 (credentials_set options ++
                  [sendMetadata (Resolved.metadata r);
                   write {| message := message; flags := None |} None; end_;
                   on ev_data; on ev_end; on ev_status; on ev_metadata; on ev_status])));
            next_call := S call |})
    end.
Proof.
  intros Hcheck call options created.
  unfold makeUnaryRequest, bind at 1, evaluate at 1. rewrite Hcheck.
  unfold bind at 1. rewrite create_call_with_result.
  unfold bind, evaluate, perform, construct, ret, bind.
  destruct (serialize argument) as [message|e]; [|done].
  simpl. f_equal. f_equal. rewrite <- !app_assoc. simpl.
  rewrite !fmap_app. simpl. by rewrite <- ?app_assoc.
Qed.

Lemma client_stream_request_result this (method : string)
    (serialize : Req -> completion Buffer) (deserialize : Buffer -> completion Resp)
    arg1 arg2 arg3 (r : Resolved.t) w :
  checkOptionalUnaryResponseArguments arg1 arg2 arg3 = Normal r →
  let call := next_call w in
  let options := Resolved.options r in
  makeClientStreamRequest this method serialize deserialize arg1 arg2 arg3 w =
    (Normal ({| ClientWritableStreamImpl.call := call;
                ClientWritableStreamImpl.serialize := serialize |},
             {| Client.call := call; Client.deserialize := deserialize;
                callback := Resolved.callback r; responseMessage := None |}),
     {| trace := trace w ++
          CreateCall (kChannel this) method (deadline options) (host options)
            (parent options) (propagate_flags options) ::
          (Did <$> (CallDo call <$>
             (credentials_set options ++
              [sendMetadata (Resolved.metadata r);
               on ev_data; on ev_end; on ev_status; on ev_metadata; on ev_status])));
        next_call := S call |}).
Proof.
  intros Hcheck call options.
  unfold makeClientStreamRequest, bind at 1, evaluate at 1. rewrite Hcheck.
  unfold bind at 1. rewrite create_call_with_result.
  unfold bind, evaluate, perform, construct, ret, bind.
  simpl. f_equal. f_equal. rewrite <- !app_assoc. simpl.
  rewrite !fmap_app. simpl. by rewrite <- ?app_assoc.
Qed.

Lemma server_stream_request_result this (method : string)
    (serialize : Req -> completion Buffer) (deserialize : Buffer -> completion Resp)
    (argument : Req) arg1 arg2 w :
  let call := next_call w in
  let r := checkMetadataAndOptions arg1 arg2 in
  let options := MetadataAndOptions.options r in
  let created := CreateCall (kChannel this) method (deadline options) (host options)
                   (parent options) (propagate_flags options) in
  makeServerStreamRequest this method serialize deserialize argument arg1 arg2 w =
    match serialize argument with
    | Throw e =>
        (Throw e,
         {| trace := trace w ++ created :: (Did <$> (CallDo call <$> credentials_set options));
            next_call := S call |})
    | Normal message =>
        (Normal {| ClientReadableStreamImpl.call := call;
                   ClientReadableStreamImpl.deserialize := deserialize;
                   ClientReadableStreamImpl.setup :=
                     {| statusEmitted := false; pendingOnce := 0 |} |},
         {| trace := trace w ++ created ::
              (Did <$> (CallDo call <$>
                 (credentials_set options ++
                  [sendMetadata (MetadataAndOptions.metadata r);
                   write {| message := message; flags := None |} None; end_;
                   on ev_metadata; on ev_data; on ev_end; on ev_status; pause])));
            next_call := S call |})
    end.
Proof.
  intros call r options created.
  unfold makeServerStreamRequest. fold r. fold options.
  unfold bind at 1. rewrite create_call_with_result.
  unfold bind, evaluate, perform, construct, ret, bind.
  destruct (serialize argument) as [message|e]; [|done].
  simpl. f_equal. f_equal. rewrite <- !app_assoc. simpl.
  rewrite !fmap_app. simpl. by rewrite <- ?app_assoc.
Qed.

Lemma bidi_request_result this (method : string)
    (serialize : Req -> completion Buffer) (deserialize : Buffer -> completion Resp)
    arg1 arg2 w :
  let call := next_call w in
  let r := checkMetadataAndOptions arg1 arg2 in
  let options := MetadataAndOptions.options r in
  makeBidiStreamRequest this method serialize deserialize arg1 arg2 w =
    (Normal {| ClientDuplexStreamImpl.call := call;
               ClientDuplexStreamImpl.serialize := serialize;
               ClientDuplexStreamImpl.deserialize := deserialize;
               ClientDuplexStreamImpl.setup :=
                 {| statusEmitted := false; pendingOnce := 0 |} |},
     {| trace := trace w ++
          CreateCall (kChannel this) method (deadline options) (host options)
            (parent options) (propagate_flags options) ::
          (Did <$> (CallDo call <$>
             (credentials_set options ++
              [sendMetadata (MetadataAndOptions.metadata r);
               on ev_metadata; on ev_data; on ev_end; on ev_status; pause])));
        next_call := S call |}).
Proof.
  intros call r options.
  unfold makeBidiStreamRequest. fold r. fold options.
  unfold bind at 1. rewrite create_call_with_result.
  unfold bind, evaluate, perform, construct, ret, bind.
  simpl. f_equal. f_equal. rewrite <- !app_assoc. simpl.
  rewrite !fmap_app. simpl. by rewrite <- ?app_assoc.
Qed.

End RequestResults.


(** X11: each of the four request methods works on one call of the client's
    channel: it creates at most one call, exactly one when it returns;
    every operation it does on a call is on that one; and the surface and
    the response handler it leaves behind hold that call. *)
Theorem request_acts_on_one_call (Channel Req Resp : Type) :
  (∀ (this : Client.t Channel) (method : string) (serialize : Req -> completion Buffer)
     (deserialize : Buffer -> completion Resp) (argument : Req) arg1 arg2 arg3
     (w : World Channel Resp),
     let out := makeUnaryRequest this method serialize deserialize argument
                  arg1 arg2 arg3 w in
     RequestObserve.on_one_call w out.2 (RequestObserve.returned out.1) ∧
     ∀ surface handler, out.1 = Normal (surface, handler) →
       ClientUnaryCallImpl.call surface = next_call w ∧ call handler = next_call w) ∧
  (∀ (this : Client.t Channel) (method : string) (serialize : Req -> completion Buffer)
     (deserialize : Buffer -> completion Resp) arg1 arg2 arg3 (w : World Channel Resp),
     let out := makeClientStreamRequest this method serialize deserialize
                  arg1 arg2 arg3 w in
     RequestObserve.on_one_call w out.2 (RequestObserve.returned out.1) ∧
     ∀ surface handler, out.1 = Normal (surface, handler) →
       ClientWritableStreamImpl.call surface = next_call w ∧ call handler = next_call w) ∧
  (∀ (this : Client.t Channel) (method : string) (serialize : Req -> completion Buffer)
     (deserialize : Buffer -> completion Resp) (argument : Req) arg1 arg2
     (w : World Channel Resp),
     let out := makeServerStreamRequest this method serialize deserialize argument
                  arg1 arg2 w in
     RequestObserve.on_one_call w out.2 (RequestObserve.returned out.1) ∧
     ∀ surface, out.1 = Normal surface →
       ClientReadableStreamImpl.call surface = next_call w) ∧
  (∀ (this : Client.t Channel) (method : string) (serialize : Req -> completion Buffer)
     (deserialize : Buffer -> completion Resp) arg1 arg2 (w : World Channel Resp),
     let out := makeBidiStreamRequest this method serialize deserialize arg1 arg2 w in
     RequestObserve.on_one_call w out.2 (RequestObserve.returned out.1) ∧
     ∀ surface, out.1 = Normal surface →
       ClientDuplexStreamImpl.call surface = next_call w).
Proof.
  assert (Hnothing : ∀ w : World Channel Resp, RequestObserve.on_one_call w w false).
  { intros w. exists []. rewrite app_nil_r.
    unfold RequestObserve.calls_created. simpl. repeat split; try done; lia. }
  split; [|split; [|split]].
  - intros this method serialize deserialize argument arg1 arg2 arg3 w out. subst out.
    destruct (checkOptionalUnaryResponseArguments arg1 arg2 arg3) as [r|e] eqn:Hcheck.
    + rewrite (unary_request_result _ _ _ _ _ _ _ _ _ _ Hcheck).
      destruct (serialize argument) as [message|e]; cbn [fst snd].
      * split; [by eapply on_one_call_intro|]. by intros surface handler [= <- <-].
      * split; [|done]. by eapply on_one_call_intro.
    + unfold makeUnaryRequest, bind at 1, evaluate at 1. rewrite Hcheck.
      cbn [fst snd]. by split.
  - intros this method serialize deserialize arg1 arg2 arg3 w out. subst out.
    destruct (checkOptionalUnaryResponseArguments arg1 arg2 arg3) as [r|e] eqn:Hcheck.
    + rewrite (client_stream_request_result _ _ _ _ _ _ _ _ _ Hcheck). cbn [fst snd].
      split; [by eapply on_one_call_intro|]. by intros surface handler [= <- <-].
    + unfold makeClientStreamRequest, bind at 1, evaluate at 1. rewrite Hcheck.
      cbn [fst snd]. by split.
  - intros this method serialize deserialize argument arg1 arg2 w out. subst out.
    rewrite server_stream_request_result.
    destruct (serialize argument) as [message|e]; cbn [fst snd].
    + split; [by eapply on_one_call_intro|]. by intros surface [= <-].
    + split; [|done]. by eapply on_one_call_intro.
  - intros this method serialize deserialize arg1 arg2 w out. subst out.
    rewrite bidi_request_result. cbn [fst snd].
    split; [by eapply on_one_call_intro|]. by intros surface [= <-].
Qed.

Lemma request_acts_on_one_call_witness :
  let this := {| kChannel := "channel" |} in
  let out := makeBidiStreamRequest (Resp := Samples.Reply) this "/svc/M"
               Samples.encode Samples.decode None None (world_at 3) in
  ∃ surface, out.1 = Normal surface ∧ ClientDuplexStreamImpl.call surface = 3.
Proof.
  intros this out. eexists. split; [reflexivity|].
  exact (proj2 (proj2 (proj2 (proj2
                  (request_acts_on_one_call string string Samples.Reply)))
                  this "/svc/M" Samples.encode Samples.decode None None (world_at 3))
           _ eq_refl).
Defined.

(** X12: when the serializer throws on the argument of a unary or server-stream
    request, the method throws what the serializer threw after it has
    created the call and given it the credentials, and it has done nothing
    else: the call has been sent no metadata, no message and no
    half-close, has no listener, and is not cancelled. *)
Theorem request_serializer_throws (Channel Req Resp : Type) (this : Client.t Channel)
    (method : string) (serialize : Req -> completion Buffer)
    (deserialize : Buffer -> completion Resp) (argument : Req) (e : Thrown)
    (w : World Channel Resp) :
  serialize argument = Throw e →
  (∀ arg1 arg2 arg3 (r : Resolved.t),
     checkOptionalUnaryResponseArguments arg1 arg2 arg3 = Normal r →
     let options := Resolved.options r in
     makeUnaryRequest this method serialize deserialize argument arg1 arg2 arg3 w =
       (Throw e,
        {| trace := trace w ++
             CreateCall (kChannel this) method (deadline options) (host options)
               (parent options) (propagate_flags options) ::
             (Did <$> (CallDo (next_call w) <$> RequestObserve.credentials_set options));
           next_call := S (next_call w) |})) ∧
  (∀ arg1 arg2,
     let options := MetadataAndOptions.options (checkMetadataAndOptions arg1 arg2) in
     makeServerStreamRequest this method serialize deserialize argument arg1 arg2 w =
       (Throw e,
        {| trace := trace w ++
             CreateCall (kChannel this) method (deadline options) (host options)
               (parent options) (propagate_flags options) ::
             (Did <$> (CallDo (next_call w) <$> RequestObserve.credentials_set options));
           next_call := S (next_call w) |})).
Proof.
  intros Hthrow. split.
  - intros arg1 arg2 arg3 r Hcheck options.
    by rewrite (unary_request_result _ _ _ _ _ _ _ _ _ _ Hcheck), Hthrow.
  - intros arg1 arg2 options. by rewrite server_stream_request_result, Hthrow.
Qed.

Lemma request_serializer_throws_witness :
  let options := {| deadline := None; host := None; parent := None;
                    propagate_flags := None; credentials := Some 7 |} in
  makeServerStreamRequest (Resp := Samples.Reply) {| kChannel := "channel" |} "/svc/M"
    Samples.encode Samples.decode "" (Some (an_options options)) None (world_at 0) =
    (Throw (JsError "empty request"),
     {| trace := [CreateCall "channel" "/svc/M" None None None None;
                  Did (CallDo 0 (setCredentials 7))];
        next_call := 1 |}).
Proof.
  intros options.
  exact (proj2 (request_serializer_throws string string Samples.Reply
                  {| kChannel := "channel" |} "/svc/M" Samples.encode Samples.decode ""
                  (JsError "empty request") (world_at 0) eq_refl)
           (Some (an_options options)) None).
Defined.

(** X13: the order of a request that goes through.  A unary or server-stream
    request sends the metadata, writes the serialized argument once, with
    no flags and no callback, and half-closes the call, before any listener
    is installed; a client-stream or bidi request sends the metadata
    and writes nothing and does not half-close.  The response handler
    installs its listeners before the surface does, and a readable or
    duplex surface pauses the call last. *)
Theorem request_order (Channel Req Resp : Type) (this : Client.t Channel)
    (method : string) (serialize : Req -> completion Buffer)
    (deserialize : Buffer -> completion Resp) (w : World Channel Resp) :
  (∀ (argument : Req) (message : Buffer) arg1 arg2 arg3 (r : Resolved.t),
     checkOptionalUnaryResponseArguments arg1 arg2 arg3 = Normal r →
     serialize argument = Normal message →
     RequestObserve.operations
       (drop (length (trace w))
          (trace (makeUnaryRequest this method serialize deserialize argument
                    arg1 arg2 arg3 w).2)) =
       RequestObserve.credentials_set (Resolved.options r) ++
       [sendMetadata (Resolved.metadata r);
        write {| message := message; flags := None |} None; end_;
        on ev_data; on ev_end; on ev_status; on ev_metadata; on ev_status]) ∧
  (∀ arg1 arg2 arg3 (r : Resolved.t),
     checkOptionalUnaryResponseArguments arg1 arg2 arg3 = Normal r →
     RequestObserve.operations
       (drop (length (trace w))
          (trace (makeClientStreamRequest this method serialize deserialize
                    arg1 arg2 arg3 w).2)) =
       RequestObserve.credentials_set (Resolved.options r) ++
       [sendMetadata (Resolved.metadata r);
        on ev_data; on ev_end; on ev_status; on ev_metadata; on ev_status]) ∧
  (∀ (argument : Req) (message : Buffer) arg1 arg2,
     serialize argument = Normal message →
     let r := checkMetadataAndOptions arg1 arg2 in
     RequestObserve.operations
       (drop (length (trace w))
          (trace (makeServerStreamRequest this method serialize deserialize argument
                    arg1 arg2 w).2)) =
       RequestObserve.credentials_set (MetadataAndOptions.options r) ++
       [sendMetadata (MetadataAndOptions.metadata r);
        write {| message := message; flags := None |} None; end_;
        on ev_metadata; on ev_data; on ev_end; on ev_status; pause]) ∧
  (∀ arg1 arg2,
     let r := checkMetadataAndOptions arg1 arg2 in
     RequestObserve.operations
       (drop (length (trace w))
          (trace (makeBidiStreamRequest this method serialize deserialize
                    arg1 arg2 w).2)) =
       RequestObserve.credentials_set (MetadataAndOptions.options r) ++
       [sendMetadata (MetadataAndOptions.metadata r);
        on ev_metadata; on ev_data; on ev_end; on ev_status; pause]).
Proof.
  assert (Hops : ∀ channel name deadline host parent propagate_flags
                    (ops : list CallOp) (c : Call),
    RequestObserve.operations
      (drop (length (trace w))
         (trace w ++
          CreateCall channel name deadline host parent propagate_flags ::
          (Did <$> (CallDo c <$> ops)))) = ops).
  { intros channel name deadline host parent propagate_flags ops c.
    rewrite drop_app_length.
    unfold RequestObserve.operations. cbn [omap list_omap].
    induction ops as [|op ops IH]; [done|]. rewrite !fmap_cons. cbn [omap list_omap].
    by rewrite IH. }
  split; [|split; [|split]].
  - intros argument message arg1 arg2 arg3 r Hcheck Hmessage.
    rewrite (unary_request_result _ _ _ _ _ _ _ _ _ _ Hcheck), Hmessage. cbn [snd trace].
    by apply Hops.
  - intros arg1 arg2 arg3 r Hcheck.
    rewrite (client_stream_request_result _ _ _ _ _ _ _ _ _ Hcheck). cbn [snd trace].
    by apply Hops.
  - intros argument message arg1 arg2 Hmessage r.
    rewrite server_stream_request_result, Hmessage. cbn [snd trace]. by apply Hops.
  - intros arg1 arg2 r. rewrite bidi_request_result. cbn [snd trace]. by apply Hops.
Qed.

Lemma request_order_witness :
  RequestObserve.operations
    (drop 0
       (trace (makeServerStreamRequest (Resp := Samples.Reply) {| kChannel := "channel" |}
                 "/svc/M" Samples.encode Samples.decode "ping" None None (world_at 0)).2)) =
    [sendMetadata Metadata_new; write {| message := [x01]; flags := None |} None; end_;
     on ev_metadata; on ev_data; on ev_end; on ev_status; pause].
Proof.
  exact (proj1 (proj2 (proj2 (request_order string string Samples.Reply
                  {| kChannel := "channel" |} "/svc/M" Samples.encode Samples.decode
                  (world_at 0))))
           "ping" [x01] None None eq_refl).
Defined.


(** *** waitForReady *)
Section Waiting.
Import WaitForReady.
Context {Channel : Type}.
Implicit Types (this : Client.t Channel) (rounds : list Round).

Lemma checks_shape this (deadline : Deadline) rounds :
  ∃ polls outcome,
    checks this deadline rounds = (polls ≫= poll this deadline) ++ outcome ∧
    Forall2 watches (take (length polls) rounds) polls ∧
    ends_with this deadline (rounds !! length polls) outcome.
Proof.
  induction rounds as [|round rest IH].
  - exists [], []. split; [done|]. split; [constructor|done].
  - cbn [checks]. unfold checkState.
    destruct (err round) eqn:Herr.
    { exists []. eexists. split; [reflexivity|]. split; [constructor|].
      simpl. by rewrite Herr. }
    destruct (connectivity round) as [state|e] eqn:Hstate.
    2:{ exists []. eexists. split; [reflexivity|]. split; [constructor|].
        simpl. by rewrite Herr, Hstate. }
    destruct (decide (state = READY)) as [->|Hready].
    { exists []. eexists. split; [reflexivity|]. split; [constructor|].
      simpl. by rewrite Herr, Hstate. }
    destruct (watching round) as [[]|e] eqn:Hwatch.
    2:{ exists []. eexists. split; [reflexivity|]. split; [constructor|].
        simpl. rewrite Herr, Hstate. destruct (decide (state = READY)); [done|].
        split; [by exists e|done]. }
    destruct IH as (polls & outcome & -> & Hpolls & Houtcome).
    exists (state :: polls), outcome. rewrite bind_cons. split; [|split].
    + by rewrite <- app_assoc.
    + simpl. constructor; [|done]. by repeat split.
    + done.
Qed.

End Waiting.

(** X14: [waitForReady] schedules [checkState]; the first call has no
    error.  Each call that has no error reads the state of the channel
    and, unless that state is READY, watches exactly the state it has just
    read, with the deadline of the method.  The calls that left a watch
    are followed by at most one more, and the callback is invoked by that
    one only, once, as the last thing done: with the deadline error when
    the call has an error; with 'The channel has been closed' when the
    channel throws, on the read or on the watch; with no error when the
    state read is READY.  While no call has ended that way, every call has
    left a watch. *)
Theorem wait_for_ready_outcome (Channel : Type) (this : Client.t Channel)
    (deadline : Deadline) (rounds : list WaitForReady.Round) :
  ∃ polls outcome,
    WaitForReady.waitForReady this deadline rounds =
      WaitForReady.SetImmediate ::
      (polls ≫= WaitForReady.poll this deadline) ++ outcome ∧
    Forall2 WaitForReady.watches
      (take (length polls) (WaitForReady.scheduled rounds)) polls ∧
    WaitForReady.ends_with this deadline
      (WaitForReady.scheduled rounds !! length polls) outcome.
Proof.
  unfold WaitForReady.waitForReady.
  destruct (checks_shape this deadline (WaitForReady.scheduled rounds))
    as (polls & outcome & -> & Hpolls & Houtcome).
  by exists polls, outcome.
Qed.

End ClientMoreProps.

(** ** More of the base filter: chains, and the time before quiescence *)

Module FilterMoreProps.
Import Promises BaseFilter FilterChain.

Section Calls.
Context {V : Type}.
Implicit Types (rt : Runtime V) (input returned : Promise).

Lemma async_promise rt input :
  (async (Normal (a_promise input)) rt).1 = length (promises rt).
Proof. done. Qed.

Lemma async_promises rt input :
  promises (async (Normal (a_promise input)) rt).2 = promises rt ++ [Pending []].
Proof. done. Qed.

Lemma async_jobs rt input :
  jobs (async (Normal (a_promise input)) rt).2 =
    jobs rt ++ [ResolveThenableJob (length (promises rt)) input].
Proof. done. Qed.

Lemma async_well_formed rt input :
  well_formed rt → input < length (promises rt) →
  well_formed (async (Normal (a_promise input)) rt).2.
Proof.
  intros [Hjobs Hstates] Hinput. split.
  - intros job r Hjob Hr. rewrite async_promises, length_app. simpl.
    rewrite async_jobs in Hjob. apply elem_of_app in Hjob as [Hjob|Hjob].
    + pose proof (Hjobs job r Hjob Hr). lia.
    + apply list_elem_of_singleton in Hjob as ->. simpl in Hr.
      apply elem_of_cons in Hr as [->|Hr]; [lia|].
      apply list_elem_of_singleton in Hr as ->. unfold Promise in *. lia.
  - intros st r Hst Hr. rewrite async_promises, length_app. simpl.
    rewrite async_promises in Hst. apply elem_of_app in Hst as [Hst|Hst].
    + pose proof (Hstates st r Hst Hr). lia.
    + apply list_elem_of_singleton in Hst as ->. by apply elem_of_nil in Hr.
Qed.

Lemma transform_async (which : Transform) input rt :
  transform which input rt = async (Normal (a_promise input)) rt.
Proof. by destruct which. Qed.

(** What a chain of transforms leaves: each promise returned follows the
    one it was given. *)
Lemma chain_follows (transforms : list Transform) input rt :
  well_formed rt → input < length (promises rt) →
  well_formed (chain transforms input rt).2 ∧
  (chain transforms input rt).1.1 < length (promises (chain transforms input rt).2) ∧
  (∀ q x, follows q x rt → follows q x (chain transforms input rt).2) ∧
  ∀ final : Runtime V,
    (∀ q x, q ∈ (chain transforms input rt).1.2 →
            follows q x (chain transforms input rt).2 → follows q x final) →
    jobs final = [] →
    ∀ outcome, promises final !! input = Some (Settled outcome) ↔
               promises final !! (chain transforms input rt).1.1 = Some (Settled outcome).
Proof.
  revert input rt. induction transforms as [|which rest IH]; intros input rt Hwf Hinput.
  - simpl. split; [done|]. split; [done|]. split; [done|]. by intros.
  - cbn [chain]. rewrite transform_async.
    set (called := async (Normal (a_promise input)) rt).
    assert (Hwf1 : well_formed called.2) by by apply async_well_formed.
    assert (Hreturned : called.1 < length (promises called.2)).
    { unfold called. rewrite async_promise, async_promises, length_app. simpl. lia. }
    destruct (IH called.1 called.2 Hwf1 Hreturned) as (Hwf2 & Hlast & Hkeep & Hlink).
    destruct called as [returned rt1] eqn:Hcalled. cbn [fst snd] in *.
    destruct (chain rest returned rt1) as [[last all] rt2] eqn:Hchain. cbn [fst snd] in *.
    assert (Hfollows : follows returned input rt2).
    { apply Hkeep.
      pose proof (FilterProps.async_follows rt input Hwf Hinput) as Hfollows.
      fold called in Hfollows. by rewrite Hcalled in Hfollows. }
    split; [done|]. split; [done|]. split.
    { intros q x Hq. apply Hkeep.
      replace rt1 with (async (Normal (a_promise input)) rt).2
        by (fold called; by rewrite Hcalled).
      by apply FilterProps.follows_async. }
    intros final Hfinal Hempty outcome.
    assert (Hfirst : promises final !! input = Some (Settled outcome) ↔
                     promises final !! returned = Some (Settled outcome)).
    { apply FilterProps.follows_quiescent; [|done].
      apply Hfinal; [|done]. apply elem_of_cons. by left. }
    rewrite Hfirst. apply Hlink; [|done].
    intros q x Hq. apply Hfinal. apply elem_of_cons. by right.
Qed.

End Calls.


(** X15: the transforms of [BaseFilter] compose to an identity: a promise
    passed through any number of them, each given the promise the one
    before returned, comes out as a promise that, once the job queue is
    empty, is fulfilled or rejected exactly as the first one is, however
    the program goes on in between, as long as only the runtime settles
    the promises returned. *)
Theorem base_filter_chain (V : Type) (transforms : list Transform) (input : Promise)
    (rt : Runtime V) (moves : list (Move V)) :
  well_formed rt →
  input < length (promises rt) →
  let passed := chain transforms input rt in
  Forall (λ m, Forall (λ returned, leaves returned m) passed.1.2) moves →
  let now := foldl move passed.2 moves in
  let final := drain (weight now) now in
  jobs final = [] ∧
  ∀ outcome, promises final !! input = Some (Settled outcome) ↔
             promises final !! passed.1.1 = Some (Settled outcome).
Proof.
  intros Hwf Hinput passed Hleaves now final.
  assert (Hempty : jobs final = []) by by apply FilterProps.drain_quiescent.
  split; [done|].
  destruct (chain_follows transforms input rt Hwf Hinput) as (_ & _ & _ & Hlink).
  apply Hlink; [|done].
  intros q x Hq Hfollows. apply FilterProps.follows_drain, FilterProps.follows_moves; [done|].
  eapply Forall_impl; [exact Hleaves|]. intros m Hm.
  by apply (proj1 (Forall_forall _ _) Hm).
Qed.

Lemma base_filter_chain_witness :
  let rt := {| promises := [Settled (Fulfilled "payload")]; jobs := [] |} in
  let passed := chain [SendMessage; ReceiveMessage; ReceiveTrailers] 0 rt in
  let final := drain (weight passed.2) passed.2 in
  passed.1 = (3, [1; 2; 3]) ∧
  jobs final = [] ∧
  (∀ outcome, promises final !! 0 = Some (Settled outcome) ↔
              promises final !! passed.1.1 = Some (Settled outcome)).
Proof.
  intros rt passed final.
  split; [reflexivity|].
  apply (base_filter_chain string [SendMessage; ReceiveMessage; ReceiveTrailers] 0 rt []).
  - split.
    + intros job r Hin. by apply elem_of_nil in Hin.
    + intros st r Hin. apply list_elem_of_singleton in Hin as ->.
      intros Hr. by apply elem_of_nil in Hr.
  - simpl. lia.
  - constructor.
Defined.

(** X16: a transform of [BaseFilter] never settles the promise it returns
    before its input: the call returns a new promise that is still
    pending, also when the input is already settled, and leaves every
    promise it found as it was; and at any later time, jobs still queued
    or not, if the returned promise is settled then the input is settled
    the same. *)
Theorem base_filter_settles_after_input (V : Type) (which : Transform) (input : Promise)
    (rt : Runtime V) (moves : list (Move V)) :
  well_formed rt →
  input < length (promises rt) →
  let called := transform which input rt in
  Forall (leaves called.1) moves →
  let now := foldl move called.2 moves in
  called.1 ≠ input ∧
  promises called.2 !! called.1 = Some (Pending []) ∧
  (∀ promise, promise < length (promises rt) →
     promises called.2 !! promise = promises rt !! promise) ∧
  (∀ outcome, promises now !! called.1 = Some (Settled outcome) →
              promises now !! input = Some (Settled outcome)).
Proof.
  intros Hwf Hinput called Hleaves now. subst now called.
  rewrite transform_async in *.
  pose proof (FilterProps.async_follows rt input Hwf Hinput) as Hfollows.
  split; [apply Hfollows|]. split; [|split].
  - rewrite async_promise, async_promises. by apply list_lookup_middle.
  - intros promise Hpromise. rewrite async_promises. by apply lookup_app_l.
  - intros outcome.
    by apply (follows_settled _ _ _ (FilterProps.follows_moves _ _ _ _ Hfollows Hleaves)).
Qed.

Lemma base_filter_settles_after_input_witness :
  let rt := {| promises := [Settled (Fulfilled "payload")]; jobs := [] |} in
  let called := receiveMetadata 0 rt in
  called.1 ≠ 0 ∧
  promises called.2 !! called.1 = Some (Pending []) ∧
  promises (move called.2 RunJob) !! called.1 = Some (Pending []).
Proof.
  intros rt called.
  destruct (base_filter_settles_after_input string ReceiveMetadata 0 rt [RunJob])
    as (Hdistinct & Hpending & _ & _).
  - split.
    + intros job r Hin. by apply elem_of_nil in Hin.
    + intros st r Hin. apply list_elem_of_singleton in Hin as ->.
      intros Hr. by apply elem_of_nil in Hr.
  - simpl. lia.
  - by repeat constructor.
  - split; [exact Hdistinct|]. split; [exact Hpending|reflexivity].
Defined.

End FilterMoreProps.
